(** * Live voice pipeline of the DermaGenius client

    A shallow embedding of the code behind the live voice chat:
    the PCM framer ([createBlob], [encode], [decode], [decodeAudioData]),
    the retry wrapper ([withRetry]), the system prompt built by
    [startLiveSession], and the callbacks that the chat screen registers
    in [startMic] and [stopMic].

    Sources: [src/services/geminiService.ts] and the chat screen
    component ([src/unnamed/part_006]). *)

From Stdlib Require Import ZArith QArith Qround Qabs Qminmax Lia Lqa.
From Stdlib Require Import Ascii String.
From stdpp Require Import base option list.

Open Scope Z_scope.

(* ================================================================== *)
(** * Part I: the program                                              *)
(* ================================================================== *)

(** ** Exceptions

    The exceptions the audio path can raise.  All of them come from the
    platform: typed arrays, [atob], Web Audio, and reading a property of
    [undefined]. *)

Inductive DOMException :=
| RangeError             (* new Int16Array(buffer) on an odd byte length *)
| InvalidCharacterError  (* atob on text that is not base64 *)
| NotSupportedError      (* createBuffer with a zero length or channel count *)
| InvalidStateError      (* AudioBufferSourceNode.stop() before start() *)
| TypeError.             (* reading [parts[0]] when [parts] is undefined *)

(** A computation that returns or throws. *)
Inductive outcome (A : Type) :=
| Ok (a : A)
| Throw (e : DOMException).
Arguments Ok {A} a.
Arguments Throw {A} e.

Definition succeeds {A} (o : outcome A) : bool :=
  match o with Ok _ => true | Throw _ => false end.

(** ** Numbers

    A JavaScript number held in a [Float32Array] is either a finite
    binary32 value, which is a dyadic rational, or not a number.  The
    framer only multiplies and divides by 32768, which is exact on every
    finite binary32 value, so the finite values are modelled in [Q]. *)

Inductive float :=
| Fin (q : Q)
| NaN.

Definition fmul (x : float) (k : Z) : float :=
  match x with Fin q => Fin (q * inject_Z k) | NaN => NaN end.

(** Truncation towards zero, the first step of ECMAScript's ToInt16. *)
Definition Qtrunc (q : Q) : Z := Z.quot (Qnum q) (Z.pos (Qden q)).

(** [wrap16 z]: [z] modulo 2^16, read as a signed 16-bit integer. *)
Definition wrap16 (z : Z) : Z :=
  let m := z mod 65536 in
  if 32768 <=? m then m - 65536 else m.

(** Storing a number in an [Int16Array] element (ToInt16): NaN becomes 0,
    a finite number is truncated and wrapped. *)
Definition ToInt16 (x : float) : Z :=
  match x with
  | NaN => 0
  | Fin q => wrap16 (Qtrunc q)
  end.

(** ** Doubles

    Outside typed arrays a JavaScript number is a binary64 value.  The
    playback clock and the cart quantities are sums of such numbers, and
    a sum is rounded: a finite double is kept as the rational it is, and
    [binary64] is the rounding every arithmetic operation ends with. *)

Module IEEE.

(** [2 ^ e] for an integer exponent. *)
Definition pow2 (e : Z) : Q :=
  if 0 <=? e then inject_Z (2 ^ e) else 1 # Z.to_pos (2 ^ (- e)).

(** The integer [k] with [2 ^ k <= x < 2 ^ (k + 1)], for a positive [x]. *)
Definition ilog2 (x : Q) : Z :=
  let k := Z.log2 (Qnum x) - Z.log2 (Zpos (Qden x)) in
  if Qle_bool (pow2 k) x then k else k - 1.

(** Rounding to the nearest integer, a tie to the even one. *)
Definition rne (z : Q) : Z :=
  let f := Qfloor z in
  match (z - inject_Z f ?= 1 # 2)%Q with
  | Lt => f
  | Gt => f + 1
  | Eq => if Z.even f then f else f + 1
  end.

(** The exponent of the last place of the binary64 numbers around [x]:
    53 significant bits, and no exponent below -1074 (subnormals). *)
Definition exponent (x : Q) : Z := Z.max (ilog2 (Qabs x) - 52) (-1074).

(** The binary64 number nearest to [x], a tie to the one with an even
    significand (the rounding of [+], [*] and [/] on JS numbers).  The
    exponent range is not bounded above: an [x] of 2^1024 and more, which
    rounds to an infinity, is outside this model; the playback clock,
    which adds the seconds a buffer lasts to the time a device reports,
    does not get there. *)
Definition binary64 (x : Q) : Q :=
  if Qeq_bool x 0 then 0%Q
  else (inject_Z (rne (x * pow2 (- exponent x))) * pow2 (exponent x))%Q.

(** The unit in the last place at [x]: the gap between the binary64
    numbers around [x]. *)
Definition ulp (x : Q) : Q := pow2 (exponent x).

End IEEE.

(** ** Typed array views

    [Uint8Array] is a list of bytes in [0, 255], [Int16Array] a list of
    integers in [-32768, 32767].  A view over the same buffer reads the
    bytes in the platform's order, little-endian. *)

(** [new Uint8Array(int16.buffer)] *)
Definition int16_bytes (v : Z) : list Z :=
  let u := v mod 65536 in [u mod 256; u / 256].

Definition Uint8Array_of_Int16 (int16 : list Z) : list Z :=
  flat_map int16_bytes int16.

(** [new Int16Array(data.buffer)]: a [RangeError] unless the byte length
    is a multiple of 2. *)
Fixpoint Int16Array_of_bytes (data : list Z) : outcome (list Z) :=
  match data with
  | [] => Ok []
  | [_] => Throw RangeError
  | lo :: hi :: rest =>
      match Int16Array_of_bytes rest with
      | Ok l => Ok (wrap16 (lo + 256 * hi) :: l)
      | Throw e => Throw e
      end
  end.

(** ** Base64 ([btoa] and [atob])

    A JavaScript string is modelled as a [string] of 8-bit code units,
    which covers every binary string; [atob] rejects any code unit above
    255 anyway. *)

Module Base64.

Definition alphabet : list ascii :=
  list_ascii_of_string
    "ABCDEFGHIJKLMNOPQRSTUVWXYZabcdefghijklmnopqrstuvwxyz0123456789+/".

Definition pad : ascii := "="%char.

Definition code (c : ascii) : Z := Z.of_N (N_of_ascii c).
Definition char (z : Z) : ascii := ascii_of_N (Z.to_N (z mod 256)).

Definition sextet_char (s : Z) : ascii :=
  nth (Z.to_nat s) alphabet pad.

Fixpoint index_of (c : ascii) (l : list ascii) (i : Z) : option Z :=
  match l with
  | [] => None
  | x :: r => if Ascii.eqb x c then Some i else index_of c r (i + 1)
  end.

Definition char_sextet (c : ascii) : option Z := index_of c alphabet 0.

(** Bytes to 6-bit groups, without the padding. *)
Fixpoint sextets (bytes : list Z) : list Z :=
  match bytes with
  | [] => []
  | [a] => [a / 4; (a mod 4) * 16]
  | [a; b] => [a / 4; (a mod 4) * 16 + b / 16; (b mod 16) * 4]
  | a :: b :: c :: rest =>
      a / 4 :: (a mod 4) * 16 + b / 16 :: (b mod 16) * 4 + c / 64
        :: c mod 64 :: sextets rest
  end.

Definition padding (n : nat) : list ascii :=
  match (n mod 3)%nat with
  | 1%nat => [pad; pad]
  | 2%nat => [pad]
  | _ => []
  end.

(** [btoa]: RFC 4648 base64 with padding. *)
Definition btoa (binary : string) : string :=
  let bytes := map code (list_ascii_of_string binary) in
  string_of_list_ascii
    (map sextet_char (sextets bytes) ++ padding (length bytes)).

Definition is_whitespace (c : ascii) : bool :=
  let n := code c in
  (n =? 9) || (n =? 10) || (n =? 12) || (n =? 13) || (n =? 32).

(** Remove up to two trailing [=]. *)
Definition strip_padding (l : list ascii) : list ascii :=
  match rev l with
  | p :: q :: r =>
      if Ascii.eqb p pad
      then if Ascii.eqb q pad then rev r else rev (q :: r)
      else l
  | [p] => if Ascii.eqb p pad then [] else l
  | [] => l
  end.

Fixpoint all_sextets (l : list ascii) : option (list Z) :=
  match l with
  | [] => Some []
  | c :: r =>
      match char_sextet c, all_sextets r with
      | Some s, Some ss => Some (s :: ss)
      | _, _ => None
      end
  end.

(** 6-bit groups back to bytes; a tail of two or three groups yields one
    or two bytes and its spare low bits are discarded. *)
Fixpoint bytes_of_sextets (ss : list Z) : list Z :=
  match ss with
  | s1 :: s2 :: s3 :: s4 :: rest =>
      s1 * 4 + s2 / 16 :: (s2 mod 16) * 16 + s3 / 4 :: (s3 mod 4) * 64 + s4
        :: bytes_of_sextets rest
  | [s1; s2; s3] => [s1 * 4 + s2 / 16; (s2 mod 16) * 16 + s3 / 4]
  | [s1; s2] => [s1 * 4 + s2 / 16]
  | _ => []
  end.

(** [atob]: the forgiving base64 decode of the HTML standard.  ASCII
    whitespace is removed; when the length is a multiple of 4, up to two
    trailing [=] are removed; a length of 1 modulo 4, or any character
    outside the alphabet, is an [InvalidCharacterError]. *)
Definition atob (data : string) : outcome string :=
  let d := filter (fun c => is_whitespace c = false) (list_ascii_of_string data) in
  let d := if (Z.of_nat (length d) mod 4 =? 0) then strip_padding d else d in
  if Z.of_nat (length d) mod 4 =? 1 then Throw InvalidCharacterError
  else match all_sextets d with
       | None => Throw InvalidCharacterError
       | Some ss => Ok (string_of_list_ascii (map char (bytes_of_sextets ss)))
       end.

End Base64.

(** ** The framer (geminiService.ts, "Live API Utilities") *)

(** [encode(bytes)]: one code unit per byte, then [btoa]. *)
Definition encode (bytes : list Z) : string :=
  let binary := string_of_list_ascii (map Base64.char bytes) in
  Base64.btoa binary.

(** [decode(base64)]: [atob], then one byte per code unit. *)
Definition decode (base64 : string) : outcome (list Z) :=
  match Base64.atob base64 with
  | Ok binaryString => Ok (map Base64.code (list_ascii_of_string binaryString))
  | Throw e => Throw e
  end.

Record AudioBuffer := {
  sampleRate : Q;
  channels : list (list float)    (* getChannelData(c), one per channel *)
}.

(** [buffer.length]: the number of sample frames. *)
Definition frames (b : AudioBuffer) : nat :=
  match channels b with
  | [] => 0%nat
  | c :: _ => length c
  end.

(** [buffer.duration], in seconds: the length divided by the sample
    rate, a double. *)
Definition duration (b : AudioBuffer) : Q :=
  IEEE.binary64 (inject_Z (Z.of_nat (frames b)) / sampleRate b)%Q.

(** The most channels [createBuffer] accepts. *)
Definition maxChannels : nat := 32.

(** [ctx.createBuffer(numberOfChannels, length, sampleRate)].  The length
    is an [unsigned long], so a fractional argument is truncated.  A zero
    channel count or length, or more than [maxChannels] channels, is a
    [NotSupportedError].  The sample rate is taken to be one the context
    supports (the program only ever passes 24000). *)
Definition createBuffer (numberOfChannels : nat) (len : Q) (rate : Q)
  : outcome AudioBuffer :=
  let n := Z.to_nat (Qfloor len) in
  if (numberOfChannels =? 0)%nat || (maxChannels <? numberOfChannels)%nat
     || (n =? 0)%nat
  then Throw NotSupportedError
  else Ok {| sampleRate := rate;
             channels := replicate numberOfChannels (replicate n (Fin 0)) |}.

(** [dataInt16[k] / 32768.0]; reading past the end gives [undefined],
    and [undefined / 32768.0] is NaN. *)
Definition sample_at (dataInt16 : list Z) (k : nat) : float :=
  match dataInt16 !! k with
  | Some v => Fin (inject_Z v / 32768)%Q
  | None => NaN
  end.

(** The inner loop of [decodeAudioData]: [for (i = 0; i < frameCount; i++)
    channelData[i] = dataInt16[i * numChannels + channel] / 32768.0].
    [iters] is the number of [i] below [frameCount].  A store past the
    end of a typed array does nothing, as stdpp's insert. *)
Definition fill_channel (dataInt16 : list Z) (numChannels channel : nat)
    (iters : nat) (channelData : list float) : list float :=
  foldl (fun cd i => <[ i := sample_at dataInt16 (i * numChannels + channel) ]> cd)
        channelData (seq 0 iters).

(** The outer loop: [for (channel = 0; channel < numChannels; channel++)]. *)
Definition fill_channels (dataInt16 : list Z) (numChannels : nat)
    (iters : nat) (chans : list (list float)) : list (list float) :=
  foldl (fun cs channel =>
           match cs !! channel with
           | Some cd => <[ channel := fill_channel dataInt16 numChannels channel iters cd ]> cs
           | None => cs
           end)
        chans (seq 0 numChannels).

(** [decodeAudioData(data, ctx, sampleRate, numChannels)].  With
    [numChannels = 0] the frame count is not finite and [createBuffer]
    throws whatever its value. *)
Definition decodeAudioData (data : list Z) (rate : Q) (numChannels : nat)
  : outcome AudioBuffer :=
  match Int16Array_of_bytes data with
  | Throw e => Throw e
  | Ok dataInt16 =>
      let frameCount : Q :=
        (inject_Z (Z.of_nat (length dataInt16)) / inject_Z (Z.of_nat numChannels))%Q in
      match createBuffer numChannels frameCount rate with
      | Throw e => Throw e
      | Ok buffer =>
          let iters := Z.to_nat (Qceiling frameCount) in
          Ok {| sampleRate := sampleRate buffer;
                channels := fill_channels dataInt16 numChannels iters (channels buffer) |}
      end
  end.

Record Blob := {
  data : string;
  mimeType : string
}.

(** [createBlob(data)]: [int16[i] = data[i] * 32768], then the bytes of
    the Int16Array, base64-encoded. *)
Definition createBlob (samples : list float) : Blob :=
  let int16 := map (fun x => ToInt16 (fmul x 32768)) samples in
  {| data := encode (Uint8Array_of_Int16 int16);
     mimeType := "audio/pcm;rate=16000" |}.

(** A buffer decoded from what [createBlob] produced, as the inbound
    path does it: [decodeAudioData(decode(blob.data), ctx, rate, 1)]. *)
Definition roundtrip (samples : list float) (rate : Q) : outcome AudioBuffer :=
  match decode (data (createBlob samples)) with
  | Throw e => Throw e
  | Ok bytes => decodeAudioData bytes rate 1
  end.

(** What a sample becomes on its way through [createBlob] and back. *)
Definition requantized (x : float) : float :=
  Fin (inject_Z (ToInt16 (fmul x 32768)) / 32768).

(** The ranges of the elements of a [Uint8Array], of a base64 digit and
    of the elements of an [Int16Array]. *)
Definition is_byte (b : Z) : Prop := 0 <= b < 256.
Definition is_sextet (s : Z) : Prop := 0 <= s < 64.
Definition is_int16 (v : Z) : Prop := -32768 <= v < 32768.

(** ** The retry wrapper (geminiService.ts, [withRetry]) *)

Module Retry.

Definition MAX_RETRIES : nat := 5.
Definition INITIAL_DELAY_MS : Z := 250.

(** What a [catch] clause can receive: [null] or [undefined], or a value
    with (possibly absent) [status], [httpStatus] and [message]. *)
Record ErrorFields := {
  status : option string;
  httpStatus : option Z;
  message : option string
}.

Inductive Thrown :=
| Nullish
| Err (f : ErrorFields).

(** [hay.includes(needle)] *)
Fixpoint includes (needle hay : string) : bool :=
  String.prefix needle hay ||
  match hay with
  | EmptyString => false
  | String _ rest => includes needle rest
  end.

Definition lower (c : ascii) : ascii :=
  let n := N_of_ascii c in
  if ((65 <=? n) && (n <=? 90))%N then ascii_of_N (n + 32) else c.

Fixpoint lowercase (s : string) : string :=
  match s with
  | EmptyString => EmptyString
  | String c rest => String (lower c) (lowercase rest)
  end.

(** [/rate limit/i.test(s)]: the pattern is ASCII, and without the [u]
    flag no code unit above 127 folds onto an ASCII letter. *)
Definition rate_limit_regex (s : string) : bool :=
  includes "rate limit" (lowercase s).

Definition isRateLimitError (error : Thrown) : bool :=
  match error with
  | Nullish => false
  | Err f =>
      if match status f with
         | Some s => String.eqb s "RESOURCE_EXHAUSTED"
         | None => false
         end
         || match httpStatus f with
            | Some n => n =? 429
            | None => false
            end
      then true
      else match message f with
           | Some m =>
               negb (String.eqb m EmptyString)
               && (includes "429" m || rate_limit_regex m)
           | None => false
           end
  end.

(** [new Error("Max retries reached, but no error was captured.")] *)
Definition no_error_captured : Thrown :=
  Err {| status := None; httpStatus := None;
         message := Some "Max retries reached, but no error was captured."%string |}.

(** What one run of [withRetry] did: its result (a value or a thrown
    error), how often it invoked [apiCall], the base delays it slept
    (without the random jitter), and the world it left. *)
Record Run (W T : Type) := {
  result : T + Thrown;
  calls : nat;
  delays : list Z;
  world : W
}.
Arguments result {W T} _.
Arguments calls {W T} _.
Arguments delays {W T} _.
Arguments world {W T} _.

Section WithRetry.
Context {W T : Type}.

(** The wrapped call: it reads and changes the outside world, and
    resolves with a value or rejects with an error. *)
Variable apiCall : W -> (T + Thrown) * W.

(** The [for] loop, with [remaining = MAX_RETRIES - attempt]
    iterations to go. *)
Fixpoint loop (remaining attempt : nat) (lastError : Thrown)
    (n : nat) (ds : list Z) (w : W) : Run W T :=
  match remaining with
  | O =>
      {| result := inr (match lastError with
                        | Nullish => no_error_captured
                        | e => e
                        end);
         calls := n; delays := ds; world := w |}
  | S remaining' =>
      match apiCall w with
      | (inl v, w') =>
          {| result := inl v; calls := S n; delays := ds; world := w' |}
      | (inr e, w') =>
          if isRateLimitError e then
            if (attempt <? MAX_RETRIES - 1)%nat then
              loop remaining' (S attempt) e (S n)
                   (ds ++ [INITIAL_DELAY_MS * 2 ^ Z.of_nat attempt]) w'
            else
              loop remaining' (S attempt) e (S n) ds w'
          else
            {| result := inr e; calls := S n; delays := ds; world := w' |}
      end
  end.

Definition withRetry (w : W) : Run W T :=
  loop MAX_RETRIES 0 Nullish 0 [] w.

(** The world after [k] invocations of [apiCall], and what invocation
    number [k] (counting from 0) answers. *)
Fixpoint world_after (k : nat) (w : W) : W :=
  match k with
  | O => w
  | S k' => world_after k' (snd (apiCall w))
  end.

Definition outcome_at (k : nat) (w : W) : T + Thrown :=
  fst (apiCall (world_after k w)).

(** Invocation [k] rejects with a rate-limit error. *)
Definition rate_limited_at (k : nat) (w : W) : Prop :=
  exists e, outcome_at k w = inr e /\ isRateLimitError e = true.

End WithRetry.

(** A call whose successive outcomes are scripted: the world is the list
    of outcomes still to come, and a call past its end keeps rejecting
    with [fallback]. *)
Definition scripted {T} (fallback : Thrown) (w : list (T + Thrown))
  : (T + Thrown) * list (T + Thrown) :=
  match w with
  | [] => (inr fallback, [])
  | o :: rest => (o, rest)
  end.

(** A rate-limit error as the SDK reports it. *)
Definition too_many_requests : Thrown :=
  Err {| status := None; httpStatus := Some 429; message := None |}.

(** An error that has a message and nothing else, as [new Error(m)]. *)
Definition Error (m : string) : Thrown :=
  Err {| status := None; httpStatus := None; message := Some m |}.

(** The claim's words for the two tests on the message, stated without
    the functions above.  [hay] contains [needle]: *)
Definition contains (needle hay : string) : Prop :=
  exists pre post, hay = (pre ++ needle ++ post)%string.

(** [a] is [b], or the two are the upper-case and the lower-case form of
    one ASCII letter (A to Z are 65 to 90, a to z are 32 above). *)
Definition same_letter (a b : ascii) : Prop :=
  a = b
  \/ ((65 <= N_of_ascii a <= 90)%N /\ N_of_ascii b = (N_of_ascii a + 32)%N)
  \/ ((65 <= N_of_ascii b <= 90)%N /\ N_of_ascii a = (N_of_ascii b + 32)%N).

Inductive ignoring_case : string -> string -> Prop :=
| ignoring_case_nil : ignoring_case EmptyString EmptyString
| ignoring_case_cons a b s t :
    same_letter a b -> ignoring_case s t ->
    ignoring_case (String a s) (String b t).

(** [s] has a part that is [pattern] up to the case of its letters. *)
Definition matches_ignoring_case (pattern s : string) : Prop :=
  exists part, ignoring_case part pattern /\ contains part s.

End Retry.

(** ** The system prompt of the live session (geminiService.ts,
       [startLiveSession]) *)

Module Prompt.

Record UserProfile := {
  skinType : string;
  allergies : list string;
  goals : string
}.

(** Every field is optional ([undefined] when absent). *)
Record MedicalQuestionnaireData := {
  medicalHistory : option string;
  currentMedications : option string;
  concomitantMedications : option string;
  signsSymptoms : option string;
  labWork : option string;
  recentVaccinations : option string
}.

Definition LF : string := String (ascii_of_nat 10) EmptyString.

Definition base_persona : string :=
  "You are DermaGenius, a friendly and knowledgeable AI skincare assistant. Your goal is to provide helpful, safe, and informative advice on skincare. You are not a medical professional. Always remind users to consult a dermatologist for serious medical conditions. Be encouraging and positive in your tone.".

(** [a || b] on strings: the empty string is falsy. *)
Definition or_else (a b : string) : string :=
  if String.eqb a EmptyString then b else a.

(** The text appended for a profile. *)
Definition profile_text (p : UserProfile) : string :=
  (LF ++ LF ++ "User Profile: Skin Type: " ++ skinType p
   ++ ". Known Allergies: " ++ or_else (String.concat ", " (allergies p)) "None"
   ++ ". Skincare Goals: " ++ goals p
   ++ ". Tailor advice to this profile.")%string.

(** [if (field) medicalContext.push(`label: ${field}`)]: an absent or
    empty field is falsy. *)
Definition push_if (label : string) (field : option string)
    (medicalContext : list string) : list string :=
  match field with
  | Some v =>
      if String.eqb v EmptyString then medicalContext
      else medicalContext ++ [(label ++ ": " ++ v)%string]
  | None => medicalContext
  end.

Definition medicalContext_of (md : MedicalQuestionnaireData) : list string :=
  let mc := [] in
  let mc := push_if "Medical History" (medicalHistory md) mc in
  let mc := push_if "Current Medications" (currentMedications md) mc in
  let mc := push_if "Concomitant Medications" (concomitantMedications md) mc in
  let mc := push_if "Signs & Symptoms" (signsSymptoms md) mc in
  let mc := push_if "Lab Work" (labWork md) mc in
  let mc := push_if "Recent Vaccinations" (recentVaccinations md) mc in
  mc.

(** The text appended for a non-empty medical context. *)
Definition medical_text (medicalContext : list string) : string :=
  (LF ++ LF ++ "User Medical Context: " ++ String.concat "; " medicalContext
   ++ ". Keep this in mind for all advice, especially regarding safety, interactions, and contraindications.")%string.

(** The [systemInstruction] that [startLiveSession] passes to
    [ai.live.connect]. *)
Definition systemInstruction (userProfile : option UserProfile)
    (medicalData : option MedicalQuestionnaireData) : string :=
  let systemInstruction := base_persona in
  let systemInstruction :=
    match userProfile with
    | Some p => (systemInstruction ++ profile_text p)%string
    | None => systemInstruction
    end in
  match medicalData with
  | Some md =>
      let medicalContext := medicalContext_of md in
      if (0 <? length medicalContext)%nat
      then (systemInstruction ++ medical_text medicalContext)%string
      else systemInstruction
  | None => systemInstruction
  end.

(** The claim's reading of the same prompt: the persona, then a profile
    segment, then a medical segment, each of the two present exactly
    when its data is.  The segments are written out on their own here,
    not in terms of the definitions above. *)
Definition non_empty (field : option string) : bool :=
  match field with
  | Some v => negb (String.eqb v EmptyString)
  | None => false
  end.

Definition has_non_empty_field (md : MedicalQuestionnaireData) : bool :=
  non_empty (medicalHistory md) || non_empty (currentMedications md)
  || non_empty (concomitantMedications md) || non_empty (signsSymptoms md)
  || non_empty (labWork md) || non_empty (recentVaccinations md).

(** The fields of the questionnaire under their labels, in the order of
    the form. *)
Definition labelled_fields (md : MedicalQuestionnaireData)
  : list (string * option string) :=
  [ ("Medical History"%string, medicalHistory md);
    ("Current Medications"%string, currentMedications md);
    ("Concomitant Medications"%string, concomitantMedications md);
    ("Signs & Symptoms"%string, signsSymptoms md);
    ("Lab Work"%string, labWork md);
    ("Recent Vaccinations"%string, recentVaccinations md) ].

(** "label: value" for every field that is present and not empty. *)
Definition stated_fields (md : MedicalQuestionnaireData) : list string :=
  flat_map (fun lf =>
              match snd lf with
              | Some v =>
                  if String.eqb v EmptyString then []
                  else [(fst lf ++ ": " ++ v)%string]
              | None => []
              end) (labelled_fields md).

Definition profile_segment (userProfile : option UserProfile) : list string :=
  match userProfile with
  | Some p =>
      [(LF ++ LF ++ "User Profile: Skin Type: " ++ skinType p
        ++ ". Known Allergies: "
        ++ match String.concat ", " (allergies p) with
           | EmptyString => "None"
           | joined => joined
           end
        ++ ". Skincare Goals: " ++ goals p
        ++ ". Tailor advice to this profile.")%string]
  | None => []
  end.

Definition medical_segment (medicalData : option MedicalQuestionnaireData)
  : list string :=
  match medicalData with
  | Some md =>
      if has_non_empty_field md
      then [(LF ++ LF ++ "User Medical Context: "
             ++ String.concat "; " (stated_fields md)
             ++ ". Keep this in mind for all advice, especially regarding safety, interactions, and contraindications.")%string]
      else []
  | None => []
  end.

End Prompt.

(** ** The chat screen's voice session (the [ChatScreen] component)

    React semantics.  A function component runs once per render; the
    values returned by [useState] are constants of that render, and a
    callback created during a render sees the values of that render for
    as long as it lives.  State setters and [useRef] cells act on the
    component's store, which all renders share.

    Accordingly the store is a record [Store]; what a render sees of it
    is its [hooks] part; and every callback below takes the [Hooks] of
    the render that created it as an explicit argument [r].  The
    callbacks that [startMic] hands to the processor and to the session
    are created inside one invocation of [startMic], so they all carry
    the render in which the microphone button was clicked. *)

Module Chat.

Inductive ChatRole := USER | MODEL.

Record ChatMessage := {
  role : ChatRole;
  text : string
}.

(** Platform objects are known by their identity. *)
Definition LiveSession := nat.
Definition MediaStream := nat.
Definition ScriptProcessorNode := nat.

(** The [useState] cells. *)
Record Hooks := {
  chatHistory : list ChatMessage;
  isListening : bool;
  liveSession : option LiveSession;
  micStream : option MediaStream;
  audioInputProcessor : option ScriptProcessorNode;
  currentInputTranscription : string;
  currentOutputTranscription : string;
  sessionError : option string
}.

(** An [AudioBufferSourceNode]. *)
Record SourceNode := {
  buffer : AudioBuffer;
  startedAt : option Q;   (* the argument of start(), once called *)
  stopped : bool          (* stop() was called *)
}.

(** Calls that leave the component. *)
Inductive Effect :=
| TracksStopped (stream : MediaStream)
| Disconnected (processor : ScriptProcessorNode)
| SessionClosed (session : LiveSession)
| SentRealtimeInput (session : LiveSession) (media : Blob)
| ConsoleError (msg : string).

Record Store := {
  hooks : Hooks;
  outputAudio : bool;           (* outputAudioContextRef and outputNodeRef are set *)
  audioSources : list nat;      (* audioSourcesRef.current: a Set, in insertion order *)
  nextStartTime : Q;            (* nextStartTimeRef.current *)
  nodes : list SourceNode;      (* every source node created, by identity *)
  effects : list Effect         (* oldest first *)
}.

(** *** Setters *)

Definition setChatHistory (f : list ChatMessage -> list ChatMessage) (h : Hooks) : Hooks :=
  {| chatHistory := f (chatHistory h); isListening := isListening h;
     liveSession := liveSession h; micStream := micStream h;
     audioInputProcessor := audioInputProcessor h;
     currentInputTranscription := currentInputTranscription h;
     currentOutputTranscription := currentOutputTranscription h;
     sessionError := sessionError h |}.

Definition setIsListening (v : bool) (h : Hooks) : Hooks :=
  {| chatHistory := chatHistory h; isListening := v;
     liveSession := liveSession h; micStream := micStream h;
     audioInputProcessor := audioInputProcessor h;
     currentInputTranscription := currentInputTranscription h;
     currentOutputTranscription := currentOutputTranscription h;
     sessionError := sessionError h |}.

Definition setLiveSession (v : option LiveSession) (h : Hooks) : Hooks :=
  {| chatHistory := chatHistory h; isListening := isListening h;
     liveSession := v; micStream := micStream h;
     audioInputProcessor := audioInputProcessor h;
     currentInputTranscription := currentInputTranscription h;
     currentOutputTranscription := currentOutputTranscription h;
     sessionError := sessionError h |}.

Definition setMicStream (v : option MediaStream) (h : Hooks) : Hooks :=
  {| chatHistory := chatHistory h; isListening := isListening h;
     liveSession := liveSession h; micStream := v;
     audioInputProcessor := audioInputProcessor h;
     currentInputTranscription := currentInputTranscription h;
     currentOutputTranscription := currentOutputTranscription h;
     sessionError := sessionError h |}.

Definition setAudioInputProcessor (v : option ScriptProcessorNode) (h : Hooks) : Hooks :=
  {| chatHistory := chatHistory h; isListening := isListening h;
     liveSession := liveSession h; micStream := micStream h;
     audioInputProcessor := v;
     currentInputTranscription := currentInputTranscription h;
     currentOutputTranscription := currentOutputTranscription h;
     sessionError := sessionError h |}.

Definition setCurrentInputTranscription (f : string -> string) (h : Hooks) : Hooks :=
  {| chatHistory := chatHistory h; isListening := isListening h;
     liveSession := liveSession h; micStream := micStream h;
     audioInputProcessor := audioInputProcessor h;
     currentInputTranscription := f (currentInputTranscription h);
     currentOutputTranscription := currentOutputTranscription h;
     sessionError := sessionError h |}.

Definition setCurrentOutputTranscription (f : string -> string) (h : Hooks) : Hooks :=
  {| chatHistory := chatHistory h; isListening := isListening h;
     liveSession := liveSession h; micStream := micStream h;
     audioInputProcessor := audioInputProcessor h;
     currentInputTranscription := currentInputTranscription h;
     currentOutputTranscription := f (currentOutputTranscription h);
     sessionError := sessionError h |}.

Definition setSessionError (v : option string) (h : Hooks) : Hooks :=
  {| chatHistory := chatHistory h; isListening := isListening h;
     liveSession := liveSession h; micStream := micStream h;
     audioInputProcessor := audioInputProcessor h;
     currentInputTranscription := currentInputTranscription h;
     currentOutputTranscription := currentOutputTranscription h;
     sessionError := v |}.

Definition with_hooks (f : Hooks -> Hooks) (st : Store) : Store :=
  {| hooks := f (hooks st); outputAudio := outputAudio st;
     audioSources := audioSources st; nextStartTime := nextStartTime st;
     nodes := nodes st; effects := effects st |}.

Definition with_audioSources (f : list nat -> list nat) (st : Store) : Store :=
  {| hooks := hooks st; outputAudio := outputAudio st;
     audioSources := f (audioSources st); nextStartTime := nextStartTime st;
     nodes := nodes st; effects := effects st |}.

Definition with_nextStartTime (f : Q -> Q) (st : Store) : Store :=
  {| hooks := hooks st; outputAudio := outputAudio st;
     audioSources := audioSources st; nextStartTime := f (nextStartTime st);
     nodes := nodes st; effects := effects st |}.

Definition with_nodes (f : list SourceNode -> list SourceNode) (st : Store) : Store :=
  {| hooks := hooks st; outputAudio := outputAudio st;
     audioSources := audioSources st; nextStartTime := nextStartTime st;
     nodes := f (nodes st); effects := effects st |}.

Definition emit (e : Effect) (st : Store) : Store :=
  {| hooks := hooks st; outputAudio := outputAudio st;
     audioSources := audioSources st; nextStartTime := nextStartTime st;
     nodes := nodes st; effects := effects st ++ [e] |}.

(** *** Callbacks as store transformers that may throw

    An exception leaves the store as it was when it was raised. *)

Definition M (A : Type) : Type := Store -> outcome A * Store.

Definition ret {A} (a : A) : M A := fun st => (Ok a, st).

Definition bind {A B} (m : M A) (k : A -> M B) : M B :=
  fun st =>
    match m st with
    | (Ok a, st') => k a st'
    | (Throw e, st') => (Throw e, st')
    end.

Definition throw {A} (e : DOMException) : M A := fun st => (Throw e, st).

Definition gets {A} (f : Store -> A) : M A := fun st => (Ok (f st), st).

Definition modify (f : Store -> Store) : M unit := fun st => (Ok tt, f st).

Definition lift {A} (o : outcome A) : M A := fun st => (o, st).

Definition when (b : bool) (m : M unit) : M unit := if b then m else ret tt.

(** Calling an async function without awaiting or catching its promise:
    what it did to the store stays, and a rejection goes nowhere. *)
Definition unawaited {A} (m : M A) : M unit := fun st => (Ok tt, snd (m st)).

Declare Scope chat_scope.
Delimit Scope chat_scope with chat.
Notation "x <- m ;; k" := (bind m (fun x => k))
  (at level 100, m at next level, k at level 200, right associativity) : chat_scope.
Notation "m ;; k" := (bind m (fun _ => k))
  (at level 100, k at level 200, right associativity) : chat_scope.

(** [list.forEach(f)] *)
Fixpoint forEach {A} (f : A -> M unit) (l : list A) : M unit :=
  match l with
  | [] => ret tt
  | x :: rest => (f x ;; forEach f rest)%chat
  end.

(** *** Source nodes *)

(** [audioCtx.createBufferSource()], then [sourceNode.buffer = b]. *)
Definition createBufferSource (b : AudioBuffer) : M nat :=
  fun st =>
    (Ok (length (nodes st)),
     with_nodes (fun ns => ns ++ [{| buffer := b; startedAt := None; stopped := false |}]) st).

(** [sourceNode.start(when)]: a [RangeError] for a negative [when], an
    [InvalidStateError] when called twice. *)
Definition start (node : nat) (when_ : Q) : M unit :=
  fun st =>
    match nodes st !! node with
    | Some n =>
        match startedAt n with
        | Some _ => (Throw InvalidStateError, st)
        | None =>
            if Qle_bool 0 when_
            then (Ok tt,
                  with_nodes (fun ns => <[ node := {| buffer := buffer n;
                                                      startedAt := Some when_;
                                                      stopped := stopped n |} ]> ns) st)
            else (Throw RangeError, st)
        end
    | None => (Ok tt, st)
    end.

(** [source.stop()]: an [InvalidStateError] before [start()]; stopping a
    node that has stopped or ended is allowed. *)
Definition stop (node : nat) : M unit :=
  fun st =>
    match nodes st !! node with
    | Some n =>
        match startedAt n with
        | None => (Throw InvalidStateError, st)
        | Some t =>
            (Ok tt,
             with_nodes (fun ns => <[ node := {| buffer := buffer n;
                                                 startedAt := Some t;
                                                 stopped := true |} ]> ns) st)
        end
    | None => (Ok tt, st)
    end.

(** [set.add(x)] and [set.delete(x)] on a Set kept in insertion order. *)
Definition set_add (x : nat) (s : list nat) : list nat :=
  if existsb (Nat.eqb x) s then s else s ++ [x].

Definition set_delete (x : nat) (s : list nat) : list nat :=
  filter (fun y => y <> x) s.

(** [audioSourcesRef.current.forEach(source => source.stop());
     audioSourcesRef.current.clear();] *)
Definition stop_and_clear : M unit :=
  (srcs <- gets audioSources ;;
   forEach stop srcs ;;
   modify (with_audioSources (fun _ => [])))%chat.

(** *** [stopMic]

    [r] supplies [micStream], [audioInputProcessor] and [liveSession];
    [stopLiveSession] is an async function, so nothing it raises reaches
    [stopMic]. *)
Definition stopLiveSession (session : option LiveSession) : M unit :=
  match session with
  | Some s => modify (emit (SessionClosed s))
  | None => ret tt
  end.

Definition stopMic (r : Hooks) : M unit :=
  (match micStream r with
   | Some stream => modify (emit (TracksStopped stream))
   | None => ret tt
   end ;;
   match audioInputProcessor r with
   | Some p => modify (emit (Disconnected p))
   | None => ret tt
   end ;;
   match liveSession r with
   | Some s => stopLiveSession (Some s)
   | None => ret tt
   end ;;
   stop_and_clear ;;
   modify (with_hooks (setMicStream None)) ;;
   modify (with_hooks (setAudioInputProcessor None)) ;;
   modify (with_hooks (setLiveSession None)) ;;
   modify (with_hooks (setIsListening false)) ;;
   modify (with_hooks (setCurrentInputTranscription (fun _ => EmptyString))) ;;
   modify (with_hooks (setCurrentOutputTranscription (fun _ => EmptyString))) ;;
   modify (with_nextStartTime (fun _ => 0%Q)))%chat.

(** *** The callbacks created by [startMic] *)

(** [processAudioChunk(Promise.resolve(session), inputData)] *)
Definition processAudioChunk (session : LiveSession) (inputData : list float) : M unit :=
  let pcmBlob := createBlob inputData in
  modify (emit (SentRealtimeInput session pcmBlob)).

(** [scriptProcessor.onaudioprocess] *)
Definition onaudioprocess (r : Hooks) (inputData : list float) : M unit :=
  match liveSession r with
  | Some session => processAudioChunk session inputData
  | None => ret tt
  end.

(** [serverContent.modelTurn] as [onmessage] reads it: absent, present
    without [parts] (reading [parts[0]] then raises a [TypeError]), or
    with [parts], of which [parts[0]?.inlineData?.data] is read. *)
Inductive ModelTurn :=
| NoModelTurn
| WithoutParts
| Parts (data : option string).

(** The fields of a [LiveServerMessage] that the program reads.  A
    transcription is an object that may lack its [text]. *)
Record LiveServerMessage := {
  outputTranscription : option (option string);  (* serverContent.outputTranscription, and its .text *)
  inputTranscription : option (option string);   (* serverContent.inputTranscription, and its .text *)
  turnComplete : bool;                           (* serverContent.turnComplete *)
  modelTurn : ModelTurn;                         (* serverContent.modelTurn *)
  interrupted : bool                             (* serverContent.interrupted *)
}.

(** [serverContent?.modelTurn?.parts[0]?.inlineData?.data], where reading
    it does not raise. *)
Definition inlineData (message : LiveServerMessage) : option string :=
  match modelTurn message with
  | Parts data => data
  | _ => None
  end.

(** [audioCtx.currentTime]: the double the context reports when the
    device clock reads [deviceTime] seconds. *)
Definition currentTime (deviceTime : Q) : Q := IEEE.binary64 deviceTime.

(** [decodeAudioData(decode(base64Audio), audioCtx, 24000, 1)] *)
Definition decoded (base64Audio : string) : outcome AudioBuffer :=
  match decode base64Audio with
  | Ok bytes => decodeAudioData bytes 24000 1
  | Throw e => Throw e
  end.

(** The audio delta of a message: the body of [if (base64Audio)] in the
    [onmessage] callback of [startMic]. *)
Definition enqueue (base64Audio : string) (deviceTime : Q) : M unit :=
  (modify (with_nextStartTime (fun t => Qmax t (currentTime deviceTime))) ;;
   audioBuffer <- lift (decoded base64Audio) ;;
   sourceNode <- createBufferSource audioBuffer ;;
   t <- gets nextStartTime ;;
   start sourceNode t ;;
   modify (with_nextStartTime (fun t => IEEE.binary64 (t + duration audioBuffer))) ;;
   modify (with_audioSources (set_add sourceNode)))%chat.

(** The body of [if (message.serverContent?.interrupted)]. *)
Definition interrupt : M unit :=
  (stop_and_clear ;;
   modify (with_nextStartTime (fun _ => 0%Q)))%chat.

(** The [onmessage] callback of [startMic].  It is an async function: a
    [Throw] here is a rejected promise.  Its one [await] is on a promise
    that is already settled, so the whole body runs before the next
    event is delivered. *)
Definition onmessage (message : LiveServerMessage) (deviceTime : Q) : M unit :=
  (ready <- gets outputAudio ;;
   if negb ready then ret tt else
   match modelTurn message with
   | WithoutParts => throw TypeError
   | _ => ret tt
   end ;;
   match inlineData message with
   | Some base64Audio =>
       if String.eqb base64Audio EmptyString then ret tt else enqueue base64Audio deviceTime
   | None => ret tt
   end ;;
   when (interrupted message) interrupt)%chat.

Inductive TranscriptionType := input | output.

(** [prev + text], where [text] may be [undefined]. *)
Definition plus_text (prev : string) (text_ : option string) : string :=
  (prev ++ match text_ with
           | Some t => t
           | None => "undefined"
           end)%string.

(** The [onTranscription] callback. *)
Definition onTranscription (type : TranscriptionType) (text_ : option string) : M unit :=
  match type with
  | input => modify (with_hooks (setCurrentInputTranscription (fun prev => plus_text prev text_)))
  | output => modify (with_hooks (setCurrentOutputTranscription (fun prev => plus_text prev text_)))
  end.

Definition truthy (s : string) : bool := negb (String.eqb s EmptyString).

(** The [onTurnComplete] callback.  [currentInputTranscription] and
    [currentOutputTranscription] are the constants of the render [r]. *)
Definition onTurnComplete (r : Hooks) : M unit :=
  (when (truthy (currentInputTranscription r) || truthy (currentOutputTranscription r))
     (modify (with_hooks (setChatHistory (fun prev =>
        let newHistory := prev in
        let newHistory :=
          if truthy (currentInputTranscription r)
          then newHistory ++ [{| role := USER; text := currentInputTranscription r |}]
          else newHistory in
        let newHistory :=
          if truthy (currentOutputTranscription r)
          then newHistory ++ [{| role := MODEL; text := currentOutputTranscription r |}]
          else newHistory in
        newHistory)))) ;;
   modify (with_hooks (setCurrentInputTranscription (fun _ => EmptyString))) ;;
   modify (with_hooks (setCurrentOutputTranscription (fun _ => EmptyString))))%chat.

(** The transcription half of a message: the first three statements of
    the [onmessage] that [startLiveSession] registers with the SDK. *)
Definition transcription (r : Hooks) (message : LiveServerMessage) : M unit :=
  (match outputTranscription message with
   | Some t => onTranscription output t
   | None => ret tt
   end ;;
   match inputTranscription message with
   | Some t => onTranscription input t
   | None => ret tt
   end ;;
   when (turnComplete message) (onTurnComplete r))%chat.

(** The [onmessage] that [startLiveSession] registers with the SDK.  It
    calls [callbacks.onmessage(message)] last and does nothing with the
    promise that call returns: a rejection is neither caught nor
    awaited, and the store keeps what the callback did before it. *)
Definition session_onmessage (r : Hooks) (message : LiveServerMessage)
    (deviceTime : Q) : M unit :=
  (transcription r message ;;
   unawaited (onmessage message deviceTime))%chat.

(** [onerror] *)
Definition onerror (r : Hooks) : M unit :=
  (modify (emit (ConsoleError "Live session error:")) ;;
   modify (with_hooks (setSessionError (Some "Live conversation error. Please try again."%string))) ;;
   stopMic r)%chat.

(** [onclose] *)
Definition onclose (r : Hooks) : M unit := stopMic r.

(** [startMic], from the click to the call of [startLiveSession].
    [granted] is what [getUserMedia] resolved with and the processor
    created over it, or [None] when it rejected. *)
Definition startMic (r : Hooks) (granted : option (MediaStream * ScriptProcessorNode)) : M unit :=
  if isListening r then ret tt else
  (modify (with_hooks (setSessionError None)) ;;
   match granted with
   | Some (stream, scriptProcessor) =>
       modify (with_hooks (setMicStream (Some stream))) ;;
       modify (with_hooks (setAudioInputProcessor (Some scriptProcessor)))
   | None =>
       modify (emit (ConsoleError "Error starting microphone:")) ;;
       modify (with_hooks (setSessionError
         (Some "Failed to access microphone. Please ensure permissions are granted."%string))) ;;
       modify (with_hooks (setIsListening false))
   end)%chat.

(** [startMic], after [await startLiveSession(...)]. *)
Definition startMic_connected (session : LiveSession) : M unit :=
  modify (with_hooks (setLiveSession (Some session))).

(** [startMic]'s [catch], when [startLiveSession] rejects. *)
Definition startMic_failed : M unit :=
  (modify (emit (ConsoleError "Error starting microphone:")) ;;
   modify (with_hooks (setSessionError
     (Some "Failed to access microphone. Please ensure permissions are granted."%string))) ;;
   modify (with_hooks (setIsListening false)))%chat.

(** *** The event loop

    One event is one callback run to completion.  [r] is the render
    whose closure the event invokes: for everything registered by
    [startMic], the render of the click. *)
Inductive Event :=
| StartClicked (granted : option (MediaStream * ScriptProcessorNode))
| Connected (session : LiveSession)               (* startLiveSession resolved *)
| ConnectFailed                                   (* startLiveSession rejected *)
| Opened                                          (* onopen *)
| AudioProcess (inputData : list float)           (* onaudioprocess *)
| Message (m : LiveServerMessage) (deviceTime : Q)  (* a message from the server *)
| Errored                                         (* onerror *)
| Closed                                          (* onclose *)
| Ended (node : nat)                              (* 'ended' on a source node *)
| StopClicked.                                    (* stopMic *)

Definition handler (r : Hooks) (ev : Event) : M unit :=
  match ev with
  | StartClicked granted => startMic r granted
  | Connected session => startMic_connected session
  | ConnectFailed => startMic_failed
  | Opened => modify (with_hooks (setIsListening true))
  | AudioProcess inputData => onaudioprocess r inputData
  | Message m deviceTime => session_onmessage r m deviceTime
  | Errored => onerror r
  | Closed => onclose r
  | Ended node => modify (with_audioSources (set_delete node))
  | StopClicked => stopMic r
  end.

Definition dispatch (r : Hooks) (ev : Event) (st : Store) : Store :=
  snd (handler r ev st).

(** The events of one voice session: every callback carries [r]. *)
Definition run (r : Hooks) (evs : list Event) (st : Store) : Store :=
  foldl (fun st ev => dispatch r ev st) st evs.

(** The component after mount. *)
Definition initial_hooks (history : list ChatMessage) : Hooks :=
  {| chatHistory := history; isListening := false; liveSession := None;
     micStream := None; audioInputProcessor := None;
     currentInputTranscription := EmptyString;
     currentOutputTranscription := EmptyString;
     sessionError := None |}.

Definition mounted (history : list ChatMessage) : Store :=
  {| hooks := initial_hooks history; outputAudio := true;
     audioSources := []; nextStartTime := 0%Q; nodes := []; effects := [] |}.

(** The stores the component can be in: any sequence of callbacks, each
    created in any render. *)
Inductive reachable : Store -> Prop :=
| reachable_mounted history : reachable (mounted history)
| reachable_dispatch st r ev : reachable st -> reachable (dispatch r ev st).

(** No voice session and nothing left of one. *)
Definition idle (st : Store) : Prop :=
  isListening (hooks st) = false /\ liveSession (hooks st) = None
  /\ micStream (hooks st) = None /\ audioInputProcessor (hooks st) = None
  /\ currentInputTranscription (hooks st) = EmptyString
  /\ currentOutputTranscription (hooks st) = EmptyString
  /\ audioSources st = [] /\ nextStartTime st = 0%Q.

(** The frames sent to the remote session so far. *)
Definition sent (st : Store) : list (LiveSession * Blob) :=
  flat_map (fun e => match e with
                     | SentRealtimeInput s b => [(s, b)]
                     | _ => []
                     end) (effects st).

(** The console output so far. *)
Definition console (st : Store) : list string :=
  flat_map (fun e => match e with
                     | ConsoleError m => [m]
                     | _ => []
                     end) (effects st).

(** A message whose audio payload decodes to [b]. *)
Definition carries (m : LiveServerMessage) (b : AudioBuffer) : Prop :=
  exists base64Audio,
    inlineData m = Some base64Audio /\ base64Audio <> EmptyString
    /\ decoded base64Audio = Ok b.

(** A message whose audio payload fails to decode. *)
Definition undecodable (m : LiveServerMessage) : Prop :=
  exists base64Audio,
    inlineData m = Some base64Audio /\ base64Audio <> EmptyString
    /\ succeeds (decoded base64Audio) = false.

(** Every source in the active set has been started. *)
Definition sources_started (st : Store) : Prop :=
  forall node, In node (audioSources st) ->
    exists n, nodes st !! node = Some n /\ startedAt n <> None.

(** The playback clock holds a double that is not negative. *)
Definition clock_is_double (st : Store) : Prop :=
  (0 <= nextStartTime st)%Q
  /\ (IEEE.binary64 (nextStartTime st) == nextStartTime st)%Q.

(** What tells whether a session is live and whether an error is shown. *)
Definition session_state (st : Store) :=
  (isListening (hooks st), liveSession (hooks st), micStream (hooks st),
   audioInputProcessor (hooks st), sessionError (hooks st)).

(** The playback scheduler's part of the store. *)
Definition playback (st : Store) :=
  (outputAudio st, audioSources st, nextStartTime st, nodes st).

(** [m] leaves the observation [obs] of the store as it was. *)
Definition preserves {A X} (obs : Store -> X) (m : M A) : Prop :=
  forall st, obs (snd (m st)) = obs st.

(** [m] keeps the property [P] of the store. *)
Definition keeps {A} (P : Store -> Prop) (m : M A) : Prop :=
  forall st, P st -> P (snd (m st)).

(** The render [r] holds no stream, no processor and no session. *)
Definition no_session (r : Hooks) : Prop :=
  micStream r = None /\ audioInputProcessor r = None /\ liveSession r = None.

(** The release calls [stopMic] makes for what [r] holds. *)
Definition release_calls (r : Hooks) : list Effect :=
  match micStream r with Some stream => [TracksStopped stream] | None => [] end
  ++ match audioInputProcessor r with Some p => [Disconnected p] | None => [] end
  ++ match liveSession r with Some s => [SessionClosed s] | None => [] end.

(** The hooks after [stopMic]: the log and the error line stay. *)
Definition torn_down (h : Hooks) : Hooks :=
  {| chatHistory := chatHistory h; isListening := false; liveSession := None;
     micStream := None; audioInputProcessor := None;
     currentInputTranscription := EmptyString;
     currentOutputTranscription := EmptyString;
     sessionError := sessionError h |}.

(** The model turn of a message, if there is one, has its [parts], and
    its audio is absent, empty, or decodes. *)
Definition audio_in_order (m : LiveServerMessage) : Prop :=
  modelTurn m <> WithoutParts
  /\ match inlineData m with
     | None => True
     | Some base64Audio =>
         base64Audio = EmptyString \/ succeeds (decoded base64Audio) = true
     end.

(** Sample messages: an audio delta, and an interruption. *)
Definition audio_delta (base64Audio : string) : LiveServerMessage :=
  {| outputTranscription := None; inputTranscription := None;
     turnComplete := false; modelTurn := Parts (Some base64Audio);
     interrupted := false |}.

Definition interruption : LiveServerMessage :=
  {| outputTranscription := None; inputTranscription := None;
     turnComplete := false; modelTurn := NoModelTurn; interrupted := true |}.

(** An interruption that comes with audio of its own, and one whose
    model turn has no [parts]. *)
Definition interruption_with (base64Audio : string) : LiveServerMessage :=
  {| outputTranscription := None; inputTranscription := None;
     turnComplete := false; modelTurn := Parts (Some base64Audio);
     interrupted := true |}.

Definition interruption_without_parts : LiveServerMessage :=
  {| outputTranscription := None; inputTranscription := None;
     turnComplete := false; modelTurn := WithoutParts; interrupted := true |}.

(** Three samples of silence, as [decoded "AAAAAAAA"] gives them. *)
Definition silence : AudioBuffer :=
  {| sampleRate := 24000;
     channels := [[Fin (0 # 32768); Fin (0 # 32768); Fin (0 # 32768)]] |}.

End Chat.

(** ** Observations of the voice session used in Part III *)

(** Every source in the active set is distinct, started and not yet
    stopped. *)
Definition active_sources_playing (st : Chat.Store) : Prop :=
  NoDup (Chat.audioSources st)
  /\ forall node, In node (Chat.audioSources st) ->
       exists n, Chat.nodes st !! node = Some n
                 /\ Chat.startedAt n <> None /\ Chat.stopped n = false.

(** The release calls made so far: tracks stopped, processors
    disconnected, sessions closed. *)
Definition releases (st : Chat.Store) : list Chat.Effect :=
  flat_map (fun e => match e with
                     | Chat.TracksStopped _ | Chat.Disconnected _
                     | Chat.SessionClosed _ => [e]
                     | _ => []
                     end) (Chat.effects st).

(** What a transcription adds to its accumulator: its text, and the
    word "undefined" when the transcription object has no text; nothing
    when the message has no transcription of that kind. *)
Definition transcribed (transcription : option (option string)) : string :=
  match transcription with
  | Some (Some t) => t
  | Some None => "undefined"
  | None => EmptyString
  end.

(** The transcription text that a run of messages carries, output and
    input, each in arrival order. *)
Fixpoint output_text (ms : list (Chat.LiveServerMessage * Q)) : string :=
  match ms with
  | [] => EmptyString
  | (m, _) :: rest => (transcribed (Chat.outputTranscription m) ++ output_text rest)%string
  end.

Fixpoint input_text (ms : list (Chat.LiveServerMessage * Q)) : string :=
  match ms with
  | [] => EmptyString
  | (m, _) :: rest => (transcribed (Chat.inputTranscription m) ++ input_text rest)%string
  end.

(** The messages as events. *)
Definition messages (ms : list (Chat.LiveServerMessage * Q)) : list Chat.Event :=
  map (fun mt => Chat.Message (fst mt) (snd mt)) ms.

(** ** Grounding chunks (geminiService.ts, [getGroundedAnswer] and
       [findDermatologists]; components/GroundingResult.tsx) *)

Module Grounding.

(** A grounding chunk as the two functions read it.  Every field the SDK
    declares optional may be absent; [placeAnswerSources] is indexed and
    mapped as an array. *)
Record PlaceAnswerSource := {
  reviewSnippetText : option string;
  placeData_address : option string    (* [placeData?.address] *)
}.

Record WebChunk := {
  web_uri : option string;
  web_title : option string
}.

Record MapsChunk := {
  maps_uri : option string;
  maps_title : option string;
  placeAnswerSources : option (list PlaceAnswerSource)
}.

Record GroundingChunk := {
  web : option WebChunk;
  maps : option MapsChunk
}.

(** Truthiness of a string that may be [undefined]. *)
Definition truthy (s : option string) : bool :=
  match s with
  | Some s => negb (String.eqb s EmptyString)
  | None => false
  end.

(** [a || b] on strings that may be [undefined]. *)
Definition or_else (a b : option string) : option string :=
  if truthy a then a else b.

(** *** [findDermatologists] *)

Record Dermatologist := {
  name : string;
  address : string;
  mapsUri : string
}.

(** The body of [groundingChunks.forEach]: what one chunk pushes. *)
Definition pushed (chunk : GroundingChunk) : list Dermatologist :=
  match maps chunk with
  | Some mapsChunk =>
      match maps_title mapsChunk, maps_uri mapsChunk with
      | Some title, Some uri =>
          if truthy (Some title) && truthy (Some uri)
          then [{| name := title;
                   address :=
                     match or_else
                             (match placeAnswerSources mapsChunk with
                              | Some (first :: _) => placeData_address first
                              | _ => None
                              end)
                             (Some "Address not available"%string) with
                     | Some a => a
                     | None => EmptyString
                     end;
                   mapsUri := uri |}]
          else []
      | _, _ => []
      end
  | None => []
  end.

(** The key of the de-duplicating Map: [`${item.name}-${item.mapsUri}`]. *)
Definition key (item : Dermatologist) : string :=
  (name item ++ "-" ++ mapsUri item)%string.

(** [map.set(k, v)] on a Map kept as its entries in insertion order: a
    key that is present keeps its place and takes the new value. *)
Fixpoint map_set {V} (k : string) (v : V) (m : list (string * V)) : list (string * V) :=
  match m with
  | [] => [(k, v)]
  | (k', v') :: rest =>
      if String.eqb k' k then (k', v) :: rest else (k', v') :: map_set k v rest
  end.

(** [new Map(entries)] *)
Definition Map_of {V} (entries : list (string * V)) : list (string * V) :=
  foldl (fun m kv => map_set (fst kv) (snd kv) m) [] entries.

(** [Array.from(new Map(items.map(item => [key, item])).values())] *)
Definition uniqueDermatologists (dermatologists : list Dermatologist) : list Dermatologist :=
  map snd (Map_of (map (fun item => (key item, item)) dermatologists)).

(** What [findDermatologists] returns for the grounding chunks of the
    response ([None]: the response has none).  The [console.log] of the
    empty case does not touch the result. *)
Definition findDermatologists (groundingChunks : option (list GroundingChunk))
  : list Dermatologist :=
  match groundingChunks with
  | None => []
  | Some chunks => uniqueDermatologists (flat_map pushed chunks)
  end.

(** *** [getGroundedAnswer] *)

Record WebGrounding := {
  wg_uri : option string;
  wg_title : option string
}.

Record MapsGrounding := {
  mg_uri : option string;
  mg_title : option string;
  mg_reviewSnippets : option (list (option string))   (* [placeAnswerSources?.reviewSnippets] *)
}.

Record GroundingResult := {
  result_web : option WebGrounding;
  result_maps : option MapsGrounding
}.

(** The callback of [groundingChunks.map]; [None] stands for [null]. *)
Definition to_result (chunk : GroundingChunk) : option GroundingResult :=
  match web chunk with
  | Some webChunk =>
      Some {| result_web :=
                Some {| wg_uri := web_uri webChunk;
                        wg_title := or_else (web_title webChunk) (web_uri webChunk) |};
              result_maps := None |}
  | None =>
      match maps chunk with
      | Some mapsChunk =>
          Some {| result_web := None;
                  result_maps :=
                    Some {| mg_uri := maps_uri mapsChunk;
                            mg_title := or_else (maps_title mapsChunk) (maps_uri mapsChunk);
                            mg_reviewSnippets :=
                              match placeAnswerSources mapsChunk with
                              | Some (s :: rest) =>
                                  Some (map reviewSnippetText (s :: rest))
                              | _ => None
                              end |} |}
      | None => None
      end
  end.

(** [groundingResults] of the answer; [None] stands for [undefined]. *)
Definition groundingResults (groundingChunks : option (list GroundingChunk))
  : option (list GroundingResult) :=
  match groundingChunks with
  | Some (c :: rest) => Some (omap to_result (c :: rest))
  | _ => None
  end.

(** *** [GroundingResultDisplay]

    The entries listed under "Web Sources" and under "Places"; nothing is
    rendered for an absent or empty list. *)
Definition has_web (r : GroundingResult) : bool :=
  match result_web r with Some _ => true | None => false end.

Definition has_maps (r : GroundingResult) : bool :=
  match result_maps r with Some _ => true | None => false end.

Definition searchResults (results : list GroundingResult) : list GroundingResult :=
  List.filter has_web results.

Definition mapResults (results : list GroundingResult) : list GroundingResult :=
  List.filter has_maps results.

End Grounding.

(** ** The text chat of ChatScreen (part_006, [handleChatSubmit]) *)

Module TextChat.

(** [String.prototype.trim] on strings of code units below 256, where the
    white space and line terminators are TAB, LF, VT, FF, CR, SP and
    NBSP. *)
Definition is_white_space (c : ascii) : bool :=
  let n := N_of_ascii c in
  ((9 <=? n) && (n <=? 13) || (n =? 32) || (n =? 160))%N.

Fixpoint trimStart (s : string) : string :=
  match s with
  | EmptyString => EmptyString
  | String c rest => if is_white_space c then trimStart rest else s
  end.

Fixpoint trimEnd (s : string) : string :=
  match s with
  | EmptyString => EmptyString
  | String c rest =>
      match trimEnd rest with
      | EmptyString => if is_white_space c then EmptyString else String c EmptyString
      | rest' => String c rest'
      end
  end.

Definition trim (s : string) : string := trimEnd (trimStart s).

Inductive ActiveTab := ANALYZE | JOURNEY | CHAT | SEARCH | MAPS | STORE | PROFILE.

(** A chat message with the fields the text chat sets. *)
Record ChatMessage := {
  role : Chat.ChatRole;
  text : string;
  groundingResults : option (list Grounding.GroundingResult);
  imagePreviewUrl : option string
}.

(** A [File] by its identity, with its [type]. *)
Record File := {
  file : nat;
  type : string
}.

(** The [useState] cells the handler reads and sets. *)
Record Hooks := {
  chatHistory : list ChatMessage;
  chatInput : string;
  isStreaming : bool;
  useDeepAnalysis : bool;
  attachedImage : option File;
  attachedImagePreview : option string;
  isListening : bool
}.

Definition setChatHistory (f : list ChatMessage -> list ChatMessage) (h : Hooks) : Hooks :=
  {| chatHistory := f (chatHistory h); chatInput := chatInput h;
     isStreaming := isStreaming h; useDeepAnalysis := useDeepAnalysis h;
     attachedImage := attachedImage h;
     attachedImagePreview := attachedImagePreview h;
     isListening := isListening h |}.

Definition setChatInput (v : string) (h : Hooks) : Hooks :=
  {| chatHistory := chatHistory h; chatInput := v;
     isStreaming := isStreaming h; useDeepAnalysis := useDeepAnalysis h;
     attachedImage := attachedImage h;
     attachedImagePreview := attachedImagePreview h;
     isListening := isListening h |}.

Definition setIsStreaming (v : bool) (h : Hooks) : Hooks :=
  {| chatHistory := chatHistory h; chatInput := chatInput h;
     isStreaming := v; useDeepAnalysis := useDeepAnalysis h;
     attachedImage := attachedImage h;
     attachedImagePreview := attachedImagePreview h;
     isListening := isListening h |}.

Definition setAttachedImage (v : option File) (h : Hooks) : Hooks :=
  {| chatHistory := chatHistory h; chatInput := chatInput h;
     isStreaming := isStreaming h; useDeepAnalysis := useDeepAnalysis h;
     attachedImage := v;
     attachedImagePreview := attachedImagePreview h;
     isListening := isListening h |}.

Definition setAttachedImagePreview (v : option string) (h : Hooks) : Hooks :=
  {| chatHistory := chatHistory h; chatInput := chatInput h;
     isStreaming := isStreaming h; useDeepAnalysis := useDeepAnalysis h;
     attachedImage := attachedImage h;
     attachedImagePreview := v;
     isListening := isListening h |}.

(** [setChatHistory(prev => [...prev, m])] *)
Definition push (m : ChatMessage) : Hooks -> Hooks :=
  setChatHistory (fun prev => prev ++ [m]).

Definition model_message (t : string) (g : option (list Grounding.GroundingResult))
  : ChatMessage :=
  {| role := Chat.MODEL; text := t; groundingResults := g; imagePreviewUrl := None |}.

(** The response of [generateContent] as the services read it. *)
Record GenerateContentResponse := {
  response_text : string;
  groundingChunks : option (list Grounding.GroundingChunk)
}.

(** What the async iterator of [sendMessageStream] does: it yields the
    [text] of its chunks ([None]: a chunk without text), then ends or
    throws. *)
Record Stream := {
  chunks : list (option string);
  failure : option Retry.Thrown
}.

Inductive Tool := googleSearch | googleMaps.

Record LatLng := { latitude : Q; longitude : Q }.

(** [{ inlineData: { data, mimeType } }] *)
Record Part := {
  data : option string;
  mimeType : string
}.

(** The requests that reach the model; [image] is the part made of the
    attached file. *)
Inductive Request :=
| Grounded (prompt : string) (tool : Tool) (location : option LatLng)
| Deep (prompt : string)
| Message (message : string) (image : option Part).

(** [s.split(',')[1]]: what stands between the first comma and the next,
    [undefined] when [s] has no comma. *)
Fixpoint until_comma (s : string) : string :=
  match s with
  | EmptyString => EmptyString
  | String c rest =>
      if Ascii.eqb c "," then EmptyString else String c (until_comma rest)
  end.

Fixpoint after_first_comma (s : string) : option string :=
  match s with
  | EmptyString => None
  | String c rest =>
      if Ascii.eqb c "," then Some (until_comma rest) else after_first_comma rest
  end.

(** How a call of [handleChatSubmit] ends.  [Completed h]: it has run to
    its end and the state is [h].  [NeverSettles h]: it is suspended for
    good at an [await] on a promise that is never settled, and the state
    stays [h].  [RenderFails]: it has run to its end, but an updater it
    registered raises when React runs it, so the render of the screen
    fails. *)
Inductive Submit :=
| Completed (h : Hooks)
| NeverSettles (h : Hooks)
| RenderFails.

Section Services.
Context {W : Type}.

(** The SDK: [ai.models.generateContent] for the first two kinds of
    request, [chatInstance.sendMessageStream] for the third.  A call
    reads and changes the outside world and settles with a value or an
    error. *)
Variable generateContent : Request -> W -> (GenerateContentResponse + Retry.Thrown) * W.
Variable sendMessageStream : Request -> W -> (Stream + Retry.Thrown) * W.

(** [getGroundedAnswer] (geminiService.ts) *)
Definition getGroundedAnswer (prompt : string) (tool : Tool) (location : option LatLng)
    (w : W) : (string * option (list Grounding.GroundingResult) + Retry.Thrown) * W :=
  let run := Retry.withRetry (generateContent (Grounded prompt tool
                                (match tool with
                                 | googleSearch => None
                                 | googleMaps => location
                                 end))) w in
  (match Retry.result run with
   | inl response =>
       inl (response_text response,
            Grounding.groundingResults (groundingChunks response))
   | inr e => inr e
   end, Retry.world run).

(** [getDeepAnalysis] (geminiService.ts); the profile and the medical
    data it folds into the prompt are props of the screen. *)
Variable combinedPrompt : string -> string.

Definition getDeepAnalysis (prompt : string) (w : W) : (string + Retry.Thrown) * W :=
  let run := Retry.withRetry (generateContent (Deep (combinedPrompt prompt))) w in
  (match Retry.result run with
   | inl response => inl (response_text response)
   | inr e => inr e
   end, Retry.world run).

(** [reader.readAsDataURL(file)], up to [loadend]: what [reader.result]
    holds then, a data URL, or [null] after a read that failed. *)
Variable readAsDataURL : File -> W -> option string * W.

(** [fileToGenerativePart] (geminiService.ts) wraps the reader in a
    promise that is resolved from [onloadend] with
    [reader.result.split(',')[1]] and has no way to reject.  After a
    failed read the handler raises on [null] inside the event, and the
    promise is never settled: [None]. *)
Definition fileToGenerativePart (f : File) (w : W) : option Part * W :=
  match readAsDataURL f w with
  | (Some result, w') =>
      (Some {| data := after_first_comma result; mimeType := type f |}, w')
  | (None, w') => (None, w')
  end.

(** [sendChatMessageStream] (geminiService.ts); [None] when it never
    settles. *)
Definition sendChatMessageStream (message : string) (attachedImageFile : option File)
    (w : W) : option (Stream + Retry.Thrown) * W :=
  match attachedImageFile with
  | Some f =>
      match fileToGenerativePart f w with
      | (Some part, w1) =>
          let run := Retry.withRetry (sendMessageStream (Message message (Some part))) w1 in
          (Some (Retry.result run), Retry.world run)
      | (None, w1) => (None, w1)
      end
  | None =>
      let run := Retry.withRetry (sendMessageStream (Message message None)) w in
      (Some (Retry.result run), Retry.world run)
  end.

(** Props of the screen. *)
Variable activeTab : ActiveTab.
Variable locationError : option string.
Variable location : option LatLng.

(** The guard of [handleChatSubmit], as the source parenthesises it. *)
Definition ignored (h : Hooks) : bool :=
  String.eqb (trim (chatInput h)) EmptyString
  && negb (bool_decide (is_Some (attachedImage h)))
  || isStreaming h || isListening h.

Definition isSubmitDisabled (h : Hooks) : bool :=
  isStreaming h || isListening h
  || (String.eqb (trim (chatInput h)) EmptyString
      && negb (bool_decide (is_Some (attachedImage h)))).

Definition isTextInputDisabled (h : Hooks) : bool :=
  isStreaming h || isListening h
  || (match activeTab with MAPS => true | _ => false end
      && Grounding.truthy locationError).

(** [responseText += chunk.text] *)
Definition chunk_text (c : option string) : string :=
  match c with
  | Some t => t
  | None => "undefined"
  end.

(** The updater of the streaming loop: the text of the last message is
    overwritten.  (The history holds the placeholder at that point; on an
    empty array the assignment would raise inside the updater.) *)
Definition set_last_text (responseText : string) (prev : list ChatMessage)
  : list ChatMessage :=
  alter (fun m => {| role := role m; text := responseText;
                     groundingResults := groundingResults m;
                     imagePreviewUrl := imagePreviewUrl m |})
        (length prev - 1)%nat prev.

(** The [for await] loop. *)
Fixpoint consume (cs : list (option string)) (responseText : string) (h : Hooks) : Hooks :=
  match cs with
  | [] => h
  | c :: rest =>
      let responseText := (responseText ++ chunk_text c)%string in
      consume rest responseText (setChatHistory (set_last_text responseText) h)
  end.

(** The two grounded branches of the [try] block. *)
Definition grounded_branch (currentInput : string) (tool : Tool)
    (loc : option LatLng) (h : Hooks) (w : W) : (unit + Retry.Thrown) * Hooks * W :=
  match getGroundedAnswer currentInput tool loc w with
  | (inl (text, results), w') => (inl tt, push (model_message text results) h, w')
  | (inr err, w') => (inr err, h, w')
  end.

(** A block that has ended, rather than waiting for good. *)
Definition ended (block : (unit + Retry.Thrown) * Hooks * W)
  : option (unit + Retry.Thrown) * Hooks * W :=
  let '(ending, h, w) := block in (Some ending, h, w).

(** The [try] block: how it ends (normally, also by [return], or with a
    thrown value; [None] when it never does), and the state and world
    it leaves. *)
Definition try_block (currentInput : string) (currentAttachedImage : option File)
    (deep : bool) (h : Hooks) (w : W) : option (unit + Retry.Thrown) * Hooks * W :=
  match activeTab with
  | SEARCH => ended (grounded_branch currentInput googleSearch None h w)
  | MAPS =>
      match locationError with
      | Some message =>
          if negb (String.eqb message EmptyString)
          then (Some (inl tt), push (model_message message None) h, w)
          else ended (grounded_branch currentInput googleMaps location h w)
      | None => ended (grounded_branch currentInput googleMaps location h w)
      end
  | _ =>
      if String.prefix "analyze ingredients:" (Retry.lowercase currentInput) || deep
      then
        match getDeepAnalysis currentInput w with
        | (inl text, w') => (Some (inl tt), push (model_message text None) h, w')
        | (inr err, w') => (Some (inr err), h, w')
        end
      else
        match sendChatMessageStream currentInput currentAttachedImage w with
        | (Some (inl stream), w') =>
            let h' := consume (chunks stream) EmptyString
                              (push (model_message EmptyString None) h) in
            (Some (match failure stream with
                   | Some err => inr err
                   | None => inl tt
                   end), h', w')
        | (Some (inr err), w') => (Some (inr err), h, w')
        | (None, w') => (None, h, w')
        end
  end.

(** The [catch] clause registers the updater
    [prev => [...prev, { role, text: `Sorry, an error occurred: ${err.message}` }]].
    The template is inside the updater, so [err.message] is read when
    React runs the updater, while it renders: for [null] or [undefined]
    it raises there ([None]). *)
Definition catch_block (err : Retry.Thrown) (h : Hooks) : option Hooks :=
  match err with
  | Retry.Nullish => None
  | Retry.Err f =>
      Some (push (model_message
                    ("Sorry, an error occurred: "
                     ++ match Retry.message f with
                        | Some m => m
                        | None => "undefined"
                        end)%string None) h)
  end.

(** [handleChatSubmit] in the render whose state is [h]. *)
Definition handleChatSubmit (h : Hooks) (w : W) : Submit * W :=
  if ignored h then (Completed h, w)
  else
    let newUserMessage :=
      {| role := Chat.USER; text := chatInput h; groundingResults := None;
         imagePreviewUrl := Grounding.or_else (attachedImagePreview h) None |} in
    let currentInput := chatInput h in
    let currentAttachedImage := attachedImage h in
    let h1 :=
      setIsStreaming true
        (setAttachedImagePreview None
           (setAttachedImage None
              (setChatInput EmptyString (push newUserMessage h)))) in
    match try_block currentInput currentAttachedImage (useDeepAnalysis h) h1 w with
    | (Some (inl _), h2, w') => (Completed (setIsStreaming false h2), w')
    | (Some (inr err), h2, w') =>
        match catch_block err h2 with
        | Some h3 => (Completed (setIsStreaming false h3), w')
        | None => (RenderFails, w')
        end
    | (None, h2, w') => (NeverSettles h2, w')
    end.

End Services.

End TextChat.

(** ** Observations of the de-duplicating Map and of the text chat used
       in Part III *)

(** The value a key holds in [new Map(entries)] is the one of its last
    entry. *)
Definition last_entry {V} (entries : list (string * V)) (k : string) (v : V) : Prop :=
  exists l1 l2, entries = l1 ++ (k, v) :: l2 /\ Forall (fun kv => fst kv <> k) l2.

(** [h2] is [h1] with [replies] appended to the history. *)
Definition extends_by (h1 h2 : TextChat.Hooks) (replies : list TextChat.ChatMessage) : Prop :=
  TextChat.chatHistory h2 = TextChat.chatHistory h1 ++ replies
  /\ TextChat.chatInput h2 = TextChat.chatInput h1
  /\ TextChat.isStreaming h2 = TextChat.isStreaming h1
  /\ TextChat.useDeepAnalysis h2 = TextChat.useDeepAnalysis h1
  /\ TextChat.attachedImage h2 = TextChat.attachedImage h1
  /\ TextChat.attachedImagePreview h2 = TextChat.attachedImagePreview h1
  /\ TextChat.isListening h2 = TextChat.isListening h1.

(** The text the streaming loop has gathered from the chunks [cs]. *)
Definition gathered (cs : list (option string)) : string :=
  foldr String.append EmptyString (map TextChat.chunk_text cs).

(** At most [n] messages, all of the model. *)
Definition model_replies (replies : list TextChat.ChatMessage) (n : nat) : Prop :=
  Forall (fun m => TextChat.role m = Chat.MODEL) replies /\ (length replies <= n)%nat.

(** The message a submit puts first. *)
Definition user_message (h : TextChat.Hooks) : TextChat.ChatMessage :=
  {| TextChat.role := Chat.USER; TextChat.text := TextChat.chatInput h;
     TextChat.groundingResults := None;
     TextChat.imagePreviewUrl :=
       Grounding.or_else (TextChat.attachedImagePreview h) None |}.

(** The apology the [catch] clause appends for the error fields [f]. *)
Definition apology (f : Retry.ErrorFields) : TextChat.ChatMessage :=
  TextChat.model_message
    ("Sorry, an error occurred: "
     ++ match Retry.message f with
        | Some m => m
        | None => "undefined"
        end)%string None.

(** A service has rejected with [null] or [undefined], or a stream has
    broken off with one. *)
Definition rejected_with_nullish {W : Type}
    (generateContent :
       TextChat.Request -> W -> (TextChat.GenerateContentResponse + Retry.Thrown) * W)
    (sendMessageStream : TextChat.Request -> W -> (TextChat.Stream + Retry.Thrown) * W)
  : Prop :=
  (exists request w0, fst (generateContent request w0) = inr Retry.Nullish)
  \/ (exists request w0, fst (sendMessageStream request w0) = inr Retry.Nullish)
  \/ (exists request w0 stream,
        fst (sendMessageStream request w0) = inl stream
        /\ TextChat.failure stream = Some Retry.Nullish).

(** What a block of the [try] leaves: at most one reply; when it never
    ends, nothing and an image that could not be read; when it throws
    [null] or [undefined], a service that rejected with it. *)
Definition block_ok {W : Type}
    (generateContent :
       TextChat.Request -> W -> (TextChat.GenerateContentResponse + Retry.Thrown) * W)
    (sendMessageStream : TextChat.Request -> W -> (TextChat.Stream + Retry.Thrown) * W)
    (readAsDataURL : TextChat.File -> W -> option string * W)
    (img : option TextChat.File) (h : TextChat.Hooks) (w : W)
    (block : option (unit + Retry.Thrown) * TextChat.Hooks * W) : Prop :=
  (exists replies,
     extends_by h (snd (fst block)) replies /\ model_replies replies 1)
  /\ match fst (fst block) with
     | None =>
         snd (fst block) = h
         /\ exists file, img = Some file /\ fst (readAsDataURL file w) = None
     | Some (inr Retry.Nullish) => rejected_with_nullish generateContent sendMessageStream
     | _ => True
     end.


(** ** The shopping cart of App (part_000) *)

Module Cart.

(** A quantity: a double that is an integer, or [NaN] (what [parseInt]
    yields for an emptied number field). *)
Inductive number := Int (z : Z) | NaN.

(** [a + b]: the sum is rounded to a double, which for two integers is
    an integer again; from 2^53 on not every integer is a double, and
    adding 1 may change nothing.  (Adding 1 to a double never overflows;
    a total of 2^1024 and more, which is [Infinity], is outside this
    model, and no statement below reaches that far.) *)
Definition plus (a b : number) : number :=
  match a, b with
  | Int x, Int y => Int (Qfloor (IEEE.binary64 (inject_Z (x + y))))
  | _, _ => NaN
  end.

(** [a > 0] *)
Definition positive (a : number) : bool :=
  match a with
  | Int x => 0 <? x
  | NaN => false
  end.

Record ShoppingProduct := {
  name : string;
  brand : string;
  type : string;
  reason : string;
  shoppingUrl : string;
  imageUrl : string;
  price : string;
  rating : Q;
  reviewCount : Z;
  merchant : string
}.

(** [CartItem extends ShoppingProduct] *)
Record CartItem := {
  product : ShoppingProduct;
  quantity : number
}.

Definition url (item : CartItem) : string := shoppingUrl (product item).

(** [{ ...item, quantity: q }] *)
Definition with_quantity (q : number) (item : CartItem) : CartItem :=
  {| product := product item; quantity := q |}.

(** The updaters the handlers pass to [setCart]. *)
Definition handleAddToCart (p : ShoppingProduct) (prevCart : list CartItem) : list CartItem :=
  let existingItem :=
    List.find (fun item => String.eqb (url item) (shoppingUrl p)) prevCart in
  match existingItem with
  | Some _ =>
      map (fun item =>
             if String.eqb (url item) (shoppingUrl p)
             then with_quantity (plus (quantity item) (Int 1)) item
             else item) prevCart
  | None => prevCart ++ [{| product := p; quantity := Int 1 |}]
  end.

Definition handleUpdateCartQuantity (shoppingUrl : string) (q : number)
    (prevCart : list CartItem) : list CartItem :=
  List.filter (fun item => positive (quantity item))
    (map (fun item =>
            if String.eqb (url item) shoppingUrl then with_quantity q item else item)
         prevCart).

Definition handleRemoveFromCart (shoppingUrl : string) (prevCart : list CartItem)
  : list CartItem :=
  List.filter (fun item => negb (String.eqb (url item) shoppingUrl)) prevCart.

Definition handleClearCart (prevCart : list CartItem) : list CartItem := [].

(** The badge of the Store tab ([TabButton]). *)
Definition cartItemCount (cart : list CartItem) : number :=
  foldl (fun total item => plus total (quantity item)) (Int 0) cart.

(** What the user does to the cart. *)
Inductive Event :=
| Add (p : ShoppingProduct)
| Update (shoppingUrl : string) (q : number)
| Remove (shoppingUrl : string)
| Clear.

Definition step (cart : list CartItem) (ev : Event) : list CartItem :=
  match ev with
  | Add p => handleAddToCart p cart
  | Update u q => handleUpdateCartQuantity u q cart
  | Remove u => handleRemoveFromCart u cart
  | Clear => handleClearCart cart
  end.

(** The cart after the events [evs], starting empty. *)
Definition after (evs : list Event) : list CartItem := foldl step [] evs.

(** One line per product, each with a positive integer quantity. *)
Definition well_formed (cart : list CartItem) : Prop :=
  NoDup (map url cart)
  /\ Forall (fun item => exists z, quantity item = Int z /\ 0 < z) cart.

(** The quantities of a cart added up without rounding. *)
Definition exact_count (cart : list CartItem) : Z :=
  foldr (fun item total =>
           match quantity item with
           | Int z => z + total
           | NaN => total
           end) 0 cart.

End Cart.

(** Two products and a cart holding both, for the examples of Part III. *)
Definition cleanser : Cart.ShoppingProduct :=
  {| Cart.name := "Gentle Cleanser"; Cart.brand := "Acme"; Cart.type := "Cleanser";
     Cart.reason := "Mild"; Cart.shoppingUrl := "https://shop.example/cleanser";
     Cart.imageUrl := "https://shop.example/cleanser.png"; Cart.price := "$12.00";
     Cart.rating := 4.5%Q; Cart.reviewCount := 120; Cart.merchant := "Shop" |}.

Definition sunscreen : Cart.ShoppingProduct :=
  {| Cart.name := "SPF 50"; Cart.brand := "Acme"; Cart.type := "Sunscreen";
     Cart.reason := "Broad spectrum"; Cart.shoppingUrl := "https://shop.example/spf50";
     Cart.imageUrl := "https://shop.example/spf50.png"; Cart.price := "$18.50";
     Cart.rating := 4.7%Q; Cart.reviewCount := 300; Cart.merchant := "Shop" |}.

Definition two_lines : list Cart.CartItem :=
  [ {| Cart.product := cleanser; Cart.quantity := Cart.Int 2 |};
    {| Cart.product := sunscreen; Cart.quantity := Cart.Int 1 |} ].


(** ** Product search (productSearchService.ts, [searchProducts]) *)

Module ProductSearch.

(** What [JSON.parse] returns.  A number is the double parsed ([None]:
    an infinity); an object is its properties in insertion order. *)
#[warnings="-register-all"]
Inductive JSON :=
| JNull
| JBool (b : bool)
| JNumber (n : option Q)
| JString (s : string)
| JArray (items : list JSON)
| JObject (properties : list (string * JSON)).

(** Truthiness of a value that may be [undefined]. *)
Definition truthy (v : option JSON) : bool :=
  match v with
  | None | Some JNull => false
  | Some (JBool b) => b
  | Some (JNumber (Some q)) => negb (Qeq_bool q 0)
  | Some (JNumber None) => true
  | Some (JString s) => negb (String.eqb s EmptyString)
  | Some (JArray _) | Some (JObject _) => true
  end.

(** The own property [k] of an object. *)
Fixpoint lookup (k : string) (properties : list (string * JSON)) : option JSON :=
  match properties with
  | [] => None
  | (k', v) :: rest => if String.eqb k' k then Some v else lookup k rest
  end.

(** [p.k] for one of the keys read here, none of which is a property of
    a prototype: reading from [null] raises ([None]), a primitive or an
    array has no such property ([Some None]: [undefined]). *)
Definition get (p : JSON) (k : string) : option (option JSON) :=
  match p with
  | JNull => None
  | JObject properties => Some (lookup k properties)
  | _ => Some None
  end.

(** [rawText.indexOf(c)] and [rawText.lastIndexOf(c)]; [None] is -1. *)
Fixpoint indexOf (c : ascii) (s : string) : option nat :=
  match s with
  | EmptyString => None
  | String a rest =>
      if Ascii.eqb a c then Some 0%nat else option_map S (indexOf c rest)
  end.

Fixpoint lastIndexOf (c : ascii) (s : string) : option nat :=
  match s with
  | EmptyString => None
  | String a rest =>
      match lastIndexOf c rest with
      | Some j => Some (S j)
      | None => if Ascii.eqb a c then Some 0%nat else None
      end
  end.

(** The text handed to [JSON.parse]; [None] when the [throw] is taken. *)
Definition jsonText (rawText : string) : option string :=
  match indexOf "[" rawText, lastIndexOf "]" rawText with
  | Some jsonStart, Some jsonEnd =>
      if (jsonEnd <? jsonStart)%nat then None
      else Some (String.substring jsonStart (jsonEnd + 1 - jsonStart) rawText)
  | _, _ => None
  end.

(** [name.replace(/\s/g, '')] *)
Fixpoint remove_white_space (s : string) : string :=
  match s with
  | EmptyString => EmptyString
  | String c rest =>
      if TextChat.is_white_space c then remove_white_space rest
      else String c (remove_white_space rest)
  end.

(** The callback of [filter]: [p.name && p.shoppingUrl && p.price], made
    a boolean; [None] when it raises. *)
Definition keep (p : JSON) : option bool :=
  name ← get p "name";
  if truthy name then
    shoppingUrl ← get p "shoppingUrl";
    if truthy shoppingUrl then
      price ← get p "price";
      Some (truthy price)
    else Some false
  else Some false.

Fixpoint filter_kept (ps : list JSON) : option (list JSON) :=
  match ps with
  | [] => Some []
  | p :: rest =>
      match keep p with
      | Some b =>
          rest' ← filter_kept rest;
          Some (if b then p :: rest' else rest')
      | None => None
      end
  end.

(** The [imageUrl] of the callback of [map]; a truthy [imageUrl] that is
    no string has no [startsWith], a truthy [name] that is no string has
    no [replace]: calling either raises. *)
Definition placeholder (p : JSON) : option JSON :=
  name ← get p "name";
  match name with
  | Some (JString n) =>
      Some (JString ("https://picsum.photos/seed/" ++ remove_white_space n
                     ++ "/200/200")%string)
  | _ => None
  end.

Definition imageUrl_of (p : JSON) : option JSON :=
  imageUrl ← get p "imageUrl";
  if truthy imageUrl then
    match imageUrl with
    | Some (JString s) =>
        if String.prefix "http" s then Some (JString s) else placeholder p
    | _ => None
    end
  else placeholder p.

(** [{ ...p, imageUrl: ..., type: product.type }] *)
Definition cleaned (product_type : string) (p : JSON) : option JSON :=
  imageUrl ← imageUrl_of p;
  let properties := match p with JObject properties => properties | _ => [] end in
  Some (JObject (Grounding.map_set "type" (JString product_type)
                   (Grounding.map_set "imageUrl" imageUrl properties))).

Fixpoint map_cleaned (product_type : string) (ps : list JSON) : option (list JSON) :=
  match ps with
  | [] => Some []
  | p :: rest =>
      p' ← cleaned product_type p;
      rest' ← map_cleaned product_type rest;
      Some (p' :: rest')
  end.

(** [new Error("Could not find product options ...")] *)
Definition invalid_format : Retry.Thrown :=
  Retry.Err {| Retry.status := None; Retry.httpStatus := None;
               Retry.message := Some "Could not find product options from AI search. The model returned an invalid format."%string |}.

Section SearchProducts.

(** [JSON.parse]; [None] when it raises. *)
Variable parse : string -> option JSON.

(** The body of the [try] block; [None] when anything in it raises. *)
Definition extract (product_type : string) (rawText : string) : option (list JSON) :=
  text ← jsonText rawText;
  generatedProducts ← parse text;
  match generatedProducts with
  | JArray ps =>
      kept ← filter_kept ps;
      map_cleaned product_type kept
  | _ => None
  end.

Context {W : Type}.

(** The request, answering with the text of the response. *)
Variable generateContent : W -> (string + Retry.Thrown) * W.

Definition searchProducts (product_type : string) (w : W)
  : (list JSON + Retry.Thrown) * W :=
  let run := Retry.withRetry generateContent w in
  (match Retry.result run with
   | inl rawText =>
       match extract product_type rawText with
       | Some products => inl products
       | None => inr invalid_format
       end
   | inr e => inr e
   end, Retry.world run).

End SearchProducts.

End ProductSearch.

(** A product as [searchProducts] hands it on: an object whose name,
    shopping URL and price are truthy, whose image URL is a string that
    starts with [http], and whose type is [product_type]. *)
Definition presentable (product_type : string) (p : ProductSearch.JSON) : Prop :=
  exists properties,
    p = ProductSearch.JObject properties
    /\ ProductSearch.truthy (ProductSearch.lookup "name" properties) = true
    /\ ProductSearch.truthy (ProductSearch.lookup "shoppingUrl" properties) = true
    /\ ProductSearch.truthy (ProductSearch.lookup "price" properties) = true
    /\ (exists s, ProductSearch.lookup "imageUrl" properties = Some (ProductSearch.JString s)
                  /\ String.prefix "http" s = true)
    /\ ProductSearch.lookup "type" properties = Some (ProductSearch.JString product_type).


(** ** The profile form (part_005, [ProfileSettings]) *)

Module Profile.

(** [s.split(',')] *)
Fixpoint split (s : string) : list string :=
  match s with
  | EmptyString => [EmptyString]
  | String c rest =>
      if Ascii.eqb c "," then EmptyString :: split rest
      else
        match split rest with
        | piece :: pieces => String c piece :: pieces
        | [] => [String c EmptyString]
        end
  end.

(** The initial text of the allergies field:
    [userProfile?.allergies.join(', ') || ''] *)
Definition initial_allergies (userProfile : option Prompt.UserProfile) : string :=
  match userProfile with
  | Some p => Prompt.or_else (String.concat ", " (Prompt.allergies p)) EmptyString
  | None => EmptyString
  end.

(** The profile [handleSave] hands to [setUserProfile]. *)
Definition handleSave (skinType allergies goals : string) : Prompt.UserProfile :=
  {| Prompt.skinType := skinType;
     Prompt.allergies :=
       List.filter (fun a => negb (String.eqb a EmptyString))
         (map TextChat.trim (split allergies));
     Prompt.goals := goals |}.

(** [s] holds no comma. *)
Fixpoint comma_free (s : string) : bool :=
  match s with
  | EmptyString => true
  | String c rest => negb (Ascii.eqb c ",") && comma_free rest
  end.

(** An allergy as the form saves it: not empty, without white space
    around it, without a comma. *)
Definition tidy (a : string) : Prop :=
  a <> EmptyString /\ TextChat.trim a = a /\ comma_free a = true.

End Profile.

(* ================================================================== *)
(** * Part II: properties                                              *)
(* ================================================================== *)

(** ** Rounding to binary64 *)

Section IEEEFacts.
Import IEEE.

Lemma pow2_pos (e : Z) : (0 < pow2 e)%Q.
Proof.
unfold pow2. destruct (Z.leb_spec 0 e).
- unfold Qlt. simpl. pose proof (Z.pow_pos_nonneg 2 e). lia.
- reflexivity.
Qed.

Lemma pow2_nonneg_exp (e : Z) : 0 <= e -> pow2 e = inject_Z (2 ^ e).
Proof. intros H. unfold pow2. destruct (Z.leb_spec 0 e); [reflexivity | lia]. Qed.

Lemma pow2_shift (e n : Z) :
  0 <= n -> 0 <= e + n -> (pow2 e * inject_Z (2 ^ n) == inject_Z (2 ^ (e + n)))%Q.
Proof.
intros Hn Hen. unfold pow2. destruct (Z.leb_spec 0 e).
- rewrite <- inject_Z_mult, <- Z.pow_add_r by lia. reflexivity.
- unfold Qeq, Qmult, inject_Z. cbn [Qnum Qden].
  rewrite Pos.mul_1_r, Z2Pos.id by (apply Z.pow_pos_nonneg; lia).
  rewrite Z.mul_1_l, Z.mul_1_r.
  replace n with ((e + n) + (- e)) at 1 by lia.
  rewrite Z.pow_add_r by lia. reflexivity.
Qed.

Lemma pow2_add (a b : Z) : (pow2 (a + b) == pow2 a * pow2 b)%Q.
Proof.
assert (Hex : exists n, 0 <= n /\ 0 <= a + n /\ 0 <= b + n).
{ exists (Z.abs a + Z.abs b). lia. }
destruct Hex as (n & Hn0 & Han & Hbn).
assert (Hn : (0 < inject_Z (2 ^ (n + n)))%Q).
{ unfold Qlt. simpl. pose proof (Z.pow_pos_nonneg 2 (n + n)). lia. }
apply (Qmult_inj_r _ _ (inject_Z (2 ^ (n + n)))); [lra|].
pose proof (pow2_shift (a + b) (n + n) ltac:(lia) ltac:(lia)) as H1.
pose proof (pow2_shift a n ltac:(lia) ltac:(lia)) as H2.
pose proof (pow2_shift b n ltac:(lia) ltac:(lia)) as H3.
rewrite H1.
transitivity ((pow2 a * inject_Z (2 ^ n)) * (pow2 b * inject_Z (2 ^ n)))%Q.
- rewrite H2, H3. rewrite <- inject_Z_mult, <- Z.pow_add_r by lia.
  replace (a + b + (n + n)) with (a + n + (b + n)) by lia. reflexivity.
- rewrite Z.pow_add_r by lia. rewrite inject_Z_mult. ring.
Qed.

Lemma pow2_0 : pow2 0 = 1%Q.
Proof. reflexivity. Qed.

Lemma pow2_opp (e : Z) : (pow2 e * pow2 (- e) == 1)%Q.
Proof. rewrite <- pow2_add, Z.add_opp_diag_r. reflexivity. Qed.

Lemma pow2_ge_1 (e : Z) : 0 <= e -> (1 <= pow2 e)%Q.
Proof.
intros H. rewrite pow2_nonneg_exp by exact H.
unfold Qle. simpl. pose proof (Z.pow_pos_nonneg 2 e). lia.
Qed.

Lemma pow2_le (a b : Z) : a <= b -> (pow2 a <= pow2 b)%Q.
Proof.
intros H. replace b with (a + (b - a)) by lia. rewrite pow2_add.
pose proof (pow2_pos a). pose proof (pow2_ge_1 (b - a) ltac:(lia)). nra.
Qed.

Lemma pow2_lt (a b : Z) : a < b -> (pow2 a < pow2 b)%Q.
Proof.
intros H. replace b with (a + (b - a)) by lia. rewrite pow2_add.
pose proof (pow2_pos a).
assert (2 <= pow2 (b - a))%Q as H2.
{ rewrite pow2_nonneg_exp by lia. unfold Qle. simpl.
  pose proof (Z.pow_le_mono_r 2 1 (b - a)). lia. }
nra.
Qed.

Lemma pow2_lt_inv (a b : Z) : (pow2 a < pow2 b)%Q -> a < b.
Proof.
intros H. destruct (Z.lt_ge_cases a b) as [|Hge]; [assumption|].
pose proof (pow2_le b a Hge). lra.
Qed.

Lemma pow2_inject (x : Q) (e : Z) :
  (x * pow2 (- e) * pow2 e == x)%Q.
Proof.
rewrite <- Qmult_assoc, (Qmult_comm (pow2 (- e))), pow2_opp. ring.
Qed.

(** *** [ilog2] *)

Lemma ilog2_spec (x : Q) :
  (0 < x)%Q -> (pow2 (ilog2 x) <= x)%Q /\ (x < pow2 (ilog2 x + 1))%Q.
Proof.
intros Hx. destruct x as [n d]. unfold ilog2. cbn [Qnum Qden].
assert (Hn : 0 < n) by (unfold Qlt in Hx; simpl in Hx; lia).
set (a := Z.log2 n). set (b := Z.log2 (Z.pos d)).
destruct (Z.log2_spec n Hn) as [Ha1 Ha2]. fold a in Ha1, Ha2.
destruct (Z.log2_spec (Z.pos d) ltac:(lia)) as [Hb1 Hb2]. fold b in Hb1, Hb2.
assert (Ha0 : 0 <= a) by apply Z.log2_nonneg.
assert (Hb0 : 0 <= b) by apply Z.log2_nonneg.
rewrite <- Z.add_1_r in Ha2, Hb2.
(* x * d = n *)
assert (Hxd : ((n # d) * inject_Z (Z.pos d) == inject_Z n)%Q).
{ unfold Qeq, Qmult, inject_Z. cbn [Qnum Qden]. rewrite Pos.mul_1_r. lia. }
assert (Hd : (0 < inject_Z (Z.pos d))%Q) by (unfold Qlt; simpl; lia).
(* pow2 (a - b + 1) * 2^b = 2^(a + 1) > n >= ... *)
pose proof (pow2_shift (a - b + 1) b Hb0 ltac:(lia)) as Hup.
replace (a - b + 1 + b) with (a + 1) in Hup by lia.
pose proof (pow2_shift (a - b - 1) (b + 1) ltac:(lia) ltac:(lia)) as Hlo.
replace (a - b - 1 + (b + 1)) with a in Hlo by lia.
pose proof (pow2_pos (a - b + 1)) as Hp1.
pose proof (pow2_pos (a - b - 1)) as Hp2.
assert (Hb1q : (inject_Z (2 ^ b) <= inject_Z (Z.pos d))%Q)
  by (rewrite <- Zle_Qle; exact Hb1).
assert (Hb2q : (inject_Z (Z.pos d) < inject_Z (2 ^ (b + 1)))%Q)
  by (rewrite <- Zlt_Qlt; exact Hb2).
assert (Ha1q : (inject_Z (2 ^ a) <= inject_Z n)%Q)
  by (rewrite <- Zle_Qle; exact Ha1).
assert (Ha2q : (inject_Z n < inject_Z (2 ^ (a + 1)))%Q)
  by (rewrite <- Zlt_Qlt; exact Ha2).
assert (Hhi : ((n # d) < pow2 (a - b + 1))%Q).
{ apply (Qmult_lt_r _ _ (inject_Z (Z.pos d))); [exact Hd|].
  rewrite Hxd. nra. }
assert (Hlow : (pow2 (a - b - 1) < (n # d))%Q).
{ apply (Qmult_lt_r _ _ (inject_Z (Z.pos d))); [exact Hd|].
  rewrite Hxd. nra. }
destruct (Qle_bool (pow2 (a - b)) (n # d)) eqn:E.
- apply Qle_bool_iff in E. split; [exact E | exact Hhi].
- assert (Hlt : ((n # d) < pow2 (a - b))%Q).
  { apply Qnot_le_lt. intros H. apply Qle_bool_iff in H. congruence. }
  replace (a - b - 1 + 1) with (a - b) by lia.
  split; [apply Qlt_le_weak; exact Hlow | exact Hlt].
Qed.

Lemma ilog2_unique (x : Q) (k : Z) :
  (pow2 k <= x)%Q -> (x < pow2 (k + 1))%Q -> ilog2 x = k.
Proof.
intros H1 H2.
assert (Hx : (0 < x)%Q) by (pose proof (pow2_pos k); lra).
destruct (ilog2_spec x Hx) as [H3 H4].
assert (k < ilog2 x + 1) by (apply pow2_lt_inv; lra).
assert (ilog2 x < k + 1) by (apply pow2_lt_inv; lra).
lia.
Qed.

Lemma ilog2_comp (x y : Q) : (0 < x)%Q -> (x == y)%Q -> ilog2 x = ilog2 y.
Proof.
intros Hx Hxy. destruct (ilog2_spec x Hx) as [H1 H2].
symmetry. apply ilog2_unique; rewrite <- Hxy; assumption.
Qed.

Lemma ilog2_mono (x y : Q) : (0 < x)%Q -> (x <= y)%Q -> ilog2 x <= ilog2 y.
Proof.
intros Hx Hxy.
destruct (ilog2_spec x Hx) as [H1 H2].
destruct (ilog2_spec y ltac:(lra)) as [H3 H4].
assert (ilog2 x < ilog2 y + 1) by (apply pow2_lt_inv; lra).
lia.
Qed.

(** *** [rne] *)

Lemma rne_comp (x y : Q) : (x == y)%Q -> rne x = rne y.
Proof.
intros H. unfold rne. rewrite (Qfloor_comp x y H).
assert (Hc : ((x - inject_Z (Qfloor y) ?= 1 # 2) = (y - inject_Z (Qfloor y) ?= 1 # 2))%Q).
{ apply Qcompare_comp; [rewrite H; reflexivity | reflexivity]. }
rewrite Hc. reflexivity.
Qed.

Lemma rne_cases (z : Q) :
  (rne z = Qfloor z /\ (z - inject_Z (Qfloor z) <= 1 # 2)%Q)
  \/ (rne z = Qfloor z + 1 /\ (1 # 2 <= z - inject_Z (Qfloor z))%Q).
Proof.
unfold rne.
destruct (Qcompare_spec (z - inject_Z (Qfloor z)) (1 # 2)) as [H|H|H].
- destruct (Z.even (Qfloor z)); [left | right]; (split; [reflexivity | lra]).
- left. split; [reflexivity | lra].
- right. split; [reflexivity | lra].
Qed.

Lemma rne_Z (n : Z) : rne (inject_Z n) = n.
Proof.
unfold rne. rewrite Qfloor_Z.
destruct (Qcompare_spec (inject_Z n - inject_Z n) (1 # 2)) as [H|H|H];
  [lra | reflexivity | lra].
Qed.

Lemma rne_mono (x y : Q) : (x <= y)%Q -> rne x <= rne y.
Proof.
intros Hxy.
pose proof (Qfloor_resp_le x y Hxy) as Hf.
pose proof (Qfloor_le x) as Hx1. pose proof (Qlt_floor x) as Hx2.
pose proof (Qfloor_le y) as Hy1. pose proof (Qlt_floor y) as Hy2.
destruct (Z.eq_dec (Qfloor x) (Qfloor y)) as [Heq|Hne].
- unfold rne. rewrite Heq.
  destruct (Qcompare_spec (x - inject_Z (Qfloor y)) (1 # 2)) as [Hx|Hx|Hx];
  destruct (Qcompare_spec (y - inject_Z (Qfloor y)) (1 # 2)) as [Hy|Hy|Hy];
  try destruct (Z.even (Qfloor y)); try lia; lra.
- destruct (rne_cases x) as [[-> _]|[-> _]]; destruct (rne_cases y) as [[-> _]|[-> _]]; lia.
Qed.

Lemma rne_le (z : Q) (n : Z) : (z <= inject_Z n)%Q -> rne z <= n.
Proof. intros H. rewrite <- (rne_Z n). apply rne_mono, H. Qed.

Lemma rne_ge (z : Q) (n : Z) : (inject_Z n <= z)%Q -> n <= rne z.
Proof. intros H. rewrite <- (rne_Z n). apply rne_mono, H. Qed.

(** The error of [rne] is at most one half. *)
Lemma rne_error (z : Q) : (Qabs (inject_Z (rne z) - z) <= 1 # 2)%Q.
Proof.
pose proof (Qfloor_le z) as H1. pose proof (Qlt_floor z) as H2.
rewrite inject_Z_plus in H2. change (inject_Z 1) with 1%Q in H2.
apply Qabs_Qle_condition.
destruct (rne_cases z) as [[-> H]|[-> H]];
  [|rewrite inject_Z_plus; change (inject_Z 1) with 1%Q]; split; lra.
Qed.

(** *** [binary64] *)

Lemma exponent_ge (x : Q) : -1074 <= exponent x.
Proof. unfold exponent. lia. Qed.

Lemma exponent_comp (x y : Q) : ~ (x == 0)%Q -> (x == y)%Q -> exponent x = exponent y.
Proof.
intros Hx Hxy. unfold exponent. f_equal. f_equal.
apply ilog2_comp; [|rewrite Hxy; reflexivity].
destruct (Qlt_le_dec 0 x).
- rewrite Qabs_pos; lra.
- rewrite Qabs_neg by lra. destruct (Qeq_dec x 0); [contradiction | lra].
Qed.

Lemma binary64_0 (x : Q) : (x == 0)%Q -> binary64 x = 0%Q.
Proof. intros H. unfold binary64. rewrite (Qeq_eq_bool _ _ H). reflexivity. Qed.

Lemma binary64_unfold (x : Q) :
  ~ (x == 0)%Q ->
  binary64 x = (inject_Z (rne (x * pow2 (- exponent x))) * pow2 (exponent x))%Q.
Proof.
intros H. unfold binary64. destruct (Qeq_bool x 0) eqn:E; [|reflexivity].
apply Qeq_bool_eq in E. contradiction.
Qed.

Lemma binary64_comp (x y : Q) : (x == y)%Q -> (binary64 x == binary64 y)%Q.
Proof.
intros H. destruct (Qeq_dec x 0) as [Hx|Hx].
- rewrite (binary64_0 x Hx), (binary64_0 y) by (rewrite <- H; exact Hx). reflexivity.
- rewrite (binary64_unfold x Hx), (binary64_unfold y) by (rewrite <- H; exact Hx).
  rewrite <- (exponent_comp x y Hx H).
  assert (Hs : (x * pow2 (- exponent x) == y * pow2 (- exponent x))%Q)
    by (apply Qmult_comp; [exact H | reflexivity]).
  rewrite (rne_comp _ _ Hs). reflexivity.
Qed.

Lemma binary64_nonneg (x : Q) : (0 <= x)%Q -> (0 <= binary64 x)%Q.
Proof.
intros Hx. destruct (Qeq_dec x 0) as [H0|H0].
- rewrite (binary64_0 x H0). lra.
- rewrite (binary64_unfold x H0).
  pose proof (pow2_pos (exponent x)) as Hp. pose proof (pow2_pos (- exponent x)) as Hq.
  assert (Hr : 0 <= rne (x * pow2 (- exponent x))).
  { apply rne_ge. change (inject_Z 0) with 0%Q. nra. }
  apply Qmult_le_0_compat; [|lra].
  change 0%Q with (inject_Z 0). rewrite <- Zle_Qle. exact Hr.
Qed.

Lemma binary64_nonpos (x : Q) : (x <= 0)%Q -> (binary64 x <= 0)%Q.
Proof.
intros Hx. destruct (Qeq_dec x 0) as [H0|H0].
- rewrite (binary64_0 x H0). lra.
- rewrite (binary64_unfold x H0).
  pose proof (pow2_pos (exponent x)) as Hp. pose proof (pow2_pos (- exponent x)) as Hq.
  assert (Hr : rne (x * pow2 (- exponent x)) <= 0).
  { apply rne_le. change (inject_Z 0) with 0%Q. nra. }
  assert (Hr' : (inject_Z (rne (x * pow2 (- exponent x))) <= 0)%Q).
  { change 0%Q with (inject_Z 0). rewrite <- Zle_Qle. exact Hr. }
  nra.
Qed.

(** A power of two on the grid of [x] bounds the rounding of [x] as it
    bounds [x]. *)
Lemma binary64_le_pow2 (x : Q) (j : Z) :
  (0 < x)%Q -> exponent x <= j -> (x <= pow2 j)%Q -> (binary64 x <= pow2 j)%Q.
Proof.
intros Hx Hj Hle. rewrite (binary64_unfold x) by lra.
set (e := exponent x) in *.
pose proof (pow2_pos e) as Hp. pose proof (pow2_pos (- e)) as Hq.
assert (Hg : (pow2 j == inject_Z (2 ^ (j - e)) * pow2 e)%Q).
{ rewrite <- pow2_nonneg_exp by lia. rewrite <- pow2_add. 
  replace (j - e + e) with j by lia. reflexivity. }
assert (Hr : rne (x * pow2 (- e)) <= 2 ^ (j - e)).
{ apply rne_le. rewrite <- pow2_nonneg_exp by lia.
  replace (j - e) with (j + - e) by lia. rewrite pow2_add. nra. }
rewrite Hg. apply Qmult_le_compat_r; [|lra].
rewrite <- Zle_Qle. exact Hr.
Qed.

Lemma binary64_ge_pow2 (x : Q) (j : Z) :
  (0 < x)%Q -> exponent x <= j -> (pow2 j <= x)%Q -> (pow2 j <= binary64 x)%Q.
Proof.
intros Hx Hj Hle. rewrite (binary64_unfold x) by lra.
set (e := exponent x) in *.
pose proof (pow2_pos e) as Hp. pose proof (pow2_pos (- e)) as Hq.
assert (Hg : (pow2 j == inject_Z (2 ^ (j - e)) * pow2 e)%Q).
{ rewrite <- pow2_nonneg_exp by lia. rewrite <- pow2_add. 
  replace (j - e + e) with j by lia. reflexivity. }
assert (Hr : 2 ^ (j - e) <= rne (x * pow2 (- e))).
{ apply rne_ge. rewrite <- pow2_nonneg_exp by lia.
  replace (j - e) with (j + - e) by lia. rewrite pow2_add. nra. }
rewrite Hg. apply Qmult_le_compat_r; [|lra].
rewrite <- Zle_Qle. exact Hr.
Qed.

Lemma exponent_pos (x : Q) :
  (0 < x)%Q -> exponent x = Z.max (ilog2 x - 52) (-1074).
Proof.
intros Hx. unfold exponent. f_equal. f_equal.
apply ilog2_comp; [rewrite Qabs_pos; lra | apply Qabs_pos; lra].
Qed.

Lemma binary64_mono_pos (x y : Q) :
  (0 < x)%Q -> (x <= y)%Q -> (binary64 x <= binary64 y)%Q.
Proof.
intros Hx Hxy.
assert (Hy : (0 < y)%Q) by lra.
pose proof (exponent_pos x Hx) as Hex. pose proof (exponent_pos y Hy) as Hey.
pose proof (ilog2_mono x y Hx Hxy) as Hk.
destruct (ilog2_spec x Hx) as [Hx1 Hx2]. destruct (ilog2_spec y Hy) as [Hy1 Hy2].
destruct (Z.eq_dec (exponent x) (exponent y)) as [Heq|Hne].
- rewrite (binary64_unfold x), (binary64_unfold y) by lra.
  rewrite Heq. pose proof (pow2_pos (exponent y)) as Hp.
  pose proof (pow2_pos (- exponent y)) as Hq.
  apply Qmult_le_compat_r; [|lra]. rewrite <- Zle_Qle. apply rne_mono. nra.
- assert (Hlt : exponent x < exponent y) by lia.
  assert (Hey' : exponent y = ilog2 y - 52) by lia.
  set (j := Z.max (ilog2 x + 1) (exponent x)).
  assert (Hj1 : exponent x <= j) by lia.
  assert (Hj2 : ilog2 x + 1 <= j) by lia.
  assert (Hj3 : j <= ilog2 y) by lia.
  apply Qle_trans with (pow2 j).
  + apply binary64_le_pow2; [exact Hx | exact Hj1 |].
    pose proof (pow2_le _ _ Hj2). lra.
  + apply Qle_trans with (pow2 (ilog2 y)); [apply pow2_le; exact Hj3|].
    apply binary64_ge_pow2; [exact Hy | lia | exact Hy1].
Qed.

(** Rounding is monotone on the non-negative numbers. *)
Lemma binary64_mono (x y : Q) :
  (0 <= x)%Q -> (x <= y)%Q -> (binary64 x <= binary64 y)%Q.
Proof.
intros Hx Hxy. destruct (Qeq_dec x 0) as [H0|H0].
- rewrite (binary64_0 x H0). apply binary64_nonneg. lra.
- apply binary64_mono_pos; [|exact Hxy].
  destruct (Qlt_le_dec 0 x); [assumption|].
  exfalso. apply H0. lra.
Qed.

(** A number with a significand of at most 53 bits and an exponent in
    range is a binary64 number: rounding leaves it as it is. *)
Lemma binary64_exact (m e : Z) :
  0 <= m <= 2 ^ 53 -> -1074 <= e ->
  (binary64 (inject_Z m * pow2 e) == inject_Z m * pow2 e)%Q.
Proof.
intros [Hm0 Hm] He.
destruct (Z.eq_dec m 0) as [->|Hm1].
- rewrite binary64_0; ring.
- assert (Hmpos : 0 < m) by lia.
  set (x := (inject_Z m * pow2 e)%Q).
  pose proof (pow2_pos e) as Hpe.
  assert (Hmq : (0 < inject_Z m)%Q) by (change 0%Q with (inject_Z 0); rewrite <- Zlt_Qlt; lia).
  assert (Hx : (0 < x)%Q) by (subst x; nra).
  destruct (Z.log2_spec m Hmpos) as [Hl1 Hl2]. rewrite <- Z.add_1_r in Hl2.
  pose proof (Z.log2_nonneg m) as Hl0.
  set (l := Z.log2 m) in *.
  assert (Hk : ilog2 x = l + e).
  { apply ilog2_unique; subst x.
    - rewrite pow2_add, (pow2_nonneg_exp l) by lia.
      apply Qmult_le_compat_r; [rewrite <- Zle_Qle; exact Hl1 | lra].
    - replace (l + e + 1) with (l + 1 + e) by lia.
      rewrite pow2_add, (pow2_nonneg_exp (l + 1)) by lia.
      apply Qmult_lt_compat_r; [exact Hpe | rewrite <- Zlt_Qlt; exact Hl2]. }
  assert (Hl53 : l <= 53).
  { destruct (Z.le_gt_cases l 53); [assumption|].
    pose proof (Z.pow_le_mono_r 2 54 l ltac:(lia) ltac:(lia)).
    assert (2 ^ 53 < 2 ^ 54) by (apply Z.pow_lt_mono_r; lia). lia. }
  rewrite (binary64_unfold x) by lra.
  rewrite (exponent_pos x Hx), Hk.
  set (ex := Z.max (l + e - 52) (-1074)).
  destruct (Z.le_gt_cases ex e) as [Hle|Hgt].
  + (* the grid of [x] is at least as fine as [2 ^ e] *)
    assert (Hs : (x * pow2 (- ex) == inject_Z (m * 2 ^ (e - ex)))%Q).
    { subst x. rewrite inject_Z_mult, <- pow2_nonneg_exp by lia.
      replace (e - ex) with (e + - ex) by lia. rewrite pow2_add. ring. }
    rewrite (rne_comp _ _ Hs), rne_Z.
    rewrite inject_Z_mult, <- pow2_nonneg_exp by lia.
    rewrite <- Qmult_assoc, <- pow2_add.
    replace (e - ex + ex) with e by lia. reflexivity.
  + (* only for [m = 2 ^ 53] *)
    assert (Hl : l = 53) by lia.
    assert (Hm53 : m = 2 ^ 53) by (rewrite Hl in Hl1; lia).
    assert (Hex : ex = e + 1) by lia.
    assert (Hs : (x * pow2 (- ex) == inject_Z (2 ^ 52))%Q).
    { subst x. rewrite Hm53, Hex, <- !pow2_nonneg_exp by lia.
      rewrite <- !pow2_add. replace (53 + e + - (e + 1)) with 52 by lia. reflexivity. }
    rewrite (rne_comp _ _ Hs), rne_Z. subst x.
    rewrite Hm53, Hex, <- !pow2_nonneg_exp by lia.
    rewrite <- !pow2_add. replace (52 + (e + 1)) with (53 + e) by lia. reflexivity.
Qed.

Lemma binary64_significand (x : Q) :
  (0 < x)%Q -> 0 <= rne (x * pow2 (- exponent x)) <= 2 ^ 53.
Proof.
intros Hx. pose proof (exponent_pos x Hx) as He.
destruct (ilog2_spec x Hx) as [H1 H2].
pose proof (pow2_pos (- exponent x)) as Hq.
split.
- apply rne_ge. change (inject_Z 0) with 0%Q. nra.
- apply rne_le. rewrite <- pow2_nonneg_exp by lia.
  apply Qle_trans with (pow2 (ilog2 x + 1) * pow2 (- exponent x))%Q; [nra|].
  rewrite <- pow2_add. apply pow2_le. lia.
Qed.

(** What rounding returns is a binary64 number. *)
Lemma binary64_idempotent (x : Q) :
  (0 <= x)%Q -> (binary64 (binary64 x) == binary64 x)%Q.
Proof.
intros Hx. destruct (Qeq_dec x 0) as [H0|H0].
- rewrite (binary64_0 x H0). reflexivity.
- assert (Hpos : (0 < x)%Q).
  { destruct (Qlt_le_dec 0 x); [assumption | exfalso; apply H0; lra]. }
  rewrite (binary64_unfold x H0).
  apply binary64_exact; [apply binary64_significand, Hpos | apply exponent_ge].
Qed.

(** Integers up to [2 ^ 53] are binary64 numbers. *)
Lemma binary64_Z (z : Z) :
  0 <= z <= 2 ^ 53 -> (binary64 (inject_Z z) == inject_Z z)%Q.
Proof.
intros Hz. pose proof (binary64_exact z 0 Hz ltac:(lia)) as H.
rewrite pow2_0 in H.
rewrite <- (binary64_comp (inject_Z z * 1) (inject_Z z)) by ring.
rewrite H. ring.
Qed.

(** Rounding moves a number by at most half a unit in its last place. *)
Lemma binary64_error (x : Q) :
  (Qabs (binary64 x - x) <= pow2 (exponent x) * (1 # 2))%Q.
Proof.
pose proof (pow2_pos (exponent x)) as Hp.
destruct (Qeq_dec x 0) as [H0|H0].
- rewrite (binary64_0 x H0).
  assert (H : (0 - x == 0)%Q) by lra. rewrite H, (Qabs_pos 0) by lra. nra.
- rewrite (binary64_unfold x H0).
  set (e := exponent x) in *. set (s := (x * pow2 (- e))%Q).
  pose proof (rne_error s) as Hr.
  assert (Hx : (x == s * pow2 e)%Q) by (subst s; rewrite pow2_inject; reflexivity).
  assert (Hd : (inject_Z (rne s) * pow2 e - x == (inject_Z (rne s) - s) * pow2 e)%Q).
  { rewrite Hx at 1. ring. }
  rewrite Hd, Qabs_Qmult, (Qabs_pos (pow2 e)) by lra.
  rewrite (Qmult_comm (pow2 e)). apply Qmult_le_compat_r; [exact Hr | lra].
Qed.

End IEEEFacts.

(** ** [withRetry] *)

Section RetryFacts.
Import Retry.
Context {W T : Type}.
Variable apiCall : W -> (T + Thrown) * W.

Lemma outcome_at_S k w :
  outcome_at apiCall (S k) w = outcome_at apiCall k (snd (apiCall w)).
Proof. reflexivity. Qed.

Lemma rate_limited_at_shift k w :
  rate_limited_at apiCall (S k) w <-> rate_limited_at apiCall k (snd (apiCall w)).
Proof. unfold rate_limited_at. rewrite outcome_at_S. tauto. Qed.

(** The loop never invokes [apiCall] more often than it has
    iterations left. *)
Lemma loop_calls_le remaining : forall attempt lastError n ds w,
  (n <= calls (loop apiCall remaining attempt lastError n ds w) <= n + remaining)%nat.
Proof.
  induction remaining as [|k IH]; intros attempt lastError n ds w; simpl.
  - lia.
  - destruct (apiCall w) as [[v|e] w']; simpl; [lia|].
    destruct (isRateLimitError e); simpl; [|lia].
    destruct (attempt <? _)%nat.
    + specialize (IH (S attempt) e (S n) (ds ++ [INITIAL_DELAY_MS * 2 ^ Z.of_nat attempt]) w'). lia.
    + specialize (IH (S attempt) e (S n) ds w'). lia.
Qed.

(** A success after [k] rate-limited failures is returned, after
    [k + 1] invocations. *)
Lemma loop_first_success remaining : forall k attempt lastError n ds w v,
  (k < remaining)%nat ->
  (forall j, (j < k)%nat -> rate_limited_at apiCall j w) ->
  outcome_at apiCall k w = inl v ->
  let R := loop apiCall remaining attempt lastError n ds w in
  result R = inl v /\ calls R = (n + S k)%nat /\ world R = world_after apiCall (S k) w.
Proof.
  induction remaining as [|rem IH]; intros k attempt lastError n ds w v Hk Hrl Hout; [lia|].
  destruct k as [|k].
  - unfold outcome_at in Hout. simpl in *.
    destruct (apiCall w) as [[v'|e] w']; simpl in *; [|discriminate].
    inversion Hout; subst. repeat split; lia.
  - destruct (Hrl 0%nat ltac:(lia)) as [e [He Hrle]].
    unfold outcome_at in He. simpl in He.
    assert (Hshift : forall j, (j < k)%nat -> rate_limited_at apiCall j (snd (apiCall w))).
    { intros j Hj. apply (proj1 (rate_limited_at_shift j w)). apply Hrl. lia. }
    rewrite outcome_at_S in Hout.
    simpl. destruct (apiCall w) as [[v'|e'] w']; simpl in *; [discriminate|].
    inversion He; subst e'. rewrite Hrle.
    destruct (attempt <? _)%nat.
    + destruct (IH k (S attempt) e (S n) (ds ++ [INITIAL_DELAY_MS * 2 ^ Z.of_nat attempt]) w' v
                  ltac:(lia) Hshift Hout) as (H1 & H2 & H3).
      repeat split; [exact H1 | lia | exact H3].
    + destruct (IH k (S attempt) e (S n) ds w' v ltac:(lia) Hshift Hout) as (H1 & H2 & H3).
      repeat split; [exact H1 | lia | exact H3].
Qed.

(** An error that is not a rate-limit error, after [k] rate-limited
    failures, is rethrown at once. *)
Lemma loop_other_error remaining : forall k attempt lastError n ds w e,
  (k < remaining)%nat ->
  (forall j, (j < k)%nat -> rate_limited_at apiCall j w) ->
  outcome_at apiCall k w = inr e ->
  isRateLimitError e = false ->
  let R := loop apiCall remaining attempt lastError n ds w in
  result R = inr e /\ calls R = (n + S k)%nat /\ world R = world_after apiCall (S k) w.
Proof.
  induction remaining as [|rem IH]; intros k attempt lastError n ds w e Hk Hrl Hout Hne; [lia|].
  destruct k as [|k].
  - unfold outcome_at in Hout. simpl in *.
    destruct (apiCall w) as [[v'|e'] w']; simpl in *; [discriminate|].
    inversion Hout; subst. rewrite Hne. simpl. repeat split; lia.
  - destruct (Hrl 0%nat ltac:(lia)) as [e0 [He Hrle]].
    unfold outcome_at in He. simpl in He.
    assert (Hshift : forall j, (j < k)%nat -> rate_limited_at apiCall j (snd (apiCall w))).
    { intros j Hj. apply (proj1 (rate_limited_at_shift j w)). apply Hrl. lia. }
    rewrite outcome_at_S in Hout.
    simpl. destruct (apiCall w) as [[v'|e'] w']; simpl in *; [discriminate|].
    inversion He; subst e'. rewrite Hrle.
    destruct (attempt <? _)%nat.
    + destruct (IH k (S attempt) e0 (S n) (ds ++ [INITIAL_DELAY_MS * 2 ^ Z.of_nat attempt]) w' e
                  ltac:(lia) Hshift Hout Hne) as (H1 & H2 & H3).
      repeat split; [exact H1 | lia | exact H3].
    + destruct (IH k (S attempt) e0 (S n) ds w' e ltac:(lia) Hshift Hout Hne) as (H1 & H2 & H3).
      repeat split; [exact H1 | lia | exact H3].
Qed.

(** When every remaining invocation is rate-limited, the loop runs
    out and throws the error of the last one. *)
Lemma loop_exhausted remaining : forall attempt lastError n ds w,
  (forall j, (j < remaining)%nat -> rate_limited_at apiCall j w) ->
  let R := loop apiCall remaining attempt lastError n ds w in
  calls R = (n + remaining)%nat /\
  world R = world_after apiCall remaining w /\
  match remaining with
  | O => True
  | S k => exists e, outcome_at apiCall k w = inr e /\ result R = inr e
  end.
Proof.
  induction remaining as [|rem IH]; intros attempt lastError n ds w Hrl.
  - simpl. repeat split; lia.
  - destruct (Hrl 0%nat ltac:(lia)) as [e0 [He Hrle]].
    unfold outcome_at in He. simpl in He.
    assert (Hshift : forall j, (j < rem)%nat -> rate_limited_at apiCall j (snd (apiCall w))).
    { intros j Hj. apply (proj1 (rate_limited_at_shift j w)). apply Hrl. lia. }
    assert (Hnext : forall att ds',
      let R := loop apiCall rem att e0 (S n) ds' (snd (apiCall w)) in
      calls R = (n + S rem)%nat /\
      world R = world_after apiCall rem (snd (apiCall w)) /\
      exists e, outcome_at apiCall rem w = inr e /\ result R = inr e).
    { intros att ds'.
      destruct (IH att e0 (S n) ds' (snd (apiCall w)) Hshift) as (H1 & H2 & H3).
      repeat split; [simpl; lia | exact H2 |].
      destruct rem as [|k].
      - exists e0. split; [exact He|].
        simpl. destruct e0; [discriminate Hrle | reflexivity].
      - rewrite outcome_at_S. exact H3. }
    simpl. destruct (apiCall w) as [[v'|e'] w']; simpl in *; [discriminate|].
    inversion He; subst e'. rewrite Hrle.
    destruct (attempt <? _)%nat; apply Hnext.
Qed.

End RetryFacts.

(** *** What counts as a rate-limit error *)

Section ClassifierFacts.
Import Retry.

Lemma prefix_iff (a b : string) :
  String.prefix a b = true <-> exists post, b = (a ++ post)%string.
Proof.
  revert b. induction a as [|x a IH]; intros b.
  - split; [intros _; exists b; reflexivity | destruct b; reflexivity].
  - destruct b as [|y b]; simpl.
    + split; [discriminate | intros [post H]; discriminate].
    + destruct (Ascii.ascii_dec x y) as [->|Hne].
      * rewrite IH. split; intros [post H]; exists post; congruence.
      * split; [discriminate | intros [post H]; congruence].
Qed.

Lemma includes_iff (needle hay : string) :
  includes needle hay = true <-> contains needle hay.
Proof.
  unfold contains. induction hay as [|c hay IH].
  - change (includes needle EmptyString)
      with (String.prefix needle EmptyString || false).
    rewrite orb_false_r, prefix_iff. split.
    + intros [post H]. exists EmptyString, post. exact H.
    + intros (pre & post & H). destruct pre; [|discriminate].
      exists post. exact H.
  - change (includes needle (String c hay))
      with (String.prefix needle (String c hay) || includes needle hay).
    rewrite orb_true_iff, IH, prefix_iff.
    split.
    + intros [[post H] | (pre & post & H)].
      * exists EmptyString, post. exact H.
      * exists (String c pre), post. simpl. congruence.
    + intros (pre & post & H). destruct pre as [|x pre]; simpl in H.
      * left. exists post. exact H.
      * right. exists pre, post. congruence.
Qed.

Lemma lowercase_app (a b : string) :
  lowercase (a ++ b) = (lowercase a ++ lowercase b)%string.
Proof. induction a as [|x a IH]; simpl; [reflexivity | now rewrite IH]. Qed.

Lemma lowercase_split (a b : string) : forall s,
  lowercase s = (a ++ b)%string ->
  exists x y, s = (x ++ y)%string /\ lowercase x = a /\ lowercase y = b.
Proof.
  induction a as [|c a IH]; intros s H; simpl in H.
  - exists EmptyString, s. auto.
  - destruct s as [|d s]; [discriminate|]. simpl in H.
    inversion H as [[Hc Hs]].
    destruct (IH s Hs) as (x & y & -> & Hx & Hy).
    exists (String d x), y. simpl. rewrite Hx. auto.
Qed.

Lemma lower_same_letter (a b : ascii) :
  ~ (65 <= N_of_ascii b <= 90)%N -> (lower a = b <-> same_letter a b).
Proof.
  intros Hb. unfold lower, same_letter.
  pose proof (N_ascii_bounded a) as Ha.
  destruct ((65 <=? N_of_ascii a) && (N_of_ascii a <=? 90))%N eqn:E.
  - apply andb_prop in E as [E1 E2].
    apply N.leb_le in E1. apply N.leb_le in E2.
    split.
    + intros <-. right. left. split; [lia|].
      apply N_ascii_embedding. lia.
    + intros [-> | [[_ H] | [H _]]]; [lia | | lia].
      rewrite <- H. apply ascii_N_embedding.
  - assert (Hna : ~ (65 <= N_of_ascii a <= 90)%N).
    { intros [H1 H2]. apply N.leb_le in H1. apply N.leb_le in H2.
      rewrite H1, H2 in E. discriminate. }
    split; [auto|].
    intros [H | [[H _] | [H _]]]; [exact H | contradiction | contradiction].
Qed.

Lemma lower_fixed (b : ascii) : lower b = b -> ~ (65 <= N_of_ascii b <= 90)%N.
Proof.
  unfold lower. intros H [H1 H2].
  pose proof H1 as E1. pose proof H2 as E2.
  apply N.leb_le in E1. apply N.leb_le in E2. rewrite E1, E2 in H. simpl in H.
  apply (f_equal N_of_ascii) in H.
  rewrite N_ascii_embedding in H by lia. lia.
Qed.

Lemma lowercase_ignoring_case (pattern : string) :
  lowercase pattern = pattern ->
  forall s, lowercase s = pattern <-> ignoring_case s pattern.
Proof.
  induction pattern as [|b p IH]; intros Hp s.
  - split.
    + destruct s; [constructor | discriminate].
    + intros H. inversion H. reflexivity.
  - simpl in Hp. inversion Hp as [[Hb Hp']].
    pose proof (lower_fixed b Hb) as Hnb.
    rewrite Hb, Hp'.
    split.
    + destruct s as [|a s]; [discriminate|]. simpl. intros H.
      inversion H as [[Ha Hs]]. rewrite Ha, Hs. constructor.
      * apply (lower_same_letter a b Hnb), Ha.
      * apply (IH Hp'), Hs.
    + intros H. inversion H as [|a b' s' t Hab Hst]; subst. simpl.
      f_equal; [apply (lower_same_letter a b Hnb), Hab | apply (IH Hp'), Hst].
Qed.

Lemma rate_limit_regex_iff (s : string) :
  rate_limit_regex s = true <-> matches_ignoring_case "rate limit"%string s.
Proof.
  unfold rate_limit_regex, matches_ignoring_case. rewrite includes_iff.
  unfold contains. split.
  - intros (pre & post & H).
    apply lowercase_split in H as (x & y & -> & <- & Hy).
    apply lowercase_split in Hy as (mid & z & -> & Hmid & <-).
    exists mid. split; [|exists x, z; reflexivity].
    apply (lowercase_ignoring_case "rate limit"%string eq_refl), Hmid.
  - intros (part & Hpart & pre & post & ->).
    apply (lowercase_ignoring_case "rate limit"%string eq_refl) in Hpart.
    exists (lowercase pre), (lowercase post).
    rewrite !lowercase_app, Hpart. reflexivity.
Qed.

End ClassifierFacts.

Lemma isRateLimitError_iff (f : Retry.ErrorFields) :
  Retry.isRateLimitError (Retry.Err f) = true <->
  Retry.status f = Some "RESOURCE_EXHAUSTED"%string
  \/ Retry.httpStatus f = Some 429
  \/ exists m, Retry.message f = Some m
               /\ (Retry.includes "429" m = true \/ Retry.rate_limit_regex m = true).
Proof.
  unfold Retry.isRateLimitError.
  destruct f as [st hs msg]; simpl.
  split.
  - destruct st as [s|]; [destruct (String.eqb_spec s "RESOURCE_EXHAUSTED") as [->|Hs]|];
      simpl; try (left; reflexivity);
      (destruct hs as [n|]; [destruct (Z.eqb_spec n 429) as [->|Hn]|];
       simpl; try (right; left; reflexivity));
      (destruct msg as [m|]; [|discriminate]);
      intros H; apply andb_prop in H as [_ H]; apply orb_prop in H;
      right; right; exists m; (split; [reflexivity | exact H]).
  - intros [H | [H | (m & Hm & H)]].
    + inversion H; subst. reflexivity.
    + inversion H; subst. rewrite orb_true_r. reflexivity.
    + inversion Hm; subst.
      destruct (_ || _); [reflexivity|].
      destruct (String.eqb_spec m EmptyString) as [->|_].
      * destruct H as [H|H]; discriminate H.
      * simpl. destruct H as [-> | ->]; [reflexivity | apply orb_true_r].
Qed.

(** C10. [withRetry] invokes the wrapped call at most 5 times.  The
    first success is returned.  An error that is not a rate-limit error
    is rethrown at once, without another invocation.  Only a rate-limit
    error leads to another invocation, and when all 5 invocations fail
    with one, the error of the fifth is thrown.  An error counts as a
    rate-limit error exactly when it is an object whose status is
    RESOURCE_EXHAUSTED, whose httpStatus is 429, or whose message
    contains "429" or has a part that reads "rate limit" in any mix of
    upper and lower case; [null] and [undefined] do not count. *)
Theorem withRetry_retries_rate_limits_only {W T : Type}
    (apiCall : W -> (T + Retry.Thrown) * W) (w : W) :
  let R := Retry.withRetry apiCall w in
  (Retry.calls R <= 5)%nat
  /\ (forall k v, (k < 5)%nat ->
        (forall j, (j < k)%nat -> Retry.rate_limited_at apiCall j w) ->
        Retry.outcome_at apiCall k w = inl v ->
        Retry.result R = inl v /\ Retry.calls R = S k)
  /\ (forall k e, (k < 5)%nat ->
        (forall j, (j < k)%nat -> Retry.rate_limited_at apiCall j w) ->
        Retry.outcome_at apiCall k w = inr e ->
        Retry.isRateLimitError e = false ->
        Retry.result R = inr e /\ Retry.calls R = S k)
  /\ ((forall j, (j < 5)%nat -> Retry.rate_limited_at apiCall j w) ->
        exists e, Retry.outcome_at apiCall 4 w = inr e
                  /\ Retry.result R = inr e /\ Retry.calls R = 5%nat)
  /\ (forall e, Retry.isRateLimitError e = true <->
        exists f, e = Retry.Err f
          /\ (Retry.status f = Some "RESOURCE_EXHAUSTED"%string
              \/ Retry.httpStatus f = Some 429
              \/ exists m, Retry.message f = Some m
                           /\ (Retry.contains "429" m
                               \/ Retry.matches_ignoring_case "rate limit" m))).
Proof.
  unfold Retry.withRetry. cbv zeta. split; [|split; [|split; [|split]]].
  - pose proof (loop_calls_le apiCall Retry.MAX_RETRIES 0 Retry.Nullish 0 [] w) as H.
    unfold Retry.MAX_RETRIES in *. lia.
  - intros k v Hk Hrl Hout.
    destruct (loop_first_success apiCall Retry.MAX_RETRIES k 0 Retry.Nullish 0 [] w v
                Hk Hrl Hout) as (H1 & H2 & _).
    split; [exact H1 | exact H2].
  - intros k e Hk Hrl Hout Hne.
    destruct (loop_other_error apiCall Retry.MAX_RETRIES k 0 Retry.Nullish 0 [] w e
                Hk Hrl Hout Hne) as (H1 & H2 & _).
    split; [exact H1 | exact H2].
  - intros Hall.
    destruct (loop_exhausted apiCall Retry.MAX_RETRIES 0 Retry.Nullish 0 [] w Hall)
      as (H1 & _ & e & He & Hres).
    exists e. split; [exact He | split; [exact Hres | exact H1]].
  - intros [|f].
    + split; [discriminate | intros (f & Hf & _); discriminate].
    + rewrite isRateLimitError_iff. split.
      * intros H. exists f. split; [reflexivity|].
        destruct H as [H | [H | (m & Hm & H)]]; [auto | auto |].
        right. right. exists m. split; [exact Hm|].
        rewrite <- includes_iff, <- rate_limit_regex_iff. exact H.
      * intros (f' & Hf & H). inversion Hf; subst f'.
        destruct H as [H | [H | (m & Hm & H)]]; [auto | auto |].
        right. right. exists m. split; [exact Hm|].
        rewrite <- includes_iff, <- rate_limit_regex_iff in H. exact H.
Qed.

Lemma withRetry_retries_rate_limits_only_witness :
  let quota := Retry.Error "got status: 429 Too Many Requests" in
  let limit := Retry.Error "Rate Limit exceeded, slow down" in
  let R := Retry.withRetry (Retry.scripted quota) [inr quota; inr limit; inl 7%nat] in
  Retry.result R = inl 7%nat /\ Retry.calls R = 3%nat
  /\ Retry.isRateLimitError limit = true.
Proof.
  cbv zeta.
  destruct (withRetry_retries_rate_limits_only
              (Retry.scripted (T:=nat) (Retry.Error "got status: 429 Too Many Requests"))
              [inr (Retry.Error "got status: 429 Too Many Requests");
               inr (Retry.Error "Rate Limit exceeded, slow down"); inl 7%nat])
    as (_ & Hsuccess & _ & _ & Hclass).
  split; [|split].
  - apply (Hsuccess 2%nat 7%nat); [lia | | reflexivity].
    intros j Hj.
    destruct j as [|[|j]]; [eexists; split; reflexivity.. | lia].
  - apply (Hsuccess 2%nat 7%nat); [lia | | reflexivity].
    intros j Hj.
    destruct j as [|[|j]]; [eexists; split; reflexivity.. | lia].
  - apply Hclass. eexists. split; [reflexivity|].
    right. right. eexists. split; [reflexivity|]. right.
    exists "Rate Limit"%string. split.
    + repeat (constructor;
              [first [left; reflexivity
                     | right; left; split; [split; discriminate | reflexivity]]|]).
      constructor.
    + exists EmptyString, " exceeded, slow down"%string. reflexivity.
Defined.

(** ** The system prompt *)

Section PromptFacts.
Import Prompt.

Lemma append_assoc (a b c : string) :
  ((a ++ b) ++ c)%string = (a ++ (b ++ c))%string.
Proof. induction a as [|x a IH]; simpl; [reflexivity | now rewrite IH]. Qed.

Lemma append_empty_r (a : string) : (a ++ EmptyString)%string = a.
Proof. induction a as [|x a IH]; simpl; [reflexivity | now rewrite IH]. Qed.

(** One conditional push lengthens the list exactly when the field is
    present and not empty. *)
Lemma push_if_nonempty label field mc :
  (0 <? length (push_if label field mc))%nat
  = non_empty field || (0 <? length mc)%nat.
Proof.
  unfold push_if, non_empty.
  destruct field as [v|]; [|reflexivity].
  destruct (String.eqb v EmptyString); simpl; [reflexivity|].
  rewrite length_app. simpl.
  destruct (Nat.ltb_spec 0 (length mc + 1)); [reflexivity | lia].
Qed.

Lemma medicalContext_nonempty md :
  (0 <? length (medicalContext_of md))%nat = has_non_empty_field md.
Proof.
  unfold medicalContext_of, has_non_empty_field.
  rewrite !push_if_nonempty. simpl.
  destruct (non_empty (medicalHistory md)), (non_empty (currentMedications md)),
    (non_empty (concomitantMedications md)), (non_empty (signsSymptoms md)),
    (non_empty (labWork md)), (non_empty (recentVaccinations md)); reflexivity.
Qed.

(** The two texts the code appends are the segments as stated. *)
Lemma profile_text_stated p : profile_segment (Some p) = [profile_text p].
Proof.
  unfold profile_segment, profile_text, or_else.
  destruct (String.concat ", " (allergies p)); reflexivity.
Qed.

Lemma push_if_stated label field mc :
  push_if label field mc
  = mc ++ match field with
          | Some v =>
              if String.eqb v EmptyString then [] else [(label ++ ": " ++ v)%string]
          | None => []
          end.
Proof.
  unfold push_if. destruct field as [v|]; [|now rewrite app_nil_r].
  destruct (String.eqb v EmptyString); [now rewrite app_nil_r | reflexivity].
Qed.

Lemma medicalContext_stated md : medicalContext_of md = stated_fields md.
Proof.
  unfold medicalContext_of, stated_fields, labelled_fields.
  rewrite !push_if_stated. cbn [flat_map fst snd].
  rewrite <- !app_assoc, app_nil_r. reflexivity.
Qed.

Lemma medical_text_stated md :
  medical_segment (Some md)
  = if has_non_empty_field md then [medical_text (medicalContext_of md)] else [].
Proof. rewrite medicalContext_stated. reflexivity. Qed.

End PromptFacts.

(** C8. The system instruction is the base persona, then the profile
    segment, then the medical-context segment, in that order and with
    nothing else.  The persona is always there, and first.  The profile
    segment is there exactly when a profile is given, and then carries
    the skin type, the allergies joined by commas (or the word None),
    and the goals.  The medical segment is there exactly when medical
    data with a non-empty field is given, and then lists every field
    that is present and not empty under its label, in the order of the
    form; each such field is among the lines the code has gathered. *)
Theorem systemInstruction_segments
    (userProfile : option Prompt.UserProfile)
    (medicalData : option Prompt.MedicalQuestionnaireData) :
  let persona :=
    "You are DermaGenius, a friendly and knowledgeable AI skincare assistant. Your goal is to provide helpful, safe, and informative advice on skincare. You are not a medical professional. Always remind users to consult a dermatologist for serious medical conditions. Be encouraging and positive in your tone."%string in
  Prompt.systemInstruction userProfile medicalData
  = String.concat EmptyString
      ([persona] ++ Prompt.profile_segment userProfile
       ++ Prompt.medical_segment medicalData)
  /\ (exists rest,
        Prompt.systemInstruction userProfile medicalData = (persona ++ rest)%string)
  /\ (Prompt.profile_segment userProfile <> [] <-> userProfile <> None)
  /\ (Prompt.medical_segment medicalData <> [] <->
      exists md, medicalData = Some md /\ Prompt.has_non_empty_field md = true)
  /\ (forall md label v,
        medicalData = Some md ->
        In (label, Some v) (Prompt.labelled_fields md) -> v <> EmptyString ->
        In (label ++ ": " ++ v)%string (Prompt.medicalContext_of md)).
Proof.
  cbv zeta.
  assert (Heq : Prompt.systemInstruction userProfile medicalData
                = String.concat EmptyString
                    ([Prompt.base_persona] ++ Prompt.profile_segment userProfile
                     ++ Prompt.medical_segment medicalData)).
  { unfold Prompt.systemInstruction.
    generalize Prompt.base_persona as base. intros base.
    destruct userProfile as [p|];
      [rewrite profile_text_stated;
       generalize (Prompt.profile_text p) as ptext; intros ptext|];
      (destruct medicalData as [md|];
       [rewrite medicalContext_nonempty, medical_text_stated;
        generalize (Prompt.medical_text (Prompt.medicalContext_of md)) as mtext;
        intros mtext; destruct (Prompt.has_non_empty_field md)|]);
      simpl; rewrite ?append_assoc, ?append_empty_r; reflexivity. }
  split; [exact Heq|]. split; [|split; [|split]].
  - rewrite Heq.
    destruct (Prompt.profile_segment userProfile ++ Prompt.medical_segment medicalData)
      as [|x l] eqn:E.
    + exists EmptyString. symmetry. apply append_empty_r.
    + exists (String.concat EmptyString (x :: l)). reflexivity.
  - unfold Prompt.profile_segment. destruct userProfile; split; congruence.
  - unfold Prompt.medical_segment. destruct medicalData as [md|].
    + destruct (Prompt.has_non_empty_field md) eqn:E; split.
      * intros _. exists md. split; [reflexivity | exact E].
      * intros _. discriminate.
      * intros H. now contradiction H.
      * intros (md' & Hmd & Hne). inversion Hmd; subst. congruence.
    + split; [intros H; now contradiction H | intros (md & Hmd & _); discriminate].
  - intros md label v _ Hin Hv.
    rewrite medicalContext_stated. unfold Prompt.stated_fields.
    apply in_flat_map. exists (label, Some v). split; [exact Hin|]. simpl.
    destruct (String.eqb_spec v EmptyString); [contradiction | left; reflexivity].
Qed.

(** ** The voice session *)

Section ChatFacts.
Import Chat.
Local Open Scope chat_scope.

(** *** Observations that a callback leaves alone *)

Lemma preserves_ret {A X} (obs : Store -> X) (a : A) : preserves obs (ret a).
Proof. intros st. reflexivity. Qed.

Lemma preserves_throw {A X} (obs : Store -> X) e : preserves obs (@throw A e).
Proof. intros st. reflexivity. Qed.

Lemma preserves_gets {A X} (obs : Store -> X) (f : Store -> A) : preserves obs (gets f).
Proof. intros st. reflexivity. Qed.

Lemma preserves_lift {A X} (obs : Store -> X) (o : outcome A) : preserves obs (lift o).
Proof. intros st. reflexivity. Qed.

Lemma preserves_modify {X} (obs : Store -> X) (f : Store -> Store) :
  (forall st, obs (f st) = obs st) -> preserves obs (modify f).
Proof. intros H st. apply H. Qed.

Lemma preserves_bind {A B X} (obs : Store -> X) (m : M A) (k : A -> M B) :
  preserves obs m -> (forall a, preserves obs (k a)) -> preserves obs (bind m k).
Proof.
  intros Hm Hk st. unfold bind.
  specialize (Hm st). destruct (m st) as [[a|e] st']; simpl in *.
  - rewrite Hk. exact Hm.
  - exact Hm.
Qed.

Lemma preserves_when {X} (obs : Store -> X) b (m : M unit) :
  preserves obs m -> preserves obs (when b m).
Proof. destruct b; [auto | intros _; apply preserves_ret]. Qed.

Lemma preserves_forEach {A X} (obs : Store -> X) (f : A -> M unit) l :
  (forall x, preserves obs (f x)) -> preserves obs (forEach f l).
Proof.
  intros Hf. induction l as [|x l IH]; simpl.
  - apply preserves_ret.
  - apply preserves_bind; auto.
Qed.

Lemma preserves_unawaited {A X} (obs : Store -> X) (m : M A) :
  preserves obs m -> preserves obs (unawaited m).
Proof. intros Hm st. apply Hm. Qed.

Lemma preserves_start {X} (obs : Store -> X) node t :
  (forall f st, obs (with_nodes f st) = obs st) -> preserves obs (start node t).
Proof.
  intros H st. unfold start.
  destruct (nodes st !! node) as [n|]; [|reflexivity].
  destruct (startedAt n); [reflexivity|].
  destruct (Qle_bool 0 t); [apply H | reflexivity].
Qed.

Lemma preserves_stop {X} (obs : Store -> X) node :
  (forall f st, obs (with_nodes f st) = obs st) -> preserves obs (stop node).
Proof.
  intros H st. unfold stop.
  destruct (nodes st !! node) as [n|]; [|reflexivity].
  destruct (startedAt n); [apply H | reflexivity].
Qed.

Lemma preserves_createBufferSource {X} (obs : Store -> X) b :
  (forall f st, obs (with_nodes f st) = obs st) -> preserves obs (createBufferSource b).
Proof. intros H st. apply H. Qed.

End ChatFacts.

(** Break a callback into its steps. *)
Ltac preserve_step :=
  lazymatch goal with
  | |- Chat.preserves _ (Chat.ret _) => apply preserves_ret
  | |- Chat.preserves _ (Chat.throw _) => apply preserves_throw
  | |- Chat.preserves _ (Chat.gets _) => apply preserves_gets
  | |- Chat.preserves _ (Chat.lift _) => apply preserves_lift
  | |- Chat.preserves _ (Chat.bind _ _) => apply preserves_bind; [|intros ?]
  | |- Chat.preserves _ (Chat.when _ _) => apply preserves_when
  | |- Chat.preserves _ (Chat.forEach _ _) => apply preserves_forEach; intros ?
  | |- Chat.preserves _ (Chat.start _ _) => apply preserves_start; [intros ? ?; reflexivity]
  | |- Chat.preserves _ (Chat.stop _) => apply preserves_stop; [intros ? ?; reflexivity]
  | |- Chat.preserves _ (Chat.createBufferSource _) =>
      apply preserves_createBufferSource; [intros ? ?; reflexivity]
  | |- Chat.preserves _ (Chat.modify _) => apply preserves_modify; [intros ?; reflexivity]
  | |- Chat.preserves _ (match ?x with _ => _ end) => destruct x
  | |- Chat.preserves _ (let _ := _ in _) => cbv zeta
  | |- Chat.preserves _ (Chat.unawaited _) => apply preserves_unawaited
  end.

Ltac preserve := repeat preserve_step.

Section SessionFacts.
Import Chat.

Lemma stop_and_clear_preserves_sent : preserves sent stop_and_clear.
Proof. unfold stop_and_clear. preserve. Qed.

Lemma stopMic_preserves_sent r : preserves sent (stopMic r).
Proof.
  unfold stopMic, stopLiveSession.
  pose proof stop_and_clear_preserves_sent.
  preserve; try assumption;
    apply preserves_modify; intros st; unfold sent, emit; simpl;
    rewrite flat_map_app; simpl; apply app_nil_r.
Qed.

Lemma emit_console_preserves_sent msg : preserves sent (modify (emit (ConsoleError msg))).
Proof.
  apply preserves_modify. intros st. unfold sent, emit. simpl.
  rewrite flat_map_app. simpl. apply app_nil_r.
Qed.

Lemma onmessage_preserves_sent m t : preserves sent (onmessage m t).
Proof.
  unfold onmessage, enqueue, interrupt.
  pose proof stop_and_clear_preserves_sent. preserve; assumption.
Qed.

(** A callback created in a render without a live session sends
    nothing, whatever the event. *)
Lemma handler_preserves_sent r ev :
  liveSession r = None -> preserves sent (handler r ev).
Proof.
  intros Hr.
  pose proof (stopMic_preserves_sent r).
  pose proof emit_console_preserves_sent.
  pose proof onmessage_preserves_sent.
  destruct ev; simpl;
    unfold startMic, startMic_connected, startMic_failed, onaudioprocess,
      session_onmessage, transcription, onTranscription, onTurnComplete, onerror, onclose;
    try rewrite Hr; preserve; auto.
Qed.

Lemma run_preserves_sent r evs : forall st,
  liveSession r = None -> sent (run r evs st) = sent st.
Proof.
  induction evs as [|ev evs IH]; intros st Hr; [reflexivity|].
  change (run r (ev :: evs) st) with (run r evs (dispatch r ev st)).
  rewrite IH by exact Hr.
  apply handler_preserves_sent. exact Hr.
Qed.

End SessionFacts.

(** What the two stale callbacks do, and what they would do with the
    values of the current render. *)
Lemma onTurnComplete_reads_render (r : Chat.Hooks) (st : Chat.Store) :
  Chat.chatHistory (Chat.hooks (snd (Chat.onTurnComplete r st)))
  = Chat.chatHistory (Chat.hooks st)
    ++ (if Chat.truthy (Chat.currentInputTranscription r)
        then [{| Chat.role := Chat.USER; Chat.text := Chat.currentInputTranscription r |}]
        else [])
    ++ (if Chat.truthy (Chat.currentOutputTranscription r)
        then [{| Chat.role := Chat.MODEL; Chat.text := Chat.currentOutputTranscription r |}]
        else []).
Proof.
  unfold Chat.onTurnComplete, Chat.bind, Chat.modify, Chat.when.
  destruct (Chat.truthy (Chat.currentInputTranscription r)),
    (Chat.truthy (Chat.currentOutputTranscription r)); simpl;
    rewrite <- ?app_assoc, ?app_nil_r; reflexivity.
Qed.

Lemma onTurnComplete_current_render (history : list Chat.ChatMessage) :
  let st := snd (Chat.onTranscription Chat.output (Some "hello"%string)
                   (Chat.mounted history)) in
  Chat.chatHistory (Chat.hooks (snd (Chat.onTurnComplete (Chat.hooks st) st)))
  = history ++ [{| Chat.role := Chat.MODEL; Chat.text := "hello" |}].
Proof. reflexivity. Qed.

Lemma onaudioprocess_reads_render (r : Chat.Hooks) (inputData : list float)
    (st : Chat.Store) :
  Chat.sent (snd (Chat.onaudioprocess r inputData st))
  = Chat.sent st
    ++ match Chat.liveSession r with
       | Some session => [(session, createBlob inputData)]
       | None => []
       end.
Proof.
  unfold Chat.onaudioprocess, Chat.processAudioChunk, Chat.sent.
  destruct (Chat.liveSession r); simpl.
  - rewrite flat_map_app. reflexivity.
  - now rewrite app_nil_r.
Qed.

(** C3 (as the code behaves).  The microphone is started from the
    mounted component; frames are captured before the session is
    connected and after it.  The store then holds the session, yet none
    of the frames has been sent, and none will be, whatever follows: the
    processor's callback keeps reading [liveSession] of the render of
    the click, which is [null]. *)
Theorem frames_after_open_are_dropped
    (history : list Chat.ChatMessage)
    (stream : Chat.MediaStream) (processor : Chat.ScriptProcessorNode)
    (session : Chat.LiveSession) (before after : list (list float)) :
  let r := Chat.hooks (Chat.mounted history) in
  let st :=
    Chat.run r
      ([Chat.StartClicked (Some (stream, processor))]
       ++ map Chat.AudioProcess before
       ++ [Chat.Connected session; Chat.Opened]
       ++ map Chat.AudioProcess after)
      (Chat.mounted history) in
  Chat.liveSession (Chat.hooks st) = Some session
  /\ Chat.sent st = []
  /\ (forall evs, Chat.sent (Chat.run r evs st) = []).
Proof.
  cbv zeta. split; [|split].
  - unfold Chat.run. rewrite !foldl_app. simpl.
    set (st1 := foldl _ _ (map Chat.AudioProcess before)).
    assert (H : forall fs st,
      Chat.liveSession (Chat.hooks
        (foldl (fun st ev => Chat.dispatch (Chat.initial_hooks history) ev st) st
               (map Chat.AudioProcess fs)))
      = Chat.liveSession (Chat.hooks st)).
    { intros fs. induction fs as [|f fs IH]; intros st; simpl; [reflexivity|].
      rewrite IH. reflexivity. }
    rewrite H. reflexivity.
  - rewrite run_preserves_sent; reflexivity.
  - intros evs. rewrite !run_preserves_sent; reflexivity.
Qed.

(** C2 (as the code behaves).  In a voice session started from the
    mounted component, the output transcription "hello" arrives and is
    accumulated; the turn then completes.  The conversation log is left
    as it was: the callback tests and pushes [currentInputTranscription]
    and [currentOutputTranscription] of the render of the click, which
    are empty.  Both accumulators are cleared, and a second completion
    adds nothing either. *)
Theorem turn_complete_drops_transcript
    (history : list Chat.ChatMessage) (t : Q) :
  let r := Chat.hooks (Chat.mounted history) in
  let hello :=
    {| Chat.outputTranscription := Some (Some "hello"%string);
       Chat.inputTranscription := None; Chat.turnComplete := false;
       Chat.modelTurn := Chat.NoModelTurn; Chat.interrupted := false |} in
  let complete :=
    {| Chat.outputTranscription := None; Chat.inputTranscription := None;
       Chat.turnComplete := true; Chat.modelTurn := Chat.NoModelTurn;
       Chat.interrupted := false |} in
  let st1 := Chat.dispatch r (Chat.Message hello t) (Chat.mounted history) in
  let st2 := Chat.dispatch r (Chat.Message complete t) st1 in
  let st3 := Chat.dispatch r (Chat.Message complete t) st2 in
  Chat.currentOutputTranscription (Chat.hooks st1) = "hello"%string
  /\ Chat.currentInputTranscription (Chat.hooks st1) = EmptyString
  /\ Chat.chatHistory (Chat.hooks st2) = history
  /\ Chat.currentOutputTranscription (Chat.hooks st2) = EmptyString
  /\ Chat.currentInputTranscription (Chat.hooks st2) = EmptyString
  /\ Chat.chatHistory (Chat.hooks st3) = history.
Proof. cbv zeta. repeat split; reflexivity. Qed.

(** ** The framer: when decoding fails *)

Section FramerFacts.

(** Induction over a list taken two elements at a time. *)
Lemma pair_induction {A} (P : list A -> Prop) :
  P [] -> (forall x, P [x]) -> (forall x y l, P l -> P (x :: y :: l)) ->
  forall l, P l.
Proof.
  intros Hnil Hone Hstep l.
  assert (H : P l /\ forall x, P (x :: l)); [|exact (proj1 H)].
  induction l as [|y l [IH1 IH2]]; split; auto.
Qed.

(** The Int16Array view exists exactly over an even number of bytes,
    and has half as many elements. *)
Lemma Int16Array_of_bytes_spec (bytes : list Z) :
  match Int16Array_of_bytes bytes with
  | Ok l => length bytes = (2 * length l)%nat
  | Throw e => e = RangeError /\ Nat.Odd (length bytes)
  end.
Proof.
  induction bytes as [|x|lo hi rest IH] using pair_induction; simpl.
  - reflexivity.
  - split; [reflexivity | exists 0%nat; reflexivity].
  - destruct (Int16Array_of_bytes rest) as [l|e]; simpl.
    + lia.
    + destruct IH as [-> [k Hk]]. split; [reflexivity|].
      exists (S k). lia.
Qed.

Lemma Qfloor_div (a b : Z) :
  0 < b -> Qfloor (inject_Z a / inject_Z b) = a / b.
Proof.
  intros Hb. destruct b as [|p|p]; try lia.
  unfold Qdiv, Qinv, Qmult, Qfloor, inject_Z. simpl.
  now rewrite Z.mul_1_r.
Qed.

Lemma Qceiling_div_1 (a : Z) : Qceiling (inject_Z a / inject_Z 1) = a.
Proof.
  unfold Qceiling, Qdiv, Qinv, Qmult, Qopp, Qfloor, inject_Z. simpl.
  rewrite Z.mul_1_r, Z.div_1_r. lia.
Qed.

(** [createBuffer] with a supported channel count fails exactly on a
    frame count below one. *)
Lemma createBuffer_spec (numChannels : nat) (samples : nat) (rate : Q) :
  (1 <= numChannels <= maxChannels)%nat ->
  createBuffer numChannels
    (inject_Z (Z.of_nat samples) / inject_Z (Z.of_nat numChannels)) rate
  = if (samples <? numChannels)%nat then Throw NotSupportedError
    else Ok {| sampleRate := rate;
               channels := replicate numChannels
                             (replicate (samples / numChannels) (Fin 0)) |}.
Proof.
  intros [H1 H2]. unfold createBuffer.
  rewrite Qfloor_div by lia.
  rewrite <- Nat2Z.inj_div, Nat2Z.id.
  destruct (Nat.eqb_spec numChannels 0); [lia|].
  destruct (Nat.ltb_spec maxChannels numChannels); [lia|]. simpl.
  destruct (Nat.ltb_spec samples numChannels) as [Hlt|Hge].
  - rewrite Nat.div_small by exact Hlt. reflexivity.
  - destruct (Nat.eqb_spec (samples / numChannels) 0) as [Hz|Hnz]; [|reflexivity].
    apply Nat.div_small_iff in Hz; lia.
Qed.

(** [decodeAudioData] fails in exactly two ways. *)
Lemma decodeAudioData_cases (bytes : list Z) (rate : Q) (numChannels : nat) :
  (1 <= numChannels <= maxChannels)%nat ->
  (Nat.Odd (length bytes) /\ decodeAudioData bytes rate numChannels = Throw RangeError)
  \/ (Nat.Even (length bytes) /\ (length bytes < 2 * numChannels)%nat
      /\ decodeAudioData bytes rate numChannels = Throw NotSupportedError)
  \/ (Nat.Even (length bytes) /\ (2 * numChannels <= length bytes)%nat
      /\ exists b, decodeAudioData bytes rate numChannels = Ok b
                   /\ sampleRate b = rate
                   /\ length (channels b) = numChannels).
Proof.
  intros Hnc. unfold decodeAudioData.
  pose proof (Int16Array_of_bytes_spec bytes) as Hview.
  destruct (Int16Array_of_bytes bytes) as [l|e].
  - rewrite createBuffer_spec by exact Hnc.
    assert (Heven : Nat.Even (length bytes)) by (exists (length l); exact Hview).
    destruct (Nat.ltb_spec (length l) numChannels) as [Hlt|Hge].
    + right; left. repeat split; [exact Heven | lia].
    + right; right. repeat split; [exact Heven | lia |].
      eexists. split; [reflexivity|]. simpl. split; [reflexivity|].
      unfold fill_channels.
      assert (Hlen : forall (f : list (list float) -> nat -> list (list float)) idx cs,
                 (forall cs' c, length (f cs' c) = length cs') ->
                 length (foldl f cs idx) = length cs).
      { intros f idx. induction idx as [|c idx IH]; intros cs Hf; simpl; [reflexivity|].
        rewrite IH by exact Hf. apply Hf. }
      rewrite Hlen.
      * apply length_replicate.
      * intros cs' c. destruct (cs' !! c); [apply length_insert | reflexivity].
  - destruct Hview as [-> Hodd]. left. split; [exact Hodd | reflexivity].
Qed.

End FramerFacts.

(** C6 (amended).  With a supported channel count, [decodeAudioData]
    fails exactly when the byte length is odd (the Int16Array view
    cannot be made) or shorter than one frame of [2 * numChannels] bytes
    (the buffer would be empty).  A 3-byte payload with one channel
    fails; a 4-byte payload with one channel gives a buffer of two
    samples. *)
Theorem decodeAudioData_fails_iff
    (bytes : list Z) (rate : Q) (numChannels : nat)
    (Hchannels : (1 <= numChannels <= maxChannels)%nat) :
  (succeeds (decodeAudioData bytes rate numChannels) = false
   <-> Nat.Odd (length bytes) \/ (length bytes < 2 * numChannels)%nat)
  /\ (forall b1 b2 b3, decodeAudioData [b1; b2; b3] rate 1 = Throw RangeError)
  /\ (forall b1 b2 b3 b4,
        decodeAudioData [b1; b2; b3; b4] rate 1
        = Ok {| sampleRate := rate;
                channels := [[Fin (inject_Z (wrap16 (b1 + 256 * b2)) / 32768);
                              Fin (inject_Z (wrap16 (b3 + 256 * b4)) / 32768)]] |}).
Proof.
  split; [|split; intros; reflexivity].
  destruct (decodeAudioData_cases bytes rate numChannels Hchannels)
    as [[Hodd ->] | [(Heven & Hshort & ->) | (Heven & Hlong & b & -> & _)]]; simpl.
  - split; [intros _; left; exact Hodd | reflexivity].
  - split; [intros _; right; exact Hshort | reflexivity].
  - split; [discriminate|].
    intros [Hodd | Hshort]; [|lia].
    destruct (Nat.Even_Odd_False _ Heven Hodd).
Qed.

Lemma decodeAudioData_fails_iff_witness :
  succeeds (decodeAudioData [0; 0; 0; 0; 0; 0] 24000 2) = false
  <-> Nat.Odd 6 \/ (6 < 2 * 2)%nat.
Proof.
  apply (decodeAudioData_fails_iff [0; 0; 0; 0; 0; 0] 24000 2).
  unfold maxChannels. lia.
Defined.

(** C6 as stated fails: six bytes are not a multiple of [2 * 2], yet
    [decodeAudioData] with two channels returns a buffer. *)
Lemma six_bytes_two_channels_decode :
  ~ (succeeds (decodeAudioData [1; 0; 2; 0; 3; 0] 24000 2) = false
     <-> (length [1; 0; 2; 0; 3; 0] mod (2 * 2) <> 0)%nat).
Proof.
  intros [_ H]. specialize (H ltac:(simpl; lia)). discriminate H.
Qed.

(** *** The playback scheduler *)

Section SchedulerFacts.
Import Chat.

Lemma decoded_sampleRate base64Audio b :
  decoded base64Audio = Ok b -> sampleRate b = 24000%Q.
Proof.
  unfold decoded. destruct (decode base64Audio) as [bytes|e]; [|discriminate].
  intros H.
  destruct (decodeAudioData_cases bytes 24000 1 ltac:(unfold maxChannels; lia))
    as [[_ H'] | [(_ & _ & H') | (_ & _ & b' & H' & Hrate & _)]];
    rewrite H' in H; try discriminate.
  inversion H; subst. exact Hrate.
Qed.

Lemma decoded_duration_nonneg base64Audio b :
  decoded base64Audio = Ok b -> (0 <= duration b)%Q.
Proof.
  intros Hdec. unfold duration.
  rewrite (decoded_sampleRate base64Audio b Hdec).
  apply binary64_nonneg.
  unfold Qdiv. apply Qmult_le_0_compat; unfold Qle; simpl; lia.
Qed.

(** What the audio context reports is a double, and the later of two
    doubles is one of them. *)
Lemma currentTime_double (t : Q) :
  (0 <= t)%Q -> (IEEE.binary64 (currentTime t) == currentTime t)%Q.
Proof. apply binary64_idempotent. Qed.

Lemma currentTime_nonneg (t : Q) : (0 <= t)%Q -> (0 <= currentTime t)%Q.
Proof. apply binary64_nonneg. Qed.

Lemma Qmax_clock (c t : Q) :
  (0 <= c)%Q -> (IEEE.binary64 c == c)%Q ->
  (0 <= Qmax c (currentTime t))%Q
  /\ (IEEE.binary64 (Qmax c (currentTime t)) == Qmax c (currentTime t))%Q.
Proof.
  intros Hc Hd. split.
  - pose proof (Q.le_max_l c (currentTime t)). lra.
  - destruct (Qlt_le_dec t 0) as [Hneg|Hpos].
    + assert (Hle : (currentTime t <= c)%Q).
      { pose proof (binary64_nonpos t ltac:(lra)). unfold currentTime. lra. }
      pose proof (Q.max_l c (currentTime t) Hle) as Hmax.
      rewrite (binary64_comp _ _ Hmax), Hmax. exact Hd.
    + destruct (Q.max_spec c (currentTime t)) as [[_ Hmax]|[_ Hmax]];
        rewrite (binary64_comp _ _ Hmax), Hmax;
        [apply currentTime_double; exact Hpos | exact Hd].
Qed.

(** Scheduling one decoded buffer: the node starts at the later of the
    playback clock and the device clock, and the playback clock moves
    to the end of the buffer. *)
Lemma enqueue_ok (base64Audio : string) (t : Q) (b : AudioBuffer) (st : Store) :
  decoded base64Audio = Ok b ->
  (0 <= Qmax (nextStartTime st) (currentTime t))%Q ->
  enqueue base64Audio t st
  = (Ok tt,
     {| hooks := hooks st; outputAudio := outputAudio st;
        audioSources := set_add (length (nodes st)) (audioSources st);
        nextStartTime :=
          IEEE.binary64 (Qmax (nextStartTime st) (currentTime t) + duration b);
        nodes := nodes st ++ [{| buffer := b;
                                 startedAt := Some (Qmax (nextStartTime st) (currentTime t));
                                 stopped := false |}];
        effects := effects st |}).
Proof.
  intros Hdec Hpos. apply Qle_bool_iff in Hpos.
  unfold enqueue, bind, modify, lift, createBufferSource, gets, start.
  simpl. rewrite Hdec. simpl.
  rewrite list_lookup_middle by reflexivity. simpl.
  rewrite Hpos. unfold with_nodes, with_nextStartTime, with_audioSources. simpl.
  rewrite insert_app_r_alt by lia. rewrite Nat.sub_diag. reflexivity.
Qed.

(** A payload that does not decode: the clock has been clamped, and
    nothing else has happened. *)
Lemma enqueue_throws (base64Audio : string) (t : Q) (e : DOMException) (st : Store) :
  decoded base64Audio = Throw e ->
  enqueue base64Audio t st
  = (Throw e, with_nextStartTime (fun t0 => Qmax t0 (currentTime t)) st).
Proof.
  intros Hdec. unfold enqueue, bind, modify, lift. simpl. rewrite Hdec. reflexivity.
Qed.

Lemma In_set_add x y s : In x (set_add y s) <-> x = y \/ In x s.
Proof.
  unfold set_add. destruct (existsb (Nat.eqb y) s) eqn:E.
  - split; [auto|]. intros [->|H]; [|exact H].
    apply existsb_exists in E as (z & Hz & Hyz).
    apply Nat.eqb_eq in Hyz. now subst.
  - rewrite in_app_iff. simpl. intuition.
Qed.

(** [sources_started] only looks at the nodes and the active set. *)
Lemma sources_started_ext st st' :
  audioSources st' = audioSources st -> nodes st' = nodes st ->
  sources_started st -> sources_started st'.
Proof. intros Hs Hn H node. rewrite Hs, Hn. apply H. Qed.

Lemma keeps_ret {A} P (a : A) : keeps P (ret a).
Proof. intros st H. exact H. Qed.

Lemma keeps_gets {A} P (f : Store -> A) : keeps P (gets f).
Proof. intros st H. exact H. Qed.

Lemma keeps_throw {A} P e : keeps P (@throw A e).
Proof. intros st H. exact H. Qed.

Lemma keeps_modify P (f : Store -> Store) :
  (forall st, P st -> P (f st)) -> keeps P (modify f).
Proof. intros Hf st H. apply Hf, H. Qed.

Lemma keeps_bind {A B} P (m : M A) (k : A -> M B) :
  keeps P m -> (forall a, keeps P (k a)) -> keeps P (bind m k).
Proof.
  intros Hm Hk st H. unfold bind.
  specialize (Hm st H). destruct (m st) as [[a|e] st']; simpl in *.
  - apply Hk, Hm.
  - exact Hm.
Qed.

Lemma keeps_when P b (m : M unit) : keeps P m -> keeps P (when b m).
Proof. destruct b; [auto | intros _; apply keeps_ret]. Qed.

Lemma keeps_forEach {A} P (f : A -> M unit) l :
  (forall x, keeps P (f x)) -> keeps P (forEach f l).
Proof.
  intros Hf. induction l as [|x l IH]; simpl.
  - apply keeps_ret.
  - apply keeps_bind; auto.
Qed.

Lemma keeps_unawaited {A} P (m : M A) :
  keeps P m -> keeps P (unawaited m).
Proof. intros Hm st H. apply Hm, H. Qed.

(** Stopping a node keeps every started node started. *)
Lemma stop_keeps_started node : keeps sources_started (stop node).
Proof.
  intros st H. unfold stop.
  destruct (nodes st !! node) as [n|] eqn:En; [|exact H].
  destruct (startedAt n) as [t|] eqn:Et; [|exact H].
  intros x Hx. simpl in *.
  destruct (H x Hx) as (nx & Hnx & Hsx).
  destruct (Nat.eq_dec node x) as [->|Hne].
  - eexists. split.
    + apply list_lookup_insert_eq. eapply lookup_lt_Some, Hnx.
    + simpl. discriminate.
  - exists nx. split; [|exact Hsx].
    rewrite list_lookup_insert_ne by exact Hne. exact Hnx.
Qed.

Lemma stop_and_clear_keeps_started : keeps sources_started stop_and_clear.
Proof.
  unfold stop_and_clear.
  apply keeps_bind; [apply keeps_gets | intros srcs].
  apply keeps_bind; [apply keeps_forEach, stop_keeps_started | intros _].
  apply keeps_modify. intros st _ node []. 
Qed.

Lemma enqueue_keeps_started base64Audio t : keeps sources_started (enqueue base64Audio t).
Proof.
  intros st H.
  destruct (decoded base64Audio) as [b|e] eqn:Hdec.
  - destruct (Qle_bool 0 (Qmax (nextStartTime st) (currentTime t))) eqn:Hpos.
    + rewrite (enqueue_ok _ _ b) by (try apply Qle_bool_iff; assumption).
      intros x Hx. simpl in *. apply In_set_add in Hx as [->|Hx].
      * eexists. split; [apply list_lookup_middle; reflexivity | simpl; discriminate].
      * destruct (H x Hx) as (nx & Hnx & Hsx).
        exists nx. split; [apply lookup_app_l_Some, Hnx | exact Hsx].
    + unfold enqueue, bind, modify, lift, createBufferSource, gets, start.
      simpl. rewrite Hdec. simpl.
      rewrite list_lookup_middle by reflexivity. simpl. rewrite Hpos. simpl.
      intros x Hx. simpl in *.
      destruct (H x Hx) as (nx & Hnx & Hsx).
      exists nx. split; [apply lookup_app_l_Some, Hnx | exact Hsx].
  - rewrite (enqueue_throws _ _ e) by exact Hdec. exact H.
Qed.

Ltac keep_step :=
  lazymatch goal with
  | |- keeps _ (ret _) => apply keeps_ret
  | |- keeps _ (gets _) => apply keeps_gets
  | |- keeps _ (throw _) => apply keeps_throw
  | |- keeps _ (bind _ _) => apply keeps_bind; [|intros ?]
  | |- keeps _ (when _ _) => apply keeps_when
  | |- keeps _ (forEach _ _) => apply keeps_forEach; intros ?
  | |- keeps _ (modify (with_audioSources _)) => fail
  | |- keeps _ (modify _) => apply keeps_modify; intros ? ?; assumption
  | |- keeps _ (match ?x with _ => _ end) => destruct x
  | |- keeps _ (let _ := _ in _) => cbv zeta
  | |- keeps _ (unawaited _) => apply keeps_unawaited
  | |- keeps _ _ => solve [auto]
  end.

Lemma stopMic_keeps_started r : keeps sources_started (stopMic r).
Proof.
  pose proof stop_and_clear_keeps_started.
  unfold stopMic, stopLiveSession. repeat keep_step.
Qed.

Lemma onmessage_keeps_started m t : keeps sources_started (onmessage m t).
Proof.
  pose proof stop_and_clear_keeps_started.
  pose proof enqueue_keeps_started.
  unfold onmessage, interrupt. repeat keep_step.
Qed.

Lemma handler_keeps_started r ev : keeps sources_started (handler r ev).
Proof.
  pose proof (stopMic_keeps_started r).
  pose proof onmessage_keeps_started.
  destruct ev; simpl;
    unfold startMic, startMic_connected, startMic_failed, onaudioprocess,
      processAudioChunk, session_onmessage, transcription, onTranscription,
      onTurnComplete, onerror, onclose;
    repeat keep_step.
  apply keeps_modify. intros st Hst x Hx. simpl in *.
  apply Hst. unfold set_delete in Hx.
  apply list_elem_of_In, list_elem_of_filter in Hx as [_ Hx].
  apply list_elem_of_In, Hx.
Qed.

(** In every store the component reaches, the output context is set
    and every active source has been started. *)
Lemma reachable_invariant st :
  reachable st -> outputAudio st = true /\ sources_started st.
Proof.
  induction 1 as [history | st r ev _ [IH1 IH2]].
  - split; [reflexivity | intros node []].
  - split.
    + unfold dispatch. rewrite <- IH1.
      assert (Hp : preserves outputAudio (handler r ev)); [|apply Hp].
      pose proof (fun r => ltac:(unfold stopMic, stopLiveSession, stop_and_clear; preserve)
                  : preserves outputAudio (stopMic r)) as HstopMic.
      pose proof (fun m t => ltac:(unfold onmessage, enqueue, interrupt, stop_and_clear; preserve)
                  : preserves outputAudio (onmessage m t)) as Honmessage.
      destruct ev; simpl;
        unfold startMic, startMic_connected, startMic_failed, onaudioprocess,
          processAudioChunk, session_onmessage, transcription, onTranscription,
          onTurnComplete, onerror, onclose;
        preserve; auto.
    + apply handler_keeps_started, IH2.
Qed.

(** The playback clock is a sum of doubles, rounded at every step. *)
Lemma enqueue_keeps_clock base64Audio t :
  keeps clock_is_double (enqueue base64Audio t).
Proof.
  intros st [Hc Hd].
  destruct (Qmax_clock (nextStartTime st) t Hc Hd) as [Hm Hmd].
  destruct (decoded base64Audio) as [b|e] eqn:Hdec.
  - rewrite (enqueue_ok _ _ b st Hdec Hm).
    pose proof (decoded_duration_nonneg _ _ Hdec) as Hdur.
    split; simpl.
    + apply binary64_nonneg. lra.
    + apply binary64_idempotent. lra.
  - rewrite (enqueue_throws _ _ e st Hdec). split; assumption.
Qed.

Lemma stop_keeps_clock node : keeps clock_is_double (stop node).
Proof.
  intros st H. unfold stop.
  destruct (nodes st !! node) as [n|]; [|exact H].
  destruct (startedAt n); exact H.
Qed.

Lemma reset_keeps_clock :
  keeps clock_is_double (modify (with_nextStartTime (fun _ => 0%Q))).
Proof. intros st _. split; simpl; [lra | reflexivity]. Qed.

Ltac clock_step :=
  lazymatch goal with
  | |- keeps _ (ret _) => apply keeps_ret
  | |- keeps _ (gets _) => apply keeps_gets
  | |- keeps _ (throw _) => apply keeps_throw
  | |- keeps _ (bind _ _) => apply keeps_bind; [|intros ?]
  | |- keeps _ (when _ _) => apply keeps_when
  | |- keeps _ (forEach _ _) => apply keeps_forEach; intros ?
  | |- keeps _ (modify (with_nextStartTime _)) => apply reset_keeps_clock
  | |- keeps _ (modify _) => apply keeps_modify; intros ? ?; assumption
  | |- keeps _ (match ?x with _ => _ end) => destruct x
  | |- keeps _ (let _ := _ in _) => cbv zeta
  | |- keeps _ (unawaited _) => apply keeps_unawaited
  | |- keeps _ _ => solve [auto]
  end.

Lemma handler_keeps_clock r ev : keeps clock_is_double (handler r ev).
Proof.
  pose proof stop_keeps_clock.
  pose proof enqueue_keeps_clock.
  destruct ev; simpl;
    unfold startMic, startMic_connected, startMic_failed, onaudioprocess,
      processAudioChunk, session_onmessage, transcription, onTranscription,
      onTurnComplete, onerror, onclose, onmessage, interrupt, stopMic,
      stopLiveSession, stop_and_clear;
    repeat clock_step.
Qed.

(** In every store the component reaches, the playback clock holds a
    double that is not negative. *)
Lemma reachable_clock st : reachable st -> clock_is_double st.
Proof.
  induction 1 as [history | st r ev _ IH].
  - split; simpl; [lra | reflexivity].
  - apply handler_keeps_clock, IH.
Qed.

(** Adding a duration never moves a clock backwards. *)
Lemma clock_advances (c d : Q) :
  (0 <= c)%Q -> (IEEE.binary64 c == c)%Q -> (0 <= d)%Q ->
  (c <= IEEE.binary64 (c + d))%Q.
Proof.
  intros Hc Hd Hdur.
  pose proof (binary64_mono c (c + d) Hc ltac:(lra)). lra.
Qed.

(** What one rounded addition is off by, as an interval. *)
Lemma binary64_within (x : Q) :
  (x - IEEE.ulp x * (1 # 2) <= IEEE.binary64 x)%Q
  /\ (IEEE.binary64 x <= x + IEEE.ulp x * (1 # 2))%Q.
Proof.
  pose proof (binary64_error x) as H.
  apply Qabs_Qle_condition in H. unfold IEEE.ulp. lra.
Qed.

End SchedulerFacts.

Section InterruptFacts.
Import Chat.

(** Stopping started sources never throws, leaves every one of them
    stopped, and un-starts or un-stops no node. *)
Lemma forEach_stop_ok (srcs : list nat) : forall st,
  (forall node, In node srcs ->
     exists n, nodes st !! node = Some n /\ startedAt n <> None) ->
  exists nodes',
    forEach stop srcs st = (Ok tt, with_nodes (fun _ => nodes') st)
    /\ (forall node, In node srcs ->
          exists n, nodes' !! node = Some n /\ stopped n = true)
    /\ (forall node n, nodes st !! node = Some n ->
          exists n', nodes' !! node = Some n'
                     /\ (startedAt n <> None -> startedAt n' <> None)
                     /\ (stopped n = true -> stopped n' = true))
    /\ (srcs = [] -> nodes' = nodes st).
Proof.
  induction srcs as [|x srcs IH]; intros st Hstarted.
  - exists (nodes st). split; [|split; [|split]].
    + destruct st; reflexivity.
    + intros node [].
    + intros node n Hn. exists n. auto.
    + reflexivity.
  - destruct (Hstarted x (or_introl eq_refl)) as (nx & Hnx & Hsx).
    destruct (startedAt nx) as [tx|] eqn:Etx; [clear Hsx | congruence].
    set (nx' := {| buffer := buffer nx; startedAt := Some tx; stopped := true |}).
    set (st1 := with_nodes (fun ns => <[ x := nx' ]> ns) st).
    assert (Hstop : stop x st = (Ok tt, st1)).
    { unfold stop. rewrite Hnx, Etx. reflexivity. }
    assert (Hmono : forall node n, nodes st !! node = Some n ->
              exists n', nodes st1 !! node = Some n'
                         /\ (startedAt n <> None -> startedAt n' <> None)
                         /\ (stopped n = true -> stopped n' = true)).
    { intros node n Hn. simpl.
      destruct (Nat.eq_dec x node) as [->|Hne].
      - exists nx'. split; [|split].
        + apply list_lookup_insert_eq. eapply lookup_lt_Some, Hn.
        + intros _. discriminate.
        + reflexivity.
      - exists n. rewrite list_lookup_insert_ne by exact Hne. auto. }
    destruct (IH st1) as (nodes' & Hrun & Hstopped & Hkept & _).
    { intros node Hnode.
      destruct (Hstarted node (or_intror Hnode)) as (n & Hn & Hs).
      destruct (Hmono node n Hn) as (n' & Hn' & Hs' & _). eauto. }
    exists nodes'. split; [|split; [|split]]; [| | |discriminate].
    + simpl. unfold bind. rewrite Hstop, Hrun. destruct st; reflexivity.
    + intros node [<-|Hnode]; [|auto].
      destruct (Hmono x nx Hnx) as (n1 & Hn1 & _ & Hst1).
      assert (Hx1 : nodes st1 !! x = Some nx').
      { simpl. apply list_lookup_insert_eq. eapply lookup_lt_Some, Hnx. }
      destruct (Hkept x nx' Hx1) as (n2 & Hn2 & _ & Hst2).
      exists n2. split; [exact Hn2 | apply Hst2; reflexivity].
    + intros node n Hn.
      destruct (Hmono node n Hn) as (n1 & Hn1 & Hs1 & Hp1).
      destruct (Hkept node n1 Hn1) as (n2 & Hn2 & Hs2 & Hp2).
      exists n2. auto.
Qed.

Lemma stop_and_clear_ok (st : Store) :
  sources_started st ->
  exists nodes',
    stop_and_clear st
    = (Ok tt, {| hooks := hooks st; outputAudio := outputAudio st;
                 audioSources := []; nextStartTime := nextStartTime st;
                 nodes := nodes'; effects := effects st |})
    /\ (forall node, In node (audioSources st) ->
          exists n, nodes' !! node = Some n /\ stopped n = true)
    /\ (audioSources st = [] -> nodes' = nodes st).
Proof.
  intros Hst.
  destruct (forEach_stop_ok (audioSources st) st Hst)
    as (nodes' & Hrun & Hstopped & _ & Hnil).
  exists nodes'. split; [|split; [exact Hstopped | exact Hnil]].
  unfold stop_and_clear, bind, gets, modify. simpl. rewrite Hrun. reflexivity.
Qed.

Lemma interrupt_ok (st : Store) :
  sources_started st ->
  exists nodes',
    interrupt st
    = (Ok tt, {| hooks := hooks st; outputAudio := outputAudio st;
                 audioSources := []; nextStartTime := 0%Q;
                 nodes := nodes'; effects := effects st |})
    /\ (forall node, In node (audioSources st) ->
          exists n, nodes' !! node = Some n /\ stopped n = true).
Proof.
  intros Hst.
  destruct (stop_and_clear_ok st Hst) as (nodes' & Hrun & Hstopped & _).
  exists nodes'. split; [|exact Hstopped].
  unfold interrupt, bind, modify. rewrite Hrun. reflexivity.
Qed.

(** [stopMic] on a store whose active sources are all started. *)
Lemma stopMic_ok (r : Hooks) (st : Store) :
  sources_started st ->
  exists nodes',
    stopMic r st
    = (Ok tt, {| hooks := torn_down (hooks st); outputAudio := outputAudio st;
                 audioSources := []; nextStartTime := 0%Q;
                 nodes := nodes'; effects := effects st ++ release_calls r |})
    /\ (forall node, In node (audioSources st) ->
          exists n, nodes' !! node = Some n /\ stopped n = true)
    /\ (audioSources st = [] -> nodes' = nodes st).
Proof.
  intros Hst. unfold stopMic, stopLiveSession, release_calls.
  destruct (micStream r) as [stream|], (audioInputProcessor r) as [p|],
    (liveSession r) as [s|];
    unfold bind, modify, ret; simpl;
    match goal with
    | |- context [stop_and_clear ?st1] =>
        destruct (stop_and_clear_ok st1 Hst) as (nodes' & Hrun & Hstopped & Hnil);
        exists nodes'; rewrite Hrun; simpl;
        rewrite <- ?app_assoc, ?app_nil_r;
        (split; [reflexivity | split; [exact Hstopped | exact Hnil]])
    end.
Qed.

(** The transcription half of a message never throws and leaves the
    scheduler alone. *)
Lemma transcription_returns r m st : fst (transcription r m st) = Ok tt.
Proof.
  unfold transcription, onTranscription, onTurnComplete, bind, modify, when.
  destruct (outputTranscription m), (inputTranscription m), (turnComplete m);
    simpl; try reflexivity;
    destruct (truthy (currentInputTranscription r) || truthy (currentOutputTranscription r));
    reflexivity.
Qed.

Lemma transcription_preserves_playback r m :
  preserves playback (transcription r m).
Proof. unfold transcription, onTranscription, onTurnComplete. preserve. Qed.

Lemma transcription_preserves_effects r m :
  preserves effects (transcription r m).
Proof. unfold transcription, onTranscription, onTurnComplete. preserve. Qed.

Lemma transcription_preserves_session r m :
  preserves session_state (transcription r m).
Proof. unfold transcription, onTranscription, onTurnComplete. preserve. Qed.

Lemma dispatch_message r m t st :
  dispatch r (Message m t) st
  = snd (onmessage m t (snd (transcription r m st))).
Proof.
  unfold dispatch, handler, session_onmessage, unawaited, bind.
  pose proof (transcription_returns r m st) as H.
  destruct (transcription r m st) as [[[]|e] st0]; simpl in *; [reflexivity | discriminate].
Qed.

Lemma playback_fields st st' :
  playback st' = playback st ->
  outputAudio st' = outputAudio st /\ audioSources st' = audioSources st
  /\ nextStartTime st' = nextStartTime st /\ nodes st' = nodes st.
Proof. unfold playback. intros H. inversion H. auto. Qed.

Lemma inlineData_Some m p : inlineData m = Some p -> modelTurn m = Parts (Some p).
Proof.
  unfold inlineData. destruct (modelTurn m) as [| |d]; try discriminate.
  intros ->. reflexivity.
Qed.

(** With the [parts] of the model turn present, [onmessage] reads the
    audio payload without raising. *)
Lemma onmessage_with_parts m t st :
  modelTurn m <> WithoutParts ->
  onmessage m t st
  = (ready <- gets outputAudio ;;
     if negb ready then ret tt else
     match inlineData m with
     | Some base64Audio =>
         if String.eqb base64Audio EmptyString then ret tt else enqueue base64Audio t
     | None => ret tt
     end ;;
     when (interrupted m) interrupt)%chat st.
Proof.
  intros H. unfold onmessage, bind, gets, ret. simpl.
  destruct (outputAudio st); simpl; [|reflexivity].
  destruct (modelTurn m); [reflexivity | contradiction | reflexivity].
Qed.

(** Without them it raises before it has done anything. *)
Lemma onmessage_without_parts m t st :
  modelTurn m = WithoutParts -> snd (onmessage m t st) = st.
Proof.
  intros H. unfold onmessage, bind, gets, ret, throw. simpl.
  destruct (outputAudio st); simpl; [|reflexivity].
  rewrite H. reflexivity.
Qed.

(** A message that carries a decodable buffer and no interruption. *)
Lemma message_schedules r m t b st :
  outputAudio st = true -> carries m b -> interrupted m = false ->
  (0 <= Qmax (nextStartTime st) (currentTime t))%Q ->
  let st' := dispatch r (Message m t) st in
  outputAudio st' = true
  /\ nodes st' = nodes st ++ [{| buffer := b;
                                 startedAt := Some (Qmax (nextStartTime st) (currentTime t));
                                 stopped := false |}]
  /\ nextStartTime st'
     = IEEE.binary64 (Qmax (nextStartTime st) (currentTime t) + duration b)
  /\ audioSources st' = set_add (length (nodes st)) (audioSources st)
  /\ effects st' = effects st
  /\ session_state st' = session_state st.
Proof.
  intros Hready (p & Hp & Hne & Hdec) Hint Hpos. cbv zeta.
  rewrite dispatch_message.
  pose proof (transcription_preserves_playback r m st) as Hpb.
  pose proof (transcription_preserves_effects r m st) as Heff.
  pose proof (transcription_preserves_session r m st) as Hss.
  set (st0 := snd (transcription r m st)) in *.
  apply playback_fields in Hpb as (Hoa & Hsrc & Hnst & Hnodes).
  rewrite onmessage_with_parts by (rewrite (inlineData_Some m p Hp); discriminate).
  unfold bind, gets. simpl.
  rewrite Hoa, Hready, Hp. simpl.
  destruct (String.eqb_spec p EmptyString) as [->|_]; [congruence|].
  rewrite (enqueue_ok p t b st0 Hdec) by (rewrite Hnst; exact Hpos).
  rewrite Hint. simpl.
  rewrite Hoa, Hsrc, Hnst, Hnodes, Heff. repeat split; try reflexivity; assumption.
Qed.

(** A message whose payload does not decode. *)
Lemma message_undecodable r m t st :
  outputAudio st = true -> undecodable m ->
  let st' := dispatch r (Message m t) st in
  outputAudio st' = true
  /\ nodes st' = nodes st
  /\ nextStartTime st' = Qmax (nextStartTime st) (currentTime t)
  /\ audioSources st' = audioSources st
  /\ effects st' = effects st
  /\ session_state st' = session_state st.
Proof.
  intros Hready (p & Hp & Hne & Hdec). cbv zeta.
  rewrite dispatch_message.
  pose proof (transcription_preserves_playback r m st) as Hpb.
  pose proof (transcription_preserves_effects r m st) as Heff.
  pose proof (transcription_preserves_session r m st) as Hss.
  set (st0 := snd (transcription r m st)) in *.
  apply playback_fields in Hpb as (Hoa & Hsrc & Hnst & Hnodes).
  rewrite onmessage_with_parts by (rewrite (inlineData_Some m p Hp); discriminate).
  unfold bind, gets. simpl.
  rewrite Hoa, Hready, Hp. simpl.
  destruct (String.eqb_spec p EmptyString) as [->|_]; [congruence|].
  destruct (decoded p) as [b|e] eqn:Hd; [discriminate Hdec|].
  rewrite (enqueue_throws p t e st0 Hd). simpl.
  rewrite Hoa, Hsrc, Hnst, Hnodes, Heff. repeat split; try reflexivity; assumption.
Qed.

End InterruptFacts.

Section PlaybackFacts.
Import Chat.

Lemma carries_duration_nonneg m b : carries m b -> (0 <= duration b)%Q.
Proof. intros (p & _ & _ & Hdec). exact (decoded_duration_nonneg p b Hdec). Qed.

End PlaybackFacts.

(** C4.  Three messages, each carrying a decodable buffer, arrive in a
    row, the second and third before the playback clock set by the first
    has been passed.  Each buffer is started at the later of the playback
    clock and the device clock, and the playback clock then moves to the
    start plus the buffer's duration, rounded to a double as [+=] does.
    Every buffer therefore starts exactly where the clock put the end of
    the one before, in the order of arrival and never earlier than the
    one before.  The clock ends [d1 + d2 + d3] after the start of the
    first up to the rounding of the three additions, half a unit in the
    last place each, and exactly there when none of the three sums is
    rounded. *)
Theorem three_buffers_play_back_to_back
    (r : Chat.Hooks) (st : Chat.Store)
    (m1 m2 m3 : Chat.LiveServerMessage) (t1 t2 t3 : Q) (b1 b2 b3 : AudioBuffer)
    (Hst : Chat.reachable st)
    (Hb1 : Chat.carries m1 b1) (Hb2 : Chat.carries m2 b2) (Hb3 : Chat.carries m3 b3)
    (Hi1 : Chat.interrupted m1 = false) (Hi2 : Chat.interrupted m2 = false)
    (Hi3 : Chat.interrupted m3 = false)
    (Hearly2 : (Chat.currentTime t2
                <= IEEE.binary64 (Qmax (Chat.nextStartTime st) (Chat.currentTime t1)
                                  + duration b1))%Q)
    (Hearly3 : (Chat.currentTime t3
                <= IEEE.binary64 (Qmax (Chat.nextStartTime st) (Chat.currentTime t1)
                                  + duration b1))%Q) :
  let s1 := Qmax (Chat.nextStartTime st) (Chat.currentTime t1) in
  let st1 := Chat.dispatch r (Chat.Message m1 t1) st in
  let s2 := Qmax (Chat.nextStartTime st1) (Chat.currentTime t2) in
  let st2 := Chat.dispatch r (Chat.Message m2 t2) st1 in
  let s3 := Qmax (Chat.nextStartTime st2) (Chat.currentTime t3) in
  let st3 := Chat.dispatch r (Chat.Message m3 t3) st2 in
  Chat.nodes st3
  = Chat.nodes st
    ++ [ {| Chat.buffer := b1; Chat.startedAt := Some s1; Chat.stopped := false |};
         {| Chat.buffer := b2; Chat.startedAt := Some s2; Chat.stopped := false |};
         {| Chat.buffer := b3; Chat.startedAt := Some s3; Chat.stopped := false |} ]
  /\ Chat.nextStartTime st1 = IEEE.binary64 (s1 + duration b1)
  /\ Chat.nextStartTime st2 = IEEE.binary64 (s2 + duration b2)
  /\ Chat.nextStartTime st3 = IEEE.binary64 (s3 + duration b3)
  /\ (s2 == Chat.nextStartTime st1)%Q
  /\ (s3 == Chat.nextStartTime st2)%Q
  /\ (s1 <= s2)%Q /\ (s2 <= s3)%Q /\ (s3 <= Chat.nextStartTime st3)%Q
  /\ (Qabs (Chat.nextStartTime st3 - (s1 + (duration b1 + duration b2 + duration b3)))
      <= (IEEE.ulp (s1 + duration b1) + IEEE.ulp (s2 + duration b2)
          + IEEE.ulp (s3 + duration b3)) * (1 # 2))%Q
  /\ ((IEEE.binary64 (s1 + duration b1) == s1 + duration b1)%Q ->
      (IEEE.binary64 (s2 + duration b2) == s2 + duration b2)%Q ->
      (IEEE.binary64 (s3 + duration b3) == s3 + duration b3)%Q ->
      (Chat.nextStartTime st3 == s1 + (duration b1 + duration b2 + duration b3))%Q).
Proof.
  cbv zeta.
  destruct (reachable_invariant st Hst) as [Hready _].
  destruct (reachable_clock st Hst) as [Hc0 Hd0].
  pose proof (carries_duration_nonneg m1 b1 Hb1) as Hd1.
  pose proof (carries_duration_nonneg m2 b2 Hb2) as Hd2.
  pose proof (carries_duration_nonneg m3 b3 Hb3) as Hd3.
  destruct (Qmax_clock (Chat.nextStartTime st) t1 Hc0 Hd0) as [Hs1 Hs1d].
  destruct (message_schedules r m1 t1 b1 st Hready Hb1 Hi1 Hs1)
    as (Hready1 & Hn1 & Hc1 & _).
  set (st1 := Chat.dispatch r (Chat.Message m1 t1) st) in *.
  set (s1 := Qmax (Chat.nextStartTime st) (Chat.currentTime t1)) in *.
  pose proof (clock_advances s1 (duration b1) Hs1 Hs1d Hd1) as Hadv1.
  assert (Hs2 : (Qmax (Chat.nextStartTime st1) (Chat.currentTime t2)
                 == Chat.nextStartTime st1)%Q).
  { apply Q.max_l. rewrite Hc1. exact Hearly2. }
  set (s2 := Qmax (Chat.nextStartTime st1) (Chat.currentTime t2)) in *.
  assert (Hs2pos : (0 <= s2)%Q) by (rewrite Hs2, Hc1; lra).
  assert (Hs2d : (IEEE.binary64 s2 == s2)%Q).
  { rewrite (binary64_comp _ _ Hs2), Hs2, Hc1. apply binary64_idempotent. lra. }
  destruct (message_schedules r m2 t2 b2 st1 Hready1 Hb2 Hi2 Hs2pos)
    as (Hready2 & Hn2 & Hc2 & _).
  fold s2 in Hn2, Hc2.
  set (st2 := Chat.dispatch r (Chat.Message m2 t2) st1) in *.
  pose proof (clock_advances s2 (duration b2) Hs2pos Hs2d Hd2) as Hadv2.
  assert (Hs3 : (Qmax (Chat.nextStartTime st2) (Chat.currentTime t3)
                 == Chat.nextStartTime st2)%Q).
  { apply Q.max_l. rewrite Hc2.
    pose proof Hs2 as Hs2'. rewrite Hc1 in Hs2'. lra. }
  set (s3 := Qmax (Chat.nextStartTime st2) (Chat.currentTime t3)) in *.
  assert (Hs3pos : (0 <= s3)%Q) by (rewrite Hs3, Hc2; lra).
  assert (Hs3d : (IEEE.binary64 s3 == s3)%Q).
  { rewrite (binary64_comp _ _ Hs3), Hs3, Hc2. apply binary64_idempotent. lra. }
  destruct (message_schedules r m3 t3 b3 st2 Hready2 Hb3 Hi3 Hs3pos)
    as (_ & Hn3 & Hc3 & _).
  fold s3 in Hn3, Hc3.
  set (st3 := Chat.dispatch r (Chat.Message m3 t3) st2) in *.
  pose proof (clock_advances s3 (duration b3) Hs3pos Hs3d Hd3) as Hadv3.
  rewrite Hc1 in Hs2. rewrite Hc2 in Hs3.
  repeat split; try assumption.
  - rewrite Hn3, Hn2, Hn1, <- !app_assoc. reflexivity.
  - rewrite Hc1. exact Hs2.
  - rewrite Hc2. exact Hs3.
  - lra.
  - lra.
  - rewrite Hc3. exact Hadv3.
  - rewrite Hc3. apply Qabs_Qle_condition.
    pose proof (binary64_within (s1 + duration b1)) as [].
    pose proof (binary64_within (s2 + duration b2)) as [].
    pose proof (binary64_within (s3 + duration b3)) as [].
    split; lra.
  - intros He1 He2 He3. rewrite Hc3. lra.
Qed.

Lemma three_buffers_play_back_to_back_witness :
  let st := Chat.mounted [] in
  let r := Chat.hooks st in
  let m := Chat.audio_delta "AAAAAAAA" in
  let st1 := Chat.dispatch r (Chat.Message m 0) st in
  let st2 := Chat.dispatch r (Chat.Message m 0) st1 in
  let st3 := Chat.dispatch r (Chat.Message m (1 # 24000)) st2 in
  (Qmax (Chat.nextStartTime st1) (Chat.currentTime 0) == Chat.nextStartTime st1)%Q
  /\ (Qmax (Chat.nextStartTime st2) (Chat.currentTime (1 # 24000))
      == Chat.nextStartTime st2)%Q
  /\ (Qmax (Chat.nextStartTime st2) (Chat.currentTime (1 # 24000))
      <= Chat.nextStartTime st3)%Q.
Proof.
  assert (Hb : Chat.carries (Chat.audio_delta "AAAAAAAA") Chat.silence).
  { exists "AAAAAAAA"%string. split; [reflexivity | split; [discriminate | reflexivity]]. }
  assert (He2 : (Chat.currentTime 0
                 <= IEEE.binary64 (Qmax (Chat.nextStartTime (Chat.mounted []))
                                        (Chat.currentTime 0)
                                   + duration Chat.silence))%Q).
  { vm_compute. discriminate. }
  assert (He3 : (Chat.currentTime (1 # 24000)
                 <= IEEE.binary64 (Qmax (Chat.nextStartTime (Chat.mounted []))
                                        (Chat.currentTime 0)
                                   + duration Chat.silence))%Q).
  { vm_compute. discriminate. }
  destruct (three_buffers_play_back_to_back
              (Chat.hooks (Chat.mounted [])) (Chat.mounted [])
              (Chat.audio_delta "AAAAAAAA") (Chat.audio_delta "AAAAAAAA")
              (Chat.audio_delta "AAAAAAAA") 0 0 (1 # 24000)
              Chat.silence Chat.silence Chat.silence
              (Chat.reachable_mounted []) Hb Hb Hb eq_refl eq_refl eq_refl He2 He3)
    as (_ & _ & _ & _ & H2 & H3 & _ & _ & H4 & _).
  split; [exact H2 | split; [exact H3 | exact H4]].
Defined.

(** C4 as stated fails: three buffers of seven frames each, enqueued
    together on a fresh component.  Each lasts the double nearest to
    7/24000 s.  Enqueued at device time 0, the playback clock, rounded
    after each of the three additions, ends neither at three times that
    duration, nor at 21/24000 s, nor at the double nearest to 21/24000 s
    (it ends one unit in the last place above: 0.0008750000000000001 for
    0.000875).  Enqueued at device time 0.1, it ends neither at the start
    plus three times the duration, nor at the double nearest to that,
    nor at what [s1 + (d1 + d2 + d3)] evaluates to in doubles. *)
Lemma three_buffers_span_is_rounded :
  let st := Chat.mounted [] in
  let r := Chat.hooks st in
  let m := Chat.audio_delta "AAAAAAAAAAAAAAAAAAA=" in
  let at_0 := Chat.run r [Chat.Message m 0; Chat.Message m 0; Chat.Message m 0] st in
  let at_01 :=
    Chat.run r [Chat.Message m (1 # 10); Chat.Message m (1 # 10); Chat.Message m (1 # 10)]
             st in
  let s0 := Qmax (Chat.nextStartTime st) (Chat.currentTime 0) in
  let s1 := Qmax (Chat.nextStartTime st) (Chat.currentTime (1 # 10)) in
  exists b,
    Chat.carries m b /\ frames b = 7%nat
    /\ map Chat.buffer (Chat.nodes at_0) = [b; b; b]
    /\ map Chat.buffer (Chat.nodes at_01) = [b; b; b]
    /\ ~ (Chat.nextStartTime at_0 == s0 + (duration b + duration b + duration b))%Q
    /\ ~ (Chat.nextStartTime at_0 == s0 + (21 # 24000))%Q
    /\ ~ (Chat.nextStartTime at_0 == IEEE.binary64 (s0 + (21 # 24000)))%Q
    /\ ~ (Chat.nextStartTime at_01 == s1 + (duration b + duration b + duration b))%Q
    /\ ~ (Chat.nextStartTime at_01
          == IEEE.binary64 (s1 + (duration b + duration b + duration b)))%Q
    /\ ~ (Chat.nextStartTime at_01
          == IEEE.binary64
               (s1 + IEEE.binary64 (IEEE.binary64 (duration b + duration b)
                                    + duration b)))%Q.
Proof.
  cbv zeta.
  exists {| sampleRate := 24000;
            channels := [repeat (Fin (0 # 32768)) 7] |}.
  split; [|split; [reflexivity | split; [reflexivity | split; [reflexivity|]]]].
  - exists "AAAAAAAAAAAAAAAAAAA="%string.
    split; [reflexivity | split; [discriminate | reflexivity]].
  - repeat split; vm_compute; discriminate.
Qed.

Section InterruptionFacts.
Import Chat.

(** A message with the interrupted flag, on a store whose active
    sources are all started. *)
Lemma message_interrupts r m t st :
  outputAudio st = true -> sources_started st -> (0 <= nextStartTime st)%Q ->
  interrupted m = true -> audio_in_order m ->
  let st' := dispatch r (Message m t) st in
  outputAudio st' = true /\ audioSources st' = [] /\ nextStartTime st' = 0%Q
  /\ (forall node, In node (audioSources st) ->
        exists n, nodes st' !! node = Some n /\ stopped n = true).
Proof.
  intros Hready Hst Hclock Hint [Hparts Haudio]. cbv zeta.
  rewrite dispatch_message.
  pose proof (transcription_preserves_playback r m st) as Hpb.
  set (st0 := snd (transcription r m st)) in *.
  apply playback_fields in Hpb as (Hoa & Hsrc & Hnst & Hnodes).
  assert (Hst0 : sources_started st0) by (eapply sources_started_ext; eassumption).
  rewrite <- Hsrc.
  assert (Hplain : forall st1, outputAudio st1 = true -> sources_started st1 ->
            (forall node, In node (audioSources st0) -> In node (audioSources st1)) ->
            let st' := snd (interrupt st1) in
            outputAudio st' = true /\ audioSources st' = [] /\ nextStartTime st' = 0%Q
            /\ (forall node, In node (audioSources st0) ->
                  exists n, nodes st' !! node = Some n /\ stopped n = true)).
  { intros st1 Hr1 Hs1 Hsub. cbv zeta.
    destruct (interrupt_ok st1 Hs1) as (nodes' & Hrun & Hstopped).
    rewrite Hrun. simpl. repeat split; auto. }
  rewrite onmessage_with_parts by exact Hparts.
  unfold bind, gets. simpl. rewrite Hoa, Hready. simpl.
  destruct (inlineData m) as [p|].
  - destruct (String.eqb_spec p EmptyString) as [->|Hne].
    + simpl. rewrite Hint. simpl. apply Hplain; auto. congruence.
    + destruct Haudio as [->|Hdec]; [congruence|].
      destruct (decoded p) as [b|e] eqn:Hd; [|discriminate Hdec].
      pose proof (enqueue_keeps_started p t st0 Hst0) as Hkeep.
      pose proof (Q.le_max_l (nextStartTime st0) (currentTime t)) as Hmax.
      rewrite (enqueue_ok p t b st0 Hd) in * by (rewrite Hnst in *; lra).
      simpl in Hkeep. rewrite Hint. simpl.
      apply Hplain; [simpl; congruence | exact Hkeep |].
      intros node Hnode. simpl. apply In_set_add. right. exact Hnode.
  - simpl. rewrite Hint. simpl. apply Hplain; auto. congruence.
Qed.

(** A message whose model turn has no [parts]: the callback raises at
    [parts[0]], before the audio and before the interruption. *)
Lemma message_without_parts r m t st :
  modelTurn m = WithoutParts ->
  let st' := dispatch r (Message m t) st in
  playback st' = playback st /\ effects st' = effects st
  /\ session_state st' = session_state st.
Proof.
  intros Hparts. cbv zeta. rewrite dispatch_message.
  rewrite (onmessage_without_parts m t _ Hparts).
  split; [apply transcription_preserves_playback|].
  split; [apply transcription_preserves_effects | apply transcription_preserves_session].
Qed.

End InterruptionFacts.

(** C5.  The interruption is the last statement of the [onmessage]
    callback, after the audio of the same message.  When that audio does
    not decode, or the model turn of the message has no [parts], the
    callback has raised before it gets there: in every store the
    component reaches, such a message leaves every source in the active
    set as it was, playing or scheduled, the set as it was, and the
    playback clock where it was or at the device's current time if that
    is later, and not at zero unless it was there. *)
Theorem interruption_is_skipped_when_the_audio_fails
    (r : Chat.Hooks) (st : Chat.Store) (m : Chat.LiveServerMessage) (t : Q)
    (Hst : Chat.reachable st)
    (Hint : Chat.interrupted m = true)
    (Hfails : Chat.undecodable m \/ Chat.modelTurn m = Chat.WithoutParts) :
  let st' := Chat.dispatch r (Chat.Message m t) st in
  Chat.audioSources st' = Chat.audioSources st
  /\ Chat.nodes st' = Chat.nodes st
  /\ (Chat.nextStartTime st' = Chat.nextStartTime st
      \/ Chat.nextStartTime st'
         = Qmax (Chat.nextStartTime st) (Chat.currentTime t))
  /\ (Chat.nextStartTime st <= Chat.nextStartTime st')%Q
  /\ (forall node n,
        In node (Chat.audioSources st) -> Chat.nodes st !! node = Some n ->
        Chat.stopped n = false ->
        exists n', Chat.nodes st' !! node = Some n' /\ Chat.stopped n' = false).
Proof.
  cbv zeta.
  destruct (reachable_invariant st Hst) as [Hready _].
  assert (H : Chat.audioSources (Chat.dispatch r (Chat.Message m t) st)
              = Chat.audioSources st
              /\ Chat.nodes (Chat.dispatch r (Chat.Message m t) st) = Chat.nodes st
              /\ (Chat.nextStartTime (Chat.dispatch r (Chat.Message m t) st)
                  = Chat.nextStartTime st
                  \/ Chat.nextStartTime (Chat.dispatch r (Chat.Message m t) st)
                     = Qmax (Chat.nextStartTime st) (Chat.currentTime t))).
  { destruct Hfails as [Hbad | Hparts].
    - destruct (message_undecodable r m t st Hready Hbad)
        as (_ & Hnodes & Hclock & Hsrc & _). auto.
    - destruct (message_without_parts r m t st Hparts) as (Hpb & _).
      apply playback_fields in Hpb as (_ & Hsrc & Hclock & Hnodes). auto. }
  destruct H as (Hsrc & Hnodes & Hclock).
  split; [exact Hsrc | split; [exact Hnodes | split; [exact Hclock | split]]].
  - destruct Hclock as [-> | ->]; [apply Qle_refl | apply Q.le_max_l].
  - intros node n _ Hn Hplaying. exists n. rewrite Hnodes. auto.
Qed.

Lemma interruption_is_skipped_when_the_audio_fails_witness :
  let r := Chat.hooks (Chat.mounted []) in
  let st := Chat.run r [Chat.Message (Chat.audio_delta "AAAAAAAA") 0;
                        Chat.Message (Chat.audio_delta "AAAAAAAA") 0]
                     (Chat.mounted []) in
  let st' := Chat.dispatch r (Chat.Message (Chat.interruption_with "AAAA") (1 # 1000)) st in
  Chat.audioSources st = [0%nat; 1%nat]
  /\ Chat.audioSources st' = [0%nat; 1%nat]
  /\ map Chat.stopped (Chat.nodes st') = [false; false]
  /\ (0 < Chat.nextStartTime st')%Q.
Proof.
  assert (Hst : Chat.reachable
                  (Chat.run (Chat.hooks (Chat.mounted []))
                     [Chat.Message (Chat.audio_delta "AAAAAAAA") 0;
                      Chat.Message (Chat.audio_delta "AAAAAAAA") 0]
                     (Chat.mounted []))).
  { apply Chat.reachable_dispatch, Chat.reachable_dispatch, Chat.reachable_mounted. }
  assert (Hbad : Chat.undecodable (Chat.interruption_with "AAAA")).
  { exists "AAAA"%string. split; [reflexivity | split; [discriminate | reflexivity]]. }
  destruct (interruption_is_skipped_when_the_audio_fails
              (Chat.hooks (Chat.mounted [])) _ (Chat.interruption_with "AAAA") (1 # 1000)
              Hst eq_refl (or_introl Hbad)) as (Hsrc & Hnodes & _ & Hclock & _).
  cbv zeta. rewrite Hsrc, Hnodes.
  split; [reflexivity | split; [reflexivity | split; [reflexivity|]]].
  eapply Qlt_le_trans; [|exact Hclock]. vm_compute. reflexivity.
Defined.

(** C7.  From every store the component reaches, and whatever render
    its closure was created in, [stopMic] returns without throwing and
    leaves the voice session torn down: not listening, no stream,
    processor or session, both transcription accumulators empty, no
    active source, the playback clock at zero.  A further [stopMic]
    returns as well and changes nothing of that; called with nothing to
    release on an idle store, it changes nothing at all. *)
Theorem stopMic_is_idempotent
    (r : Chat.Hooks) (st : Chat.Store) (Hst : Chat.reachable st) :
  exists st',
    Chat.stopMic r st = (Ok tt, st')
    /\ Chat.idle st'
    /\ (forall r', exists st'',
          Chat.stopMic r' st' = (Ok tt, st'')
          /\ Chat.hooks st'' = Chat.hooks st'
          /\ Chat.playback st'' = Chat.playback st'
          /\ (Chat.no_session r' -> st'' = st'))
    /\ Chat.stopMic (Chat.hooks st') st' = (Ok tt, st')
    /\ (Chat.idle st -> Chat.no_session r -> st' = st).
Proof.
  destruct (reachable_invariant st Hst) as [_ Hstarted].
  destruct (stopMic_ok r st Hstarted) as (nodes' & Hrun & _ & Hnil).
  eexists. split; [exact Hrun|].
  assert (Hidle : forall h oa ns eff,
            Chat.idle {| Chat.hooks := Chat.torn_down h; Chat.outputAudio := oa;
                         Chat.audioSources := []; Chat.nextStartTime := 0%Q;
                         Chat.nodes := ns; Chat.effects := eff |}).
  { intros. repeat split. }
  assert (Hnoop : forall r' st1, Chat.idle st1 -> Chat.sources_started st1 ->
            Chat.no_session r' -> Chat.stopMic r' st1 = (Ok tt, st1)).
  { intros r' st1 (H1 & H2 & H3 & H4 & H5 & H6 & H7 & H8) Hs1 (Hm & Hp & Hs).
    destruct (stopMic_ok r' st1 Hs1) as (nodes1 & Hrun1 & _ & Hnil1).
    rewrite Hrun1. f_equal.
    unfold Chat.release_calls. rewrite Hm, Hp, Hs, (Hnil1 H7). simpl.
    rewrite app_nil_r.
    destruct st1 as [h oa srcs nst ns eff]. destruct h. simpl in *.
    subst. reflexivity. }
  assert (Hstarted' : forall h oa nst ns eff,
            Chat.sources_started {| Chat.hooks := h; Chat.outputAudio := oa;
                                    Chat.audioSources := []; Chat.nextStartTime := nst;
                                    Chat.nodes := ns; Chat.effects := eff |}).
  { intros h oa nst ns eff node []. }
  split; [apply Hidle|]. split; [|split].
  - intros r'.
    destruct (stopMic_ok r' _ (Hstarted' (Chat.torn_down (Chat.hooks st))
                                 (Chat.outputAudio st) 0%Q nodes'
                                 (Chat.effects st ++ Chat.release_calls r)))
      as (nodes1 & Hrun1 & _ & Hnil1).
    eexists. split; [exact Hrun1|]. simpl.
    rewrite (Hnil1 eq_refl). repeat split.
    intros (Hm & Hp & Hs). unfold Chat.release_calls. rewrite Hm, Hp, Hs. simpl.
    rewrite app_nil_r. reflexivity.
  - apply Hnoop; [apply Hidle | apply Hstarted' | repeat split].
  - intros Hi Hr. pose proof (Hnoop r st Hi Hstarted Hr) as Hsame.
    rewrite Hrun in Hsame. congruence.
Qed.

Lemma stopMic_is_idempotent_witness :
  let r := Chat.hooks (Chat.mounted []) in
  let st := Chat.run r [Chat.StartClicked (Some (1%nat, 2%nat)); Chat.Connected 3%nat;
                        Chat.Opened; Chat.Message (Chat.audio_delta "AAAAAAAA") 0]
                     (Chat.mounted []) in
  exists st', Chat.stopMic (Chat.hooks st) st = (Ok tt, st') /\ Chat.idle st'.
Proof.
  cbv zeta.
  destruct (stopMic_is_idempotent
              (Chat.hooks (Chat.run (Chat.hooks (Chat.mounted []))
                 [Chat.StartClicked (Some (1%nat, 2%nat)); Chat.Connected 3%nat;
                  Chat.Opened; Chat.Message (Chat.audio_delta "AAAAAAAA") 0]
                 (Chat.mounted [])))
              (Chat.run (Chat.hooks (Chat.mounted []))
                 [Chat.StartClicked (Some (1%nat, 2%nat)); Chat.Connected 3%nat;
                  Chat.Opened; Chat.Message (Chat.audio_delta "AAAAAAAA") 0]
                 (Chat.mounted [])))
    as (st' & Hrun & Hidle & _).
  - do 4 apply Chat.reachable_dispatch. apply Chat.reachable_mounted.
  - exists st'. split; [exact Hrun | exact Hidle].
Defined.

(** C9 (amended).  A message whose audio payload fails to decode
    rejects the promise of the [onmessage] callback, and nothing catches
    it.  The program writes no log entry and makes no call at all for
    it; nothing is scheduled; the session, the listening flag, the
    microphone and the error line are left as they were.  The component
    stays in a reachable store, and the next decodable buffer is
    scheduled as usual. *)
Theorem decode_failure_drops_the_audio
    (r : Chat.Hooks) (st : Chat.Store) (m : Chat.LiveServerMessage) (t : Q)
    (Hst : Chat.reachable st)
    (Hbad : Chat.undecodable m) :
  let st' := Chat.dispatch r (Chat.Message m t) st in
  Chat.console st' = Chat.console st
  /\ Chat.effects st' = Chat.effects st
  /\ Chat.session_state st' = Chat.session_state st
  /\ Chat.audioSources st' = Chat.audioSources st
  /\ Chat.nodes st' = Chat.nodes st
  /\ Chat.reachable st'
  /\ (forall m2 t2 b2,
        Chat.carries m2 b2 -> Chat.interrupted m2 = false -> (0 <= t2)%Q ->
        Chat.nodes (Chat.dispatch r (Chat.Message m2 t2) st')
        = Chat.nodes st'
          ++ [{| Chat.buffer := b2;
                 Chat.startedAt :=
                   Some (Qmax (Chat.nextStartTime st') (Chat.currentTime t2));
                 Chat.stopped := false |}]).
Proof.
  cbv zeta.
  destruct (reachable_invariant st Hst) as [Hready _].
  destruct (message_undecodable r m t st Hready Hbad)
    as (Hready' & Hnodes & _ & Hsrc & Heff & Hss).
  repeat split; try assumption.
  - unfold Chat.console. now rewrite Heff.
  - apply Chat.reachable_dispatch, Hst.
  - intros m2 t2 b2 Hb2 Hi2 Ht2.
    set (st' := Chat.dispatch r (Chat.Message m t) st) in *.
    pose proof (Q.le_max_r (Chat.nextStartTime st') (Chat.currentTime t2)) as Hmax.
    pose proof (currentTime_nonneg t2 Ht2) as Hnow.
    destruct (message_schedules r m2 t2 b2 st' Hready' Hb2 Hi2 ltac:(lra))
      as (_ & Hn & _).
    exact Hn.
Qed.

Lemma decode_failure_drops_the_audio_witness :
  let r := Chat.hooks (Chat.mounted []) in
  let st' := Chat.dispatch r (Chat.Message (Chat.audio_delta "AAAA") 0) (Chat.mounted []) in
  Chat.console st' = [] /\ Chat.session_state st' = Chat.session_state (Chat.mounted []).
Proof.
  assert (Hbad : Chat.undecodable (Chat.audio_delta "AAAA")).
  { exists "AAAA"%string. split; [reflexivity | split; [discriminate | reflexivity]]. }
  destruct (decode_failure_drops_the_audio
              (Chat.hooks (Chat.mounted [])) (Chat.mounted [])
              (Chat.audio_delta "AAAA") 0 (Chat.reachable_mounted []) Hbad)
    as (H1 & _ & H2 & _).
  split; [exact H1 | exact H2].
Defined.

(** C9 as stated fails: the three bytes of "AAAA" are no 16-bit PCM, and
    handling the message that carries them writes nothing to the
    console. *)
Lemma undecodable_delta_is_not_logged :
  Chat.undecodable (Chat.audio_delta "AAAA")
  /\ ~ (exists msg,
          In msg
             (Chat.console
                (Chat.dispatch (Chat.hooks (Chat.mounted []))
                   (Chat.Message (Chat.audio_delta "AAAA") 0) (Chat.mounted [])))).
Proof.
  split.
  - exists "AAAA"%string. split; [reflexivity | split; [discriminate | reflexivity]].
  - intros [msg H]. exact H.
Qed.

(** ** The framer: encoding and decoding again *)

Section Base64Facts.
Import Base64.

(** Induction over a list taken three elements at a time. *)
Lemma triple_induction {A} (P : list A -> Prop) :
  P [] -> (forall a, P [a]) -> (forall a b, P [a; b]) ->
  (forall a b c l, P l -> P (a :: b :: c :: l)) ->
  forall l, P l.
Proof.
  intros H0 H1 H2 H3 l.
  assert (H : P l /\ (forall a, P (a :: l)) /\ (forall a b, P (a :: b :: l)));
    [|exact (proj1 H)].
  induction l as [|x l (IH0 & IH1 & IH2)]; repeat split; auto.
Qed.

(** Each base64 digit stands for its own 6-bit value, is not the
    padding character and is not white space. *)
Lemma sextet_char_spec (s : Z) :
  is_sextet s ->
  char_sextet (sextet_char s) = Some s
  /\ Ascii.eqb (sextet_char s) pad = false
  /\ is_whitespace (sextet_char s) = false.
Proof.
  intros Hs. unfold is_sextet in Hs.
  rewrite <- (Z2Nat.id s) by lia.
  assert (Hk : (Z.to_nat s < 64)%nat) by lia.
  generalize dependent (Z.to_nat s). clear s Hs. intros k Hk.
  do 64 (destruct k as [|k]; [repeat split; reflexivity|]).
  lia.
Qed.

Lemma code_char (b : Z) : is_byte b -> code (char b) = b.
Proof.
  intros Hb. unfold code, char, is_byte in *.
  rewrite Z.mod_small by lia.
  rewrite N_ascii_embedding by lia. lia.
Qed.

Lemma sextets_range (bytes : list Z) :
  Forall is_byte bytes -> Forall is_sextet (sextets bytes).
Proof.
  unfold is_byte, is_sextet.
  induction bytes as [|a|a b|a b c rest IH] using triple_induction;
    intros H; simpl.
  - constructor.
  - inversion H as [|? ? Ha _]; subst.
    repeat constructor; Z.div_mod_to_equations; lia.
  - inversion H as [|? ? Ha H']; subst. inversion H' as [|? ? Hb _]; subst.
    repeat constructor; Z.div_mod_to_equations; lia.
  - inversion H as [|? ? Ha H']; subst. inversion H' as [|? ? Hb H'']; subst.
    inversion H'' as [|? ? Hc Hrest]; subst.
    repeat (constructor; [Z.div_mod_to_equations; lia|]). auto.
Qed.

Lemma bytes_of_sextets_sextets (bytes : list Z) :
  Forall is_byte bytes -> bytes_of_sextets (sextets bytes) = bytes.
Proof.
  unfold is_byte.
  induction bytes as [|a|a b|a b c rest IH] using triple_induction;
    intros H.
  - reflexivity.
  - inversion H as [|? ? Ha _]; subst. simpl.
    f_equal. Z.div_mod_to_equations. lia.
  - inversion H as [|? ? Ha H']; subst. inversion H' as [|? ? Hb _]; subst. simpl.
    f_equal; [|f_equal]; Z.div_mod_to_equations; lia.
  - inversion H as [|? ? Ha H']; subst. inversion H' as [|? ? Hb H'']; subst.
    inversion H'' as [|? ? Hc Hrest]; subst.
    change (sextets (a :: b :: c :: rest))
      with (a / 4 :: (a mod 4) * 16 + b / 16 :: (b mod 16) * 4 + c / 64
              :: c mod 64 :: sextets rest).
    change (bytes_of_sextets
              (a / 4 :: (a mod 4) * 16 + b / 16 :: (b mod 16) * 4 + c / 64
                 :: c mod 64 :: sextets rest))
      with ((a / 4) * 4 + ((a mod 4) * 16 + b / 16) / 16
            :: (((a mod 4) * 16 + b / 16) mod 16) * 16 + ((b mod 16) * 4 + c / 64) / 4
            :: (((b mod 16) * 4 + c / 64) mod 4) * 64 + c mod 64
            :: bytes_of_sextets (sextets rest)).
    rewrite IH by exact Hrest.
    f_equal; [|f_equal; [|f_equal]]; Z.div_mod_to_equations; lia.
Qed.

(** The digits and the padding add up to a multiple of four
    characters, and the digits alone never to one more than that. *)
Lemma sextets_length (bytes : list Z) :
  Z.of_nat (length (sextets bytes) + length (padding (length bytes))) mod 4 = 0
  /\ Z.of_nat (length (sextets bytes)) mod 4 <> 1.
Proof.
  induction bytes as [|a|a b|a b c rest [IH1 IH2]] using triple_induction.
  - split; [reflexivity | discriminate].
  - split; [reflexivity | discriminate].
  - split; [reflexivity | discriminate].
  - change (sextets (a :: b :: c :: rest))
      with (a / 4 :: (a mod 4) * 16 + b / 16 :: (b mod 16) * 4 + c / 64
              :: c mod 64 :: sextets rest).
    assert (Hpad : padding (length (a :: b :: c :: rest)) = padding (length rest)).
    { unfold padding. simpl length.
      replace (S (S (S (length rest)))) with (length rest + 1 * 3)%nat by lia.
      now rewrite Nat.Div0.mod_add. }
    rewrite Hpad. simpl length.
    split.
    + replace (Z.of_nat (S (S (S (S (length (sextets rest))))) + length (padding (length rest))))
        with (Z.of_nat (length (sextets rest) + length (padding (length rest))) + 1 * 4) by lia.
      rewrite Z.mod_add by lia. exact IH1.
    + replace (Z.of_nat (S (S (S (S (length (sextets rest)))))))
        with (Z.of_nat (length (sextets rest)) + 1 * 4) by lia.
      rewrite Z.mod_add by lia. exact IH2.
Qed.

Lemma padding_cases (n : nat) :
  padding n = [] \/ padding n = [pad] \/ padding n = [pad; pad].
Proof.
  unfold padding. destruct (n mod 3)%nat as [|[|[|k]]]; auto.
Qed.

(** Stripping the padding from digits followed by padding leaves the
    digits. *)
Lemma strip_padding_digits (cs ps : list ascii) :
  Forall (fun c => Ascii.eqb c pad = false) cs ->
  ps = [] \/ ps = [pad] \/ ps = [pad; pad] ->
  strip_padding (cs ++ ps) = cs.
Proof.
  intros Hcs Hps. unfold strip_padding.
  assert (Hrev : Forall (fun c => Ascii.eqb c pad = false) (rev cs)).
  { apply Forall_forall. intros c Hc. apply list_elem_of_In, in_rev in Hc.
    eapply Forall_forall in Hcs; [exact Hcs | apply list_elem_of_In, Hc]. }
  rewrite rev_app_distr.
  destruct Hps as [-> | [-> | ->]]; simpl.
  - rewrite app_nil_r.
    destruct (rev cs) as [|p [|q r]] eqn:E.
    + reflexivity.
    + inversion Hrev as [|? ? Hp _]; subst. rewrite Hp. reflexivity.
    + inversion Hrev as [|? ? Hp _]; subst. rewrite Hp. reflexivity.
  - destruct (rev cs) as [|q r] eqn:E.
    + simpl. apply (f_equal (@rev ascii)) in E. rewrite rev_involutive in E.
      now subst.
    + inversion Hrev as [|? ? Hq _]; subst. simpl. rewrite Hq.
      change (rev r ++ [q]) with (rev (q :: r)). rewrite <- E.
      apply rev_involutive.
  - apply rev_involutive.
Qed.

Lemma all_sextets_digits (ss : list Z) :
  Forall is_sextet ss -> all_sextets (map sextet_char ss) = Some ss.
Proof.
  induction 1 as [|s ss Hs _ IH]; simpl; [reflexivity|].
  destruct (sextet_char_spec s Hs) as (-> & _ & _). rewrite IH. reflexivity.
Qed.

(** [atob] undoes [btoa] on every binary string. *)
Lemma atob_btoa (bytes : list Z) :
  Forall is_byte bytes ->
  atob (btoa (string_of_list_ascii (map char bytes)))
  = Ok (string_of_list_ascii (map char bytes)).
Proof.
  intros Hbytes. unfold btoa, atob.
  rewrite !list_ascii_of_string_of_list_ascii.
  assert (Hcodes : map code (map char bytes) = bytes).
  { clear -Hbytes. induction Hbytes as [|b l Hb _ IH]; simpl; [reflexivity|].
    now rewrite code_char, IH. }
  rewrite Hcodes.
  pose proof (sextets_range bytes Hbytes) as Hrange.
  set (cs := map sextet_char (sextets bytes)).
  set (ps := padding (length bytes)).
  assert (Hdigits : Forall (fun c => Ascii.eqb c pad = false) cs).
  { subst cs. clear -Hrange. induction Hrange as [|s l Hs _ IH]; simpl; constructor.
    - apply (sextet_char_spec s Hs).
    - exact IH. }
  assert (Hws : filter (fun c => is_whitespace c = false) (cs ++ ps) = cs ++ ps).
  { assert (Hall : Forall (fun c => is_whitespace c = false) (cs ++ ps)).
    { apply Forall_app. split.
      - subst cs. clear -Hrange.
        induction Hrange as [|s l Hs _ IH]; simpl; constructor.
        + apply (sextet_char_spec s Hs).
        + exact IH.
      - subst ps. destruct (padding_cases (length bytes)) as [-> | [-> | ->]];
          repeat constructor. }
    clear -Hall. induction Hall as [|c l Hc _ IH]; [reflexivity|].
    rewrite filter_cons_True by exact Hc. now rewrite IH. }
  rewrite Hws.
  destruct (sextets_length bytes) as [Hlen4 Hlen1].
  assert (Hlen : Z.of_nat (length (cs ++ ps)) mod 4 = 0).
  { rewrite length_app. subst cs. rewrite length_map. exact Hlen4. }
  rewrite Hlen. simpl.
  rewrite strip_padding_digits by (auto; apply padding_cases).
  subst cs. rewrite length_map.
  destruct (Z.eqb_spec (Z.of_nat (length (sextets bytes)) mod 4) 1) as [H1|_];
    [contradiction|].
  rewrite all_sextets_digits by exact Hrange.
  rewrite bytes_of_sextets_sextets by exact Hbytes. reflexivity.
Qed.

(** [decode] undoes [encode]. *)
Lemma decode_encode (bytes : list Z) :
  Forall is_byte bytes -> decode (encode bytes) = Ok bytes.
Proof.
  intros Hbytes. unfold decode, encode.
  rewrite atob_btoa by exact Hbytes.
  rewrite list_ascii_of_string_of_list_ascii.
  f_equal. clear -Hbytes.
  induction Hbytes as [|b l Hb _ IH]; simpl; [reflexivity|].
  now rewrite code_char, IH.
Qed.

End Base64Facts.

Section RoundtripFacts.

Lemma wrap16_range (z : Z) : is_int16 (wrap16 z).
Proof.
  unfold is_int16, wrap16.
  pose proof (Z.mod_pos_bound z 65536 ltac:(lia)).
  destruct (Z.leb_spec 32768 (z mod 65536)); lia.
Qed.

Lemma wrap16_small (z : Z) : is_int16 z -> wrap16 z = z.
Proof.
  unfold is_int16, wrap16. intros Hz.
  destruct (Z.leb_spec 32768 (z mod 65536)); Z.div_mod_to_equations; lia.
Qed.

Lemma ToInt16_range (x : float) : is_int16 (ToInt16 x).
Proof. destruct x; simpl; [apply wrap16_range | unfold is_int16; lia]. Qed.

Lemma int16_bytes_range (v : Z) : Forall is_byte (int16_bytes v).
Proof.
  unfold int16_bytes, is_byte.
  repeat constructor; Z.div_mod_to_equations; lia.
Qed.

Lemma Uint8Array_of_Int16_range (int16 : list Z) :
  Forall is_byte (Uint8Array_of_Int16 int16).
Proof.
  unfold Uint8Array_of_Int16.
  induction int16 as [|v l IH]; simpl; [constructor|].
  pose proof (int16_bytes_range v) as Hv. unfold int16_bytes in *.
  inversion Hv as [|? ? H1 Hv']; subst. inversion Hv' as [|? ? H2 _]; subst.
  constructor; [exact H1 | constructor; [exact H2 | exact IH]].
Qed.

(** Reading the bytes of an Int16Array back as an Int16Array. *)
Lemma Int16Array_of_Uint8Array (int16 : list Z) :
  Forall is_int16 int16 ->
  Int16Array_of_bytes (Uint8Array_of_Int16 int16) = Ok int16.
Proof.
  unfold Uint8Array_of_Int16.
  induction 1 as [|v l Hv _ IH]; [reflexivity|].
  simpl. rewrite IH. f_equal. f_equal.
  unfold is_int16, wrap16 in *.
  destruct (Z.leb_spec 32768 ((v mod 65536 mod 256 + 256 * (v mod 65536 / 256)) mod 65536));
    Z.div_mod_to_equations; lia.
Qed.

(** Storing [f 0 .. f (n-1)] at the indices [0 .. n-1] of an array of
    length [n]. *)
Lemma foldl_insert_seq {A} (f : nat -> A) (k : nat) : forall (cd : list A),
  (k <= length cd)%nat ->
  foldl (fun cd i => <[ i := f i ]> cd) cd (seq 0 k) = map f (seq 0 k) ++ drop k cd.
Proof.
  induction k as [|k IH]; intros cd Hk.
  - simpl. now rewrite drop_0.
  - rewrite seq_S, foldl_app, map_app. simpl.
    rewrite IH by lia.
    rewrite insert_app_r_alt by (rewrite length_map, length_seq; lia).
    rewrite length_map, length_seq, Nat.sub_diag, <- app_assoc. f_equal.
    destruct (drop k cd) as [|y rest] eqn:E.
    + apply (f_equal length) in E. rewrite length_drop in E. simpl in E. lia.
    + simpl. f_equal.
      assert (H : drop 1 (drop k cd) = rest) by (rewrite E; apply drop_0).
      rewrite drop_drop in H. rewrite <- H. f_equal. lia.
Qed.

(** With one channel nothing is de-interleaved: sample [i] of the
    channel is element [i] of the Int16Array over 32768. *)
Lemma decodeAudioData_mono (int16 : list Z) (rate : Q) :
  Forall is_int16 int16 -> int16 <> [] ->
  decodeAudioData (Uint8Array_of_Int16 int16) rate 1
  = Ok {| sampleRate := rate;
          channels := [map (fun v => Fin (inject_Z v / 32768)) int16] |}.
Proof.
  intros Hrange Hne. unfold decodeAudioData.
  rewrite Int16Array_of_Uint8Array by exact Hrange.
  assert (Hlen : (1 <= length int16)%nat) by (destruct int16; [congruence | simpl; lia]).
  rewrite (createBuffer_spec 1 (length int16) rate) by (unfold maxChannels; lia).
  destruct (Nat.ltb_spec (length int16) 1); [lia|].
  change (inject_Z (Z.of_nat 1)) with (inject_Z 1).
  rewrite Qceiling_div_1, Nat2Z.id, Nat.div_1_r. simpl.
  f_equal. f_equal. unfold fill_channels. simpl. f_equal. unfold fill_channel.
  rewrite foldl_insert_seq by (rewrite length_replicate; lia).
  rewrite drop_ge by (rewrite length_replicate; lia).
  rewrite app_nil_r.
  apply list_eq. intros i.
  rewrite !list_lookup_fmap.
  destruct (decide (i < length int16)%nat) as [Hi|Hi].
  - rewrite lookup_seq_lt by exact Hi. simpl.
    unfold sample_at. rewrite Nat.mul_1_r, Nat.add_0_r.
    destruct (lookup_lt_is_Some_2 int16 i Hi) as [v Hv]. rewrite Hv. reflexivity.
  - rewrite lookup_seq_ge by lia.
    rewrite lookup_ge_None_2 by lia. reflexivity.
Qed.

(** Encoding a frame and decoding it again requantizes each sample. *)
Lemma roundtrip_requantizes (samples : list float) (rate : Q) :
  samples <> [] ->
  roundtrip samples rate
  = Ok {| sampleRate := rate; channels := [map requantized samples] |}.
Proof.
  intros Hne. unfold roundtrip, createBlob. cbn [data].
  rewrite decode_encode by apply Uint8Array_of_Int16_range.
  rewrite decodeAudioData_mono.
  - rewrite map_map. reflexivity.
  - apply Forall_forall. intros v Hv.
    apply list_elem_of_In, in_map_iff in Hv as (x & <- & _). apply ToInt16_range.
  - destruct samples; [congruence | discriminate].
Qed.

End RoundtripFacts.

Section QuantizationFacts.

Lemma map_replicate {A B} (f : A -> B) (n : nat) (x : A) :
  map f (replicate n x) = replicate n (f x).
Proof. induction n as [|n IH]; simpl; [reflexivity | now rewrite IH]. Qed.

(** A sample of [-1, 1) comes back within one 16-bit step. *)
Lemma requantized_close (q : Q) :
  (-1 <= q)%Q -> (q < 1)%Q ->
  exists q', requantized (Fin q) = Fin q' /\ (Qabs (q' - q) < 1 # 32768)%Q.
Proof.
  intros Hlo Hhi. unfold requantized, fmul, ToInt16.
  eexists. split; [reflexivity|].
  destruct q as [a p]. unfold Qle, Qlt in Hlo, Hhi. simpl in Hlo, Hhi.
  assert (Htrunc : Qtrunc ((a # p) * inject_Z 32768) = Z.quot (a * 32768) (Z.pos p)).
  { unfold Qtrunc, Qmult, inject_Z. simpl. now rewrite Pos.mul_1_r. }
  rewrite Htrunc.
  set (T := Z.quot (a * 32768) (Z.pos p)).
  assert (HT : a * 32768 = Z.pos p * T + Z.rem (a * 32768) (Z.pos p))
    by (apply Z.quot_rem'; lia).
  assert (Hrem : Z.abs (Z.rem (a * 32768) (Z.pos p)) < Z.pos p).
  { pose proof (Z.rem_bound_abs (a * 32768) (Z.pos p) ltac:(lia)). lia. }
  assert (Hsign : 0 <= Z.rem (a * 32768) (Z.pos p) * (a * 32768))
    by (apply Z.rem_sign_mul; lia).
  assert (Hrange : is_int16 T).
  { unfold is_int16. nia. }
  rewrite (wrap16_small T Hrange).
  apply Qabs_Qlt_condition.
  unfold Qlt, Qminus, Qplus, Qopp, Qdiv, Qmult, Qinv, inject_Z. simpl.
  rewrite ?Pos2Z.inj_mul. nia.
Qed.

(** Away from full positive scale the round trip is exact to the
    16-bit step: every sample of [-1, 1) is reproduced to within
    [1/32768]. *)
Lemma roundtrip_within_quantum (samples : list float) (rate : Q) :
  samples <> [] ->
  Forall (fun x => exists q, x = Fin q /\ (-1 <= q)%Q /\ (q < 1)%Q) samples ->
  exists ys,
    roundtrip samples rate = Ok {| sampleRate := rate; channels := [ys] |}
    /\ length ys = length samples
    /\ forall i q, samples !! i = Some (Fin q) ->
         exists q', ys !! i = Some (Fin q') /\ (Qabs (q' - q) < 1 # 32768)%Q.
Proof.
  intros Hne Hvalid.
  exists (map requantized samples).
  split; [apply roundtrip_requantizes, Hne|].
  split; [apply length_map|].
  intros i q Hi.
  assert (Hin : exists q0, Fin q = Fin q0 /\ (-1 <= q0)%Q /\ (q0 < 1)%Q).
  { eapply Forall_forall in Hvalid; [exact Hvalid|].
    eapply list_elem_of_lookup_2, Hi. }
  destruct Hin as (q0 & Heq & Hlo & Hhi). inversion Heq; subst q0.
  destruct (requantized_close q Hlo Hhi) as (q' & Hq' & Hclose).
  exists q'. split; [|exact Hclose].
  change (map requantized samples) with (requantized <$> samples).
  rewrite list_lookup_fmap, Hi. simpl. now rewrite Hq'.
Qed.

End QuantizationFacts.

(** C1 (as the code behaves).  A frame of 4096 samples at full positive
    scale, each of them 1.0 and so within [-1.0, 1.0], is encoded and
    decoded again.  The result has 4096 samples, each of them -1.0: the
    product 32768 does not fit 16 bits and wraps to -32768.  The
    distance from the original is 2, not 1/32768. *)
Theorem full_scale_sample_wraps :
  let frame := replicate 4096 (Fin 1) in
  Forall (fun x => exists q, x = Fin q /\ (-1 <= q)%Q /\ (q <= 1)%Q) frame
  /\ roundtrip frame 24000
     = Ok {| sampleRate := 24000;
             channels := [replicate 4096 (Fin (-32768 # 32768))] |}
  /\ ~ (Qabs ((-32768 # 32768) - 1) <= 1 # 32768)%Q.
Proof.
  cbv zeta. split; [|split].
  - apply Forall_replicate.
    exists 1%Q. split; [reflexivity | split; discriminate].
  - rewrite roundtrip_requantizes by discriminate.
    rewrite map_replicate. reflexivity.
  - intros H. vm_compute in H. apply H. reflexivity.
Qed.

(* ================================================================== *)
(** * Part III: further properties of the same code                    *)
(* ================================================================== *)

(** ** [encode] and [decode] *)

Section EncodeFacts.
Import Base64.

Lemma code_char_byte (b : Z) : is_byte (code (char b)).
Proof.
unfold code, char, is_byte.
pose proof (Z.mod_pos_bound b 256 ltac:(lia)).
rewrite N_ascii_embedding by lia. lia.
Qed.

Lemma codes_are_bytes (bytes : list Z) : Forall is_byte (map code (map char bytes)).
Proof.
induction bytes as [|b l IH]; simpl; constructor; [apply code_char_byte | exact IH].
Qed.

Lemma sextet_char_in_alphabet (s : Z) : is_sextet s -> In (sextet_char s) alphabet.
Proof.
intros Hs. unfold sextet_char, is_sextet in *.
apply nth_In. change (length alphabet) with 64%nat. lia.
Qed.

(** Digits and padding together: four characters for every three bytes,
    the last group rounded up. *)
Lemma encoded_length (bytes : list Z) :
  (length (sextets bytes) + length (padding (length bytes))
   = 4 * ((length bytes + 2) / 3))%nat.
Proof.
induction bytes as [|a|a b|a b c rest IH] using triple_induction.
- reflexivity.
- reflexivity.
- reflexivity.
- change (sextets (a :: b :: c :: rest))
    with (a / 4 :: (a mod 4) * 16 + b / 16 :: (b mod 16) * 4 + c / 64
            :: c mod 64 :: sextets rest).
  assert (Hpad : padding (length (a :: b :: c :: rest)) = padding (length rest)).
  { unfold padding. simpl length.
    replace (S (S (S (length rest)))) with (length rest + 1 * 3)%nat by lia.
    now rewrite Nat.Div0.mod_add. }
  rewrite Hpad. simpl length.
  replace (S (S (S (length rest))) + 2)%nat with (length rest + 2 + 1 * 3)%nat by lia.
  rewrite Nat.div_add by lia. lia.
Qed.

End EncodeFacts.

(** X1.  [decode] undoes [encode]: every byte array comes back from its
    base64 text unchanged. *)
Theorem decode_after_encode (bytes : list Z) (Hbytes : Forall is_byte bytes) :
  decode (encode bytes) = Ok bytes.
Proof. apply decode_encode, Hbytes. Qed.

Lemma decode_after_encode_witness :
  encode [72; 105; 33; 255] = "SGkh/w=="%string
  /\ decode (encode [72; 105; 33; 255]) = Ok [72; 105; 33; 255].
Proof.
split; [reflexivity|].
apply decode_after_encode.
repeat constructor; unfold is_byte; lia.
Defined.

(** X2.  The text [encode] produces is transport-safe and of a known
    size: four characters for every three bytes (the last group rounded
    up), each a base64 digit or the padding sign. *)
Theorem encode_is_base64_text (bytes : list Z) :
  let text_ := list_ascii_of_string (encode bytes) in
  length text_ = (4 * ((length bytes + 2) / 3))%nat
  /\ Forall (fun c => In c Base64.alphabet \/ c = Base64.pad) text_.
Proof.
cbv zeta. unfold encode, Base64.btoa.
rewrite !list_ascii_of_string_of_list_ascii.
set (bs := map Base64.code (map Base64.char bytes)).
assert (Hlen : length bs = length bytes) by (subst bs; now rewrite !length_map).
split.
- rewrite length_app, length_map, encoded_length, Hlen. reflexivity.
- apply Forall_app. split.
  + pose proof (sextets_range bs (codes_are_bytes bytes)) as Hrange.
    induction Hrange as [|s l Hs _ IH]; simpl; constructor.
    * left. apply sextet_char_in_alphabet, Hs.
    * exact IH.
  + destruct (Base64.padding (length bs)) as [|p l] eqn:E; [constructor|].
    destruct (padding_cases (length bs)) as [H | [H | H]]; rewrite H in E;
      inversion E; subst;
      repeat (apply List.Forall_cons; [right; reflexivity|]); apply List.Forall_nil.
Qed.

Section DecodeRejects.
Import Base64.

Lemma index_of_None (c : ascii) (l : list ascii) : forall i,
  ~ In c l -> index_of c l i = None.
Proof.
induction l as [|x l IH]; intros i Hc; simpl; [reflexivity|].
destruct (Ascii.eqb_spec x c) as [->|Hne].
- exfalso. apply Hc. left. reflexivity.
- apply IH. intros H. apply Hc. right. exact H.
Qed.

Lemma all_sextets_None (c : ascii) (l : list ascii) :
  In c l -> ~ In c alphabet -> all_sextets l = None.
Proof.
intros Hin Hc. induction l as [|x l IH]; [destruct Hin|].
simpl. destruct Hin as [->|Hin].
- unfold char_sextet. now rewrite index_of_None.
- rewrite (IH Hin). now destruct (char_sextet x).
Qed.

(** Stripping the padding only takes padding signs from the end. *)
Lemma strip_padding_keeps (c : ascii) (l : list ascii) :
  In c l -> c <> pad -> In c (strip_padding l).
Proof.
intros Hin Hc. unfold strip_padding.
assert (Hrev : In c (rev l)) by (apply in_rev; now rewrite rev_involutive).
destruct (rev l) as [|p [|q r]]; [exact Hin | |].
- destruct (Ascii.eqb_spec p pad) as [->|_]; [|exact Hin].
  destruct Hrev as [<-|[]]. congruence.
- destruct (Ascii.eqb_spec p pad) as [->|_]; [|exact Hin].
  destruct Hrev as [<-|Hrev]; [congruence|].
  destruct (Ascii.eqb_spec q pad) as [->|_].
  + destruct Hrev as [<-|Hrev]; [congruence|]. apply in_rev in Hrev. exact Hrev.
  + apply in_rev in Hrev. exact Hrev.
Qed.

End DecodeRejects.

(** X3.  [decode] never lets a foreign character through: text that
    holds a character which is neither a base64 digit, nor the padding
    sign, nor ASCII white space is refused with an
    [InvalidCharacterError], wherever the character stands. *)
Theorem decode_rejects_foreign_characters (base64 : string) (c : ascii)
    (Hin : In c (list_ascii_of_string base64))
    (Hdigit : ~ In c Base64.alphabet)
    (Hpad : c <> Base64.pad)
    (Hspace : Base64.is_whitespace c = false) :
  decode base64 = Throw InvalidCharacterError.
Proof.
unfold decode, Base64.atob.
set (d0 := filter (fun c => Base64.is_whitespace c = false) (list_ascii_of_string base64)).
assert (H0 : In c d0).
{ subst d0. apply list_elem_of_In, list_elem_of_filter.
  split; [exact Hspace | apply list_elem_of_In, Hin]. }
set (d1 := if Z.of_nat (length d0) mod 4 =? 0 then Base64.strip_padding d0 else d0).
assert (H1 : In c d1).
{ subst d1. destruct (Z.of_nat (length d0) mod 4 =? 0); [|exact H0].
  apply strip_padding_keeps; assumption. }
destruct (Z.of_nat (length d1) mod 4 =? 1); [reflexivity|].
now rewrite (all_sextets_None c d1 H1 Hdigit).
Qed.

Lemma decode_rejects_foreign_characters_witness :
  decode "AA!A" = Throw InvalidCharacterError.
Proof.
apply (decode_rejects_foreign_characters "AA!A" "!"%char).
- simpl. tauto.
- unfold Base64.alphabet. simpl. intros H.
  repeat (destruct H as [H|H]; [discriminate H|]). exact H.
- discriminate.
- reflexivity.
Defined.

(** ** [createBlob] and [decodeAudioData] *)

Section TowardZero.

(** Truncation is towards zero: the decoded sample lies between zero and
    the original. *)
Lemma requantized_between (q : Q) :
  (-1 <= q)%Q -> (q < 1)%Q ->
  exists q', requantized (Fin q) = Fin q'
             /\ (Qabs (q' - q) < 1 # 32768)%Q
             /\ ((0 <= q)%Q -> (0 <= q')%Q /\ (q' <= q)%Q)
             /\ ((q <= 0)%Q -> (q <= q')%Q /\ (q' <= 0)%Q).
Proof.
intros Hlo Hhi.
destruct (requantized_close q Hlo Hhi) as (q' & Hq' & Hclose).
exists q'. split; [exact Hq'|]. split; [exact Hclose|].
unfold requantized, fmul, ToInt16 in Hq'. inversion Hq' as [Hq'']. clear Hq' Hclose.
destruct q as [a p]. unfold Qle, Qlt in Hlo, Hhi. simpl in Hlo, Hhi.
assert (Htrunc : Qtrunc ((a # p) * inject_Z 32768) = Z.quot (a * 32768) (Z.pos p)).
{ unfold Qtrunc, Qmult, inject_Z. simpl. now rewrite Pos.mul_1_r. }
rewrite Htrunc.
set (T := Z.quot (a * 32768) (Z.pos p)).
assert (HT : a * 32768 = Z.pos p * T + Z.rem (a * 32768) (Z.pos p))
  by (apply Z.quot_rem'; lia).
assert (Hrem : Z.abs (Z.rem (a * 32768) (Z.pos p)) < Z.pos p).
{ pose proof (Z.rem_bound_abs (a * 32768) (Z.pos p) ltac:(lia)). lia. }
assert (Hsign : 0 <= Z.rem (a * 32768) (Z.pos p) * (a * 32768))
  by (apply Z.rem_sign_mul; lia).
assert (Hrange : is_int16 T) by (unfold is_int16; nia).
rewrite (wrap16_small T Hrange).
assert (Hpos : 0 <= a -> 0 <= T /\ Z.pos p * T <= a * 32768).
{ intros Ha. split.
  - apply Z.quot_pos; lia.
  - apply Z.mul_quot_le; lia. }
assert (Hneg : a <= 0 -> T <= 0 /\ a * 32768 <= Z.pos p * T).
{ intros Ha.
  assert (Hr : Z.rem (a * 32768) (Z.pos p) <= 0).
  { destruct (Z.eq_dec a 0) as [->|Hnz]; [simpl; rewrite Z.rem_0_l; lia | nia]. }
  split; nia. }
split; intros Hq; unfold Qle in Hq; simpl in Hq;
  unfold Qle, Qdiv, Qmult, Qinv, inject_Z; simpl;
  rewrite ?Pos2Z.inj_mul; split; lia.
Qed.

End TowardZero.

(** X4.  Below full positive scale, sending a frame through [createBlob]
    and back through [decode] and [decodeAudioData] loses less than one
    16-bit step per sample, and always towards zero: each decoded sample
    lies between zero and the sample it came from. *)
Theorem framing_truncates_toward_zero (samples : list float) (rate : Q)
    (Hne : samples <> [])
    (Hvalid : Forall (fun x => exists q, x = Fin q /\ (-1 <= q)%Q /\ (q < 1)%Q) samples) :
  exists ys,
    roundtrip samples rate = Ok {| sampleRate := rate; channels := [ys] |}
    /\ length ys = length samples
    /\ forall i q, samples !! i = Some (Fin q) ->
         exists q', ys !! i = Some (Fin q')
                    /\ (Qabs (q' - q) < 1 # 32768)%Q
                    /\ ((0 <= q)%Q -> (0 <= q')%Q /\ (q' <= q)%Q)
                    /\ ((q <= 0)%Q -> (q <= q')%Q /\ (q' <= 0)%Q).
Proof.
exists (map requantized samples).
split; [apply roundtrip_requantizes, Hne|].
split; [apply length_map|].
intros i q Hi.
assert (Hin : exists q0, Fin q = Fin q0 /\ (-1 <= q0)%Q /\ (q0 < 1)%Q).
{ eapply Forall_forall in Hvalid; [exact Hvalid|].
  eapply list_elem_of_lookup_2, Hi. }
destruct Hin as (q0 & Heq & Hlo & Hhi). inversion Heq; subst q0.
destruct (requantized_between q Hlo Hhi) as (q' & Hq' & Hrest).
exists q'. split; [|exact Hrest].
change (map requantized samples) with (requantized <$> samples).
rewrite list_lookup_fmap, Hi. simpl. now rewrite Hq'.
Qed.

Lemma framing_truncates_toward_zero_witness :
  exists ys,
    roundtrip [Fin (1 # 3); Fin (- (1 # 3))] 24000
    = Ok {| sampleRate := 24000; channels := [ys] |}
    /\ length ys = 2%nat.
Proof.
destruct (framing_truncates_toward_zero [Fin (1 # 3); Fin (- (1 # 3))] 24000)
  as (ys & Hrun & Hlen & _).
- discriminate.
- repeat constructor.
  + exists (1 # 3)%Q. split; [reflexivity | split; [discriminate | reflexivity]].
  + exists (- (1 # 3))%Q. split; [reflexivity | split; [discriminate | reflexivity]].
- exists ys. split; [exact Hrun | exact Hlen].
Defined.

Section DeinterleaveFacts.

Lemma Int16Array_of_bytes_range (bytes : list Z) (l : list Z) :
  Int16Array_of_bytes bytes = Ok l -> Forall is_int16 l.
Proof.
revert l.
induction bytes as [|x|lo hi rest IH] using pair_induction; intros l H; simpl in H.
- inversion H. constructor.
- discriminate.
- destruct (Int16Array_of_bytes rest) as [l'|e]; [|discriminate].
  inversion H; subst. constructor; [apply wrap16_range | apply IH; reflexivity].
Qed.

(** Stores past the end of the array are lost: running the loop beyond
    the length of the channel changes nothing more. *)
Lemma foldl_insert_seq_past {A} (f : nat -> A) (cd : list A) (k : nat) :
  (length cd <= k)%nat ->
  foldl (fun cd i => <[ i := f i ]> cd) cd (seq 0 k) = map f (seq 0 (length cd)).
Proof.
intros Hk.
replace k with (length cd + (k - length cd))%nat by lia.
generalize (k - length cd)%nat as j. intros j.
induction j as [|j IH].
- rewrite Nat.add_0_r, foldl_insert_seq by lia.
  rewrite drop_ge by lia. apply app_nil_r.
- rewrite Nat.add_succ_r, seq_S, foldl_app, IH. simpl.
  apply list_insert_ge. rewrite length_map, length_seq. lia.
Qed.

(** The outer loop visits every channel of the fresh buffer once. *)
Lemma foldl_channels_seq {A} (g : nat -> A -> A) (z : A) (n k : nat) :
  (k <= n)%nat ->
  foldl (fun cs c => match cs !! c with
                     | Some cd => <[ c := g c cd ]> cs
                     | None => cs
                     end) (replicate n z) (seq 0 k)
  = map (fun c => g c z) (seq 0 k) ++ replicate (n - k) z.
Proof.
induction k as [|k IH]; intros Hk.
- simpl. now rewrite Nat.sub_0_r.
- rewrite seq_S, foldl_app, IH by lia. simpl.
  assert (Hlen : length (map (fun c => g c z) (seq 0 k)) = k)
    by (now rewrite length_map, length_seq).
  rewrite lookup_app_r by lia. rewrite Hlen, Nat.sub_diag.
  replace (n - k)%nat with (S (n - S k)) by lia. simpl.
  rewrite insert_app_r_alt by lia. rewrite Hlen, Nat.sub_diag. simpl.
  rewrite map_app, <- app_assoc. reflexivity.
Qed.

(** [decodeAudioData] on at least one frame of samples. *)
Lemma decodeAudioData_channels (bytes dataInt16 : list Z) (rate : Q) (numChannels : nat) :
  Int16Array_of_bytes bytes = Ok dataInt16 ->
  (1 <= numChannels <= maxChannels)%nat ->
  (numChannels <= length dataInt16)%nat ->
  decodeAudioData bytes rate numChannels
  = Ok {| sampleRate := rate;
          channels :=
            map (fun c => map (fun i => sample_at dataInt16 (i * numChannels + c))
                              (seq 0 (length dataInt16 / numChannels)))
                (seq 0 numChannels) |}.
Proof.
intros Hview Hnc Hlen. unfold decodeAudioData. rewrite Hview.
rewrite createBuffer_spec by exact Hnc.
destruct (Nat.ltb_spec (length dataInt16) numChannels); [lia|].
simpl. f_equal. f_equal.
set (F := (length dataInt16 / numChannels)%nat).
set (q := (inject_Z (Z.of_nat (length dataInt16)) / inject_Z (Z.of_nat numChannels))%Q).
assert (Hiters : (F <= Z.to_nat (Qceiling q))%nat).
{ assert (Hfloor : Qfloor q = Z.of_nat F).
  { subst q F. rewrite Qfloor_div by lia. now rewrite <- Nat2Z.inj_div. }
  pose proof (Qfloor_le q) as H1. pose proof (Qle_ceiling q) as H2.
  assert (H3 : (inject_Z (Qfloor q) <= inject_Z (Qceiling q))%Q)
    by (eapply Qle_trans; eassumption).
  rewrite <- Zle_Qle in H3. lia. }
unfold fill_channels.
rewrite (foldl_channels_seq
           (fun c cd => fill_channel dataInt16 numChannels c (Z.to_nat (Qceiling q)) cd))
  by lia.
rewrite Nat.sub_diag, app_nil_r.
apply map_ext. intros c. unfold fill_channel.
rewrite foldl_insert_seq_past by (rewrite length_replicate; exact Hiters).
now rewrite length_replicate.
Qed.

End DeinterleaveFacts.

(** X5.  [decodeAudioData] de-interleaves.  Given at least one frame,
    it returns [numChannels] channels of [samples / numChannels] frames
    each (a last partial frame is left out), and frame [i] of channel
    [c] is 16-bit sample number [i * numChannels + c] divided by 32768:
    a finite number of [-1, 1), never NaN. *)
Theorem decodeAudioData_deinterleaves
    (bytes dataInt16 : list Z) (rate : Q) (numChannels : nat)
    (Hview : Int16Array_of_bytes bytes = Ok dataInt16)
    (Hchannels : (1 <= numChannels <= maxChannels)%nat)
    (Hframe : (numChannels <= length dataInt16)%nat) :
  exists b,
    decodeAudioData bytes rate numChannels = Ok b
    /\ sampleRate b = rate
    /\ length (channels b) = numChannels
    /\ forall c channelData, channels b !! c = Some channelData ->
         length channelData = (length dataInt16 / numChannels)%nat
         /\ forall i y, channelData !! i = Some y ->
              exists v, dataInt16 !! (i * numChannels + c)%nat = Some v
                        /\ y = Fin (inject_Z v / 32768)
                        /\ (-1 <= inject_Z v / 32768)%Q
                        /\ (inject_Z v / 32768 < 1)%Q.
Proof.
eexists. split; [apply decodeAudioData_channels; eassumption|].
simpl. split; [reflexivity|]. split; [now rewrite length_map, length_seq|].
intros c channelData Hc.
change (map ?f ?l) with (f <$> l) in Hc.
rewrite list_lookup_fmap in Hc.
destruct (seq 0 numChannels !! c) as [c'|] eqn:Ec; [|discriminate].
apply lookup_seq in Ec as [-> Hclt]. simpl in Hc. inversion Hc; subst channelData. clear Hc.
split; [now rewrite length_map, length_seq|].
intros i y Hi.
change (map ?f ?l) with (f <$> l) in Hi.
rewrite list_lookup_fmap in Hi.
destruct (seq 0 (length dataInt16 / numChannels) !! i) as [i'|] eqn:Ei; [|discriminate].
apply lookup_seq in Ei as [-> Hilt]. simpl in Hi, Hilt. inversion Hi; subst y. clear Hi.
assert (Hidx : (i * numChannels + c < length dataInt16)%nat).
{ pose proof (Nat.Div0.mul_div_le (length dataInt16) numChannels). nia. }
destruct (lookup_lt_is_Some_2 dataInt16 _ Hidx) as [v Hv].
exists v. split; [exact Hv|]. unfold sample_at. rewrite Hv.
split; [reflexivity|].
pose proof (Int16Array_of_bytes_range bytes dataInt16 Hview) as Hrange.
assert (Hvr : is_int16 v).
{ eapply Forall_forall in Hrange; [exact Hrange|].
  eapply list_elem_of_lookup_2, Hv. }
unfold is_int16 in Hvr.
unfold Qle, Qlt, Qdiv, Qmult, Qinv, inject_Z. simpl. lia.
Qed.

Lemma decodeAudioData_deinterleaves_witness :
  exists b, decodeAudioData [1; 0; 2; 0; 3; 0; 4; 0; 5; 0] 24000 2 = Ok b
            /\ length (channels b) = 2%nat.
Proof.
destruct (decodeAudioData_deinterleaves [1; 0; 2; 0; 3; 0; 4; 0; 5; 0]
            [1; 2; 3; 4; 5] 24000 2) as (b & Hb & _ & Hlen & _).
- reflexivity.
- unfold maxChannels. lia.
- simpl. lia.
- exists b. split; [exact Hb | exact Hlen].
Defined.

(** ** [withRetry]: the back-off *)

Section BackoffFacts.
Import Retry.
Context {W T : Type}.
Variable apiCall : W -> (T + Thrown) * W.

(** Inside the loop: one sleep has been taken per invocation made so
    far, and that stays so. *)
Lemma loop_delays remaining : forall attempt lastError ds w,
  (attempt + remaining = MAX_RETRIES)%nat ->
  (1 <= remaining)%nat ->
  ds = map (fun k => INITIAL_DELAY_MS * 2 ^ Z.of_nat k) (seq 0 attempt) ->
  let R := loop apiCall remaining attempt lastError attempt ds w in
  (1 <= calls R)%nat
  /\ delays R = map (fun k => INITIAL_DELAY_MS * 2 ^ Z.of_nat k) (seq 0 (calls R - 1)).
Proof.
induction remaining as [|rem IH]; intros attempt lastError ds w Hsum Hrem Hds; [lia|].
cbn [loop]. destruct (apiCall w) as [[v|e] w']; cbn [calls delays].
- rewrite Nat.sub_succ, Nat.sub_0_r. split; [lia | exact Hds].
- destruct (isRateLimitError e).
  + destruct (Nat.ltb_spec attempt (MAX_RETRIES - 1)) as [Hlt|Hge].
    * apply IH; [lia | unfold MAX_RETRIES in *; lia |].
      rewrite seq_S, map_app, Hds. reflexivity.
    * assert (rem = 0%nat) by (unfold MAX_RETRIES in *; lia). subst rem.
      cbn [loop calls delays].
      rewrite Nat.sub_succ, Nat.sub_0_r. split; [lia | exact Hds].
  + cbn [calls delays]. rewrite Nat.sub_succ, Nat.sub_0_r. split; [lia | exact Hds].
Qed.

End BackoffFacts.

(** X6.  [withRetry] sleeps once before every retry and never after
    the last invocation: after [n] invocations it has slept [n - 1]
    times, for 250, 500, 1000, 2000 milliseconds (plus jitter) in that
    order, so at most four times and for less than four seconds of base
    delay in all. *)
Theorem withRetry_backs_off_exponentially {W T : Type}
    (apiCall : W -> (T + Retry.Thrown) * W) (w : W) :
  let R := Retry.withRetry apiCall w in
  (1 <= Retry.calls R)%nat
  /\ Retry.delays R
     = map (fun k => 250 * 2 ^ Z.of_nat k) (seq 0 (Retry.calls R - 1))
  /\ (length (Retry.delays R) <= 4)%nat
  /\ foldr Z.add 0 (Retry.delays R) <= 3750.
Proof.
cbv zeta.
destruct (loop_delays apiCall Retry.MAX_RETRIES 0 Retry.Nullish [] w
            eq_refl ltac:(unfold Retry.MAX_RETRIES; lia) eq_refl) as [H1 H2].
pose proof (loop_calls_le apiCall Retry.MAX_RETRIES 0 Retry.Nullish 0 [] w) as Hmax.
unfold Retry.withRetry. split; [exact H1|]. split; [exact H2|].
rewrite H2, length_map, length_seq.
unfold Retry.MAX_RETRIES in Hmax.
set (n := Retry.calls _) in *.
split; [lia|].
assert (Hn : (n = 1 \/ n = 2 \/ n = 3 \/ n = 4 \/ n = 5)%nat) by lia.
destruct Hn as [-> | [-> | [-> | [-> | ->]]]]; vm_compute; discriminate.
Qed.

(** ** The voice session: what its callbacks keep and what they never do *)

Section ActiveSetFacts.
Import Chat.

Ltac keep_active :=
  repeat lazymatch goal with
    | |- keeps _ (ret _) => apply keeps_ret
    | |- keeps _ (gets _) => apply keeps_gets
    | |- keeps _ (throw _) => apply keeps_throw
    | |- keeps _ (bind _ _) => apply keeps_bind; [|intros ?]
    | |- keeps _ (when _ _) => apply keeps_when
    | |- keeps _ (unawaited _) => apply keeps_unawaited
    | |- keeps _ (modify (with_audioSources _)) => fail
    | |- keeps _ (modify _) => apply keeps_modify; intros ? ?; assumption
    | |- keeps _ (match ?x with _ => _ end) => destruct x
    | |- keeps _ (let _ := _ in _) => cbv zeta
    | |- keeps _ _ => solve [auto]
    end.

Lemma active_started st : active_sources_playing st -> sources_started st.
Proof.
intros [_ H] node Hnode. destruct (H node Hnode) as (n & Hn & Hs & _). eauto.
Qed.

Lemma active_nil h oa nst ns eff :
  active_sources_playing {| hooks := h; outputAudio := oa; audioSources := [];
                            nextStartTime := nst; nodes := ns; effects := eff |}.
Proof. split; [constructor | intros node []]. Qed.

Lemma NoDup_set_add x s : NoDup s -> NoDup (set_add x s).
Proof.
intros Hs. unfold set_add. destruct (existsb (Nat.eqb x) s) eqn:E; [exact Hs|].
apply NoDup_app. split; [exact Hs|]. split; [|apply NoDup_singleton].
intros y Hy Hyx. apply list_elem_of_singleton in Hyx. subst y.
assert (Hex : existsb (Nat.eqb x) s = true); [|congruence].
apply existsb_exists. exists x. split; [apply list_elem_of_In, Hy | apply Nat.eqb_refl].
Qed.

Lemma stop_and_clear_keeps_active : keeps active_sources_playing stop_and_clear.
Proof.
intros st H.
destruct (stop_and_clear_ok st (active_started st H)) as (nodes' & -> & _).
apply active_nil.
Qed.

Lemma interrupt_keeps_active : keeps active_sources_playing interrupt.
Proof.
intros st H.
destruct (interrupt_ok st (active_started st H)) as (nodes' & -> & _).
apply active_nil.
Qed.

Lemma stopMic_keeps_active r : keeps active_sources_playing (stopMic r).
Proof.
intros st H.
destruct (stopMic_ok r st (active_started st H)) as (nodes' & -> & _).
apply active_nil.
Qed.

Lemma enqueue_keeps_active base64Audio t :
  keeps active_sources_playing (enqueue base64Audio t).
Proof.
intros st [Hnd H].
assert (Hold : forall ns' x, In x (audioSources st) ->
          exists n, (nodes st ++ ns') !! x = Some n
                    /\ startedAt n <> None /\ stopped n = false).
{ intros ns' x Hx. destruct (H x Hx) as (nx & Hnx & Hsx & Hpx).
  exists nx. split; [apply lookup_app_l_Some, Hnx | auto]. }
destruct (decoded base64Audio) as [b|e] eqn:Hdec.
- destruct (Qle_bool 0 (Qmax (nextStartTime st) (currentTime t))) eqn:Hpos.
  + rewrite (enqueue_ok _ _ b) by (try apply Qle_bool_iff; assumption).
    split; simpl.
    * apply NoDup_set_add, Hnd.
    * intros x Hx. apply In_set_add in Hx as [->|Hx]; [|apply Hold, Hx].
      eexists. split; [apply list_lookup_middle; reflexivity|].
      simpl. split; [discriminate | reflexivity].
  + unfold enqueue, bind, modify, lift, createBufferSource, gets, start.
    simpl. rewrite Hdec. simpl.
    rewrite list_lookup_middle by reflexivity. simpl. rewrite Hpos. simpl.
    split; simpl; [exact Hnd | apply Hold].
- rewrite (enqueue_throws _ _ e) by exact Hdec. split; [exact Hnd | exact H].
Qed.

Lemma handler_keeps_active r ev : keeps active_sources_playing (handler r ev).
Proof.
pose proof (stopMic_keeps_active r).
pose proof interrupt_keeps_active.
pose proof enqueue_keeps_active.
destruct ev; simpl;
  unfold startMic, startMic_connected, startMic_failed, onaudioprocess,
    processAudioChunk, session_onmessage, transcription, onTranscription,
    onTurnComplete, onerror, onclose, onmessage;
  keep_active.
apply keeps_modify. intros st [Hnd Hst]. split; simpl.
- unfold set_delete. apply NoDup_filter, Hnd.
- intros x Hx. apply Hst. unfold set_delete in Hx.
  apply list_elem_of_In, list_elem_of_filter in Hx as [_ Hx].
  apply list_elem_of_In, Hx.
Qed.

End ActiveSetFacts.

(** X7.  In every store the component reaches, the active set holds
    each source once, and every source in it has been started and has
    not been stopped: a source is stopped only when the whole set is
    flushed, and the set is emptied in the same step. *)
Theorem active_sources_are_playing (st : Chat.Store) (Hst : Chat.reachable st) :
  active_sources_playing st.
Proof.
induction Hst as [history | st r ev _ IH].
- split; [constructor | intros node []].
- apply handler_keeps_active, IH.
Qed.

Lemma active_sources_are_playing_witness :
  active_sources_playing
    (Chat.run (Chat.hooks (Chat.mounted []))
       [Chat.Message (Chat.audio_delta "AAAAAAAA") 0;
        Chat.Message (Chat.audio_delta "AAAAAAAA") 0;
        Chat.Ended 0%nat]
       (Chat.mounted [])).
Proof.
apply active_sources_are_playing.
do 3 apply Chat.reachable_dispatch. apply Chat.reachable_mounted.
Defined.

Section ReleaseFacts.
Import Chat.

Lemma releases_emit_other e st :
  match e with
  | TracksStopped _ | Disconnected _ | SessionClosed _ => False
  | _ => True
  end ->
  releases (emit e st) = releases st.
Proof.
intros He. unfold releases, emit. simpl. rewrite flat_map_app. simpl.
destruct e; try contradiction; apply app_nil_r.
Qed.

Lemma stopMic_preserves_releases r :
  no_session r -> preserves releases (stopMic r).
Proof.
intros (Hm & Hp & Hs). unfold stopMic, stopLiveSession, stop_and_clear.
rewrite Hm, Hp, Hs. preserve.
Qed.

Lemma handler_preserves_releases r ev :
  no_session r -> preserves releases (handler r ev).
Proof.
intros Hr.
pose proof (stopMic_preserves_releases r Hr) as HstopMic.
assert (Hlog : forall msg, preserves releases (modify (emit (ConsoleError msg)))).
{ intros msg. apply preserves_modify. intros st. now apply releases_emit_other. }
assert (Hsend : forall s b, preserves releases (modify (emit (SentRealtimeInput s b)))).
{ intros s b. apply preserves_modify. intros st. now apply releases_emit_other. }
destruct ev; simpl;
  unfold startMic, startMic_connected, startMic_failed, onaudioprocess,
    processAudioChunk, session_onmessage, transcription, onTranscription,
    onTurnComplete, onerror, onclose, onmessage, enqueue, interrupt, stop_and_clear;
  preserve; auto.
Qed.

End ReleaseFacts.

(** X8.  When the render in which the callbacks of a voice session were
    created holds no stream, no processor and no session (as the render
    of a click on the idle microphone button does), then whatever
    events they are called for, remote close and error included, they
    never stop the microphone tracks, never disconnect the processor
    and never close the session: the teardown they run only clears the
    component's state. *)
Theorem session_callbacks_release_nothing
    (r : Chat.Hooks) (evs : list Chat.Event) (st : Chat.Store)
    (Hr : Chat.no_session r) :
  releases (Chat.run r evs st) = releases st.
Proof.
revert st. induction evs as [|ev evs IH]; intros st; [reflexivity|].
change (Chat.run r (ev :: evs) st) with (Chat.run r evs (Chat.dispatch r ev st)).
rewrite IH. apply handler_preserves_releases, Hr.
Qed.

Lemma session_callbacks_release_nothing_witness :
  let r := Chat.hooks (Chat.mounted []) in
  let st := Chat.run r [Chat.StartClicked (Some (1%nat, 2%nat)); Chat.Connected 3%nat;
                        Chat.Opened; Chat.Closed] (Chat.mounted []) in
  releases st = [] /\ Chat.micStream (Chat.hooks st) = None.
Proof.
split; [|reflexivity].
apply (session_callbacks_release_nothing (Chat.hooks (Chat.mounted []))).
repeat split.
Defined.

(** X9.  The stop button calls the [stopMic] of the current render.
    From every store the component reaches it makes exactly the release
    calls for what the store holds (stream, processor, session, in that
    order), leaves the log and the error line as they were, and leaves
    the session idle. *)
Theorem stop_button_releases_what_is_held (st : Chat.Store) (Hst : Chat.reachable st) :
  let st' := Chat.dispatch (Chat.hooks st) Chat.StopClicked st in
  Chat.effects st' = Chat.effects st ++ Chat.release_calls (Chat.hooks st)
  /\ Chat.hooks st' = Chat.torn_down (Chat.hooks st)
  /\ Chat.idle st'.
Proof.
cbv zeta.
destruct (reachable_invariant st Hst) as [_ Hstarted].
destruct (stopMic_ok (Chat.hooks st) st Hstarted) as (nodes' & Hrun & _).
unfold Chat.dispatch, Chat.handler. rewrite Hrun. simpl.
repeat split.
Qed.

Lemma stop_button_releases_what_is_held_witness :
  let r := Chat.hooks (Chat.mounted []) in
  let st := Chat.run r [Chat.StartClicked (Some (1%nat, 2%nat)); Chat.Connected 3%nat;
                        Chat.Opened] (Chat.mounted []) in
  Chat.effects (Chat.dispatch (Chat.hooks st) Chat.StopClicked st)
  = [Chat.TracksStopped 1%nat; Chat.Disconnected 2%nat; Chat.SessionClosed 3%nat].
Proof.
cbv zeta.
refine (proj1 (stop_button_releases_what_is_held _ _)).
do 3 apply Chat.reachable_dispatch. apply Chat.reachable_mounted.
Defined.

Section TranscriptFacts.
Import Chat.

Lemma onmessage_preserves_hooks m t : preserves hooks (onmessage m t).
Proof. unfold onmessage, enqueue, interrupt, stop_and_clear. preserve. Qed.

(** One message without a turn completion. *)
Lemma message_accumulates r m t st :
  turnComplete m = false ->
  let h' := hooks (dispatch r (Message m t) st) in
  currentOutputTranscription h'
  = (currentOutputTranscription (hooks st) ++ transcribed (outputTranscription m))%string
  /\ currentInputTranscription h'
     = (currentInputTranscription (hooks st) ++ transcribed (inputTranscription m))%string
  /\ chatHistory h' = chatHistory (hooks st).
Proof.
intros Htc. cbv zeta. rewrite dispatch_message, onmessage_preserves_hooks.
unfold transcription, onTranscription, bind, modify, when. rewrite Htc.
destruct (outputTranscription m) as [[x|]|], (inputTranscription m) as [[y|]|];
  cbn [transcribed]; rewrite ?append_empty_r; repeat split.
Qed.

End TranscriptFacts.

(** X10.  Between two turn completions the transcription deltas add
    up: after any run of messages, none of which completes the turn,
    each accumulator holds what it held before followed by the texts of
    its own kind in arrival order, with the word "undefined" for every
    transcription that comes without a text, and the conversation log is
    untouched, whatever audio or interruption the messages carry. *)
Theorem transcription_deltas_accumulate
    (r : Chat.Hooks) (ms : list (Chat.LiveServerMessage * Q)) (st : Chat.Store)
    (Hopen : Forall (fun mt => Chat.turnComplete (fst mt) = false) ms) :
  let h' := Chat.hooks (Chat.run r (messages ms) st) in
  Chat.currentOutputTranscription h'
  = (Chat.currentOutputTranscription (Chat.hooks st) ++ output_text ms)%string
  /\ Chat.currentInputTranscription h'
     = (Chat.currentInputTranscription (Chat.hooks st) ++ input_text ms)%string
  /\ Chat.chatHistory h' = Chat.chatHistory (Chat.hooks st).
Proof.
cbv zeta. revert st.
induction Hopen as [|[m t] ms Hm _ IH]; intros st.
- simpl. rewrite !append_empty_r. repeat split.
- change (Chat.run r (messages ((m, t) :: ms)) st)
    with (Chat.run r (messages ms) (Chat.dispatch r (Chat.Message m t) st)).
  destruct (IH (Chat.dispatch r (Chat.Message m t) st)) as (H1 & H2 & H3).
  destruct (message_accumulates r m t st Hm) as (G1 & G2 & G3).
  rewrite H1, H2, H3, G1, G2, G3. simpl.
  rewrite !append_assoc. repeat split.
Qed.

Lemma transcription_deltas_accumulate_witness :
  let delta o i := {| Chat.outputTranscription := o; Chat.inputTranscription := i;
                      Chat.turnComplete := false; Chat.modelTurn := Chat.NoModelTurn;
                      Chat.interrupted := false |} in
  Chat.currentOutputTranscription
    (Chat.hooks (Chat.run (Chat.hooks (Chat.mounted []))
       (messages [(delta (Some (Some "Hel"%string)) None, 0%Q);
                  (delta None (Some (Some "hi"%string)), 0%Q);
                  (delta (Some (Some "lo"%string)) None, 0%Q);
                  (delta (Some None) None, 0%Q)])
       (Chat.mounted [])))
  = "Helloundefined"%string.
Proof.
cbv zeta.
refine (proj1 (transcription_deltas_accumulate _ _ _ _)).
repeat constructor.
Defined.

Section ClockFacts.
Import Chat.

(** A message with no audio to schedule and no interruption. *)
Lemma message_without_audio r m t st :
  (inlineData m = None \/ inlineData m = Some EmptyString) ->
  interrupted m = false ->
  playback (dispatch r (Message m t) st) = playback st.
Proof.
intros Haudio Hint.
destruct (modelTurn m) as [| |d] eqn:Hturn;
  [| exact (proj1 (message_without_parts r m t st Hturn)) |];
  (rewrite dispatch_message;
   rewrite <- (transcription_preserves_playback r m st);
   set (st0 := snd (transcription r m st));
   rewrite onmessage_with_parts by (rewrite Hturn; discriminate);
   unfold bind, gets, when; simpl; rewrite Hint;
   destruct (outputAudio st0); simpl; [|reflexivity];
   destruct Haudio as [-> | ->]; reflexivity).
Qed.

End ClockFacts.

(** X11.  A message that does not interrupt never moves the playback
    clock back, whether it carries no audio, audio that decodes, or
    audio that does not. *)
Theorem playback_clock_never_runs_back
    (r : Chat.Hooks) (st : Chat.Store) (m : Chat.LiveServerMessage) (t : Q)
    (Hst : Chat.reachable st)
    (Hint : Chat.interrupted m = false)
    (Hclock : (0 <= t)%Q) :
  (Chat.nextStartTime st
   <= Chat.nextStartTime (Chat.dispatch r (Chat.Message m t) st))%Q.
Proof.
destruct (reachable_invariant st Hst) as [Hready _].
destruct (reachable_clock st Hst) as [Hc0 Hd0].
destruct (Qmax_clock (Chat.nextStartTime st) t Hc0 Hd0) as [Hm Hmd].
pose proof (Q.le_max_l (Chat.nextStartTime st) (Chat.currentTime t)) as Hl.
destruct (Chat.inlineData m) as [p|] eqn:Hp.
- destruct (String.eqb_spec p EmptyString) as [->|Hne].
  + destruct (playback_fields _ _ (message_without_audio r m t st (or_intror Hp) Hint))
      as (_ & _ & -> & _). apply Qle_refl.
  + destruct (Chat.decoded p) as [b|e] eqn:Hdec.
    * assert (Hb : Chat.carries m b) by (exists p; auto).
      pose proof (carries_duration_nonneg m b Hb) as Hd.
      destruct (message_schedules r m t b st Hready Hb Hint Hm)
        as (_ & _ & -> & _).
      pose proof (clock_advances _ _ Hm Hmd Hd). lra.
    * assert (Hbad : Chat.undecodable m).
      { exists p. split; [exact Hp | split; [exact Hne | now rewrite Hdec]]. }
      destruct (message_undecodable r m t st Hready Hbad) as (_ & _ & -> & _).
      exact Hl.
- destruct (playback_fields _ _ (message_without_audio r m t st (or_introl Hp) Hint))
    as (_ & _ & -> & _). apply Qle_refl.
Qed.

Lemma playback_clock_never_runs_back_witness :
  (Chat.nextStartTime (Chat.mounted [])
   <= Chat.nextStartTime
        (Chat.dispatch (Chat.hooks (Chat.mounted []))
           (Chat.Message (Chat.audio_delta "AAAAAAAA") (1 # 2)) (Chat.mounted [])))%Q.
Proof.
apply playback_clock_never_runs_back.
- apply Chat.reachable_mounted.
- reflexivity.
- discriminate.
Defined.

(** X12.  A decodable buffer is started at the later of the playback
    clock and the time the audio context reports: never in the past and
    never before the end of what is already scheduled; at the reported
    time when the queue has drained, leaving a gap rather than piling up
    behind the old schedule, and at the playback clock otherwise.  The
    playback clock then holds the double nearest to the start plus the
    buffer's duration, which is not before the start and at most half a
    unit in the last place away from the sum. *)
Theorem buffer_never_starts_in_the_past
    (r : Chat.Hooks) (st : Chat.Store) (m : Chat.LiveServerMessage) (t : Q)
    (b : AudioBuffer)
    (Hst : Chat.reachable st)
    (Hb : Chat.carries m b)
    (Hint : Chat.interrupted m = false)
    (Hclock : (0 <= t)%Q) :
  let now := Chat.currentTime t in
  let s := Qmax (Chat.nextStartTime st) now in
  let st' := Chat.dispatch r (Chat.Message m t) st in
  Chat.nodes st'
  = Chat.nodes st
    ++ [{| Chat.buffer := b; Chat.startedAt := Some s; Chat.stopped := false |}]
  /\ (now <= s)%Q
  /\ (Chat.nextStartTime st <= s)%Q
  /\ ((Chat.nextStartTime st <= now)%Q -> (s == now)%Q)
  /\ ((now <= Chat.nextStartTime st)%Q -> (s == Chat.nextStartTime st)%Q)
  /\ Chat.nextStartTime st' = IEEE.binary64 (s + duration b)
  /\ (s <= Chat.nextStartTime st')%Q
  /\ (Qabs (Chat.nextStartTime st' - (s + duration b))
      <= IEEE.ulp (s + duration b) * (1 # 2))%Q.
Proof.
cbv zeta.
destruct (reachable_invariant st Hst) as [Hready _].
destruct (reachable_clock st Hst) as [Hc0 Hd0].
destruct (Qmax_clock (Chat.nextStartTime st) t Hc0 Hd0) as [Hm Hmd].
pose proof (carries_duration_nonneg m b Hb) as Hd.
destruct (message_schedules r m t b st Hready Hb Hint Hm)
  as (_ & Hnodes & Hnext & _).
split; [exact Hnodes|]. split; [apply Q.le_max_r|]. split; [apply Q.le_max_l|].
split; [apply Q.max_r|]. split; [apply Q.max_l|]. split; [exact Hnext|].
rewrite Hnext. split; [apply clock_advances; assumption | apply binary64_error].
Qed.

Lemma buffer_never_starts_in_the_past_witness :
  let st' := Chat.dispatch (Chat.hooks (Chat.mounted []))
               (Chat.Message (Chat.audio_delta "AAAAAAAA") (1 # 2)) (Chat.mounted []) in
  Chat.nodes st'
  = [{| Chat.buffer := Chat.silence;
        Chat.startedAt := Some (Qmax (Chat.nextStartTime (Chat.mounted []))
                                     (Chat.currentTime (1 # 2)));
        Chat.stopped := false |}]
  /\ (Qmax (Chat.nextStartTime (Chat.mounted [])) (Chat.currentTime (1 # 2))
      == Chat.currentTime (1 # 2))%Q.
Proof.
destruct (buffer_never_starts_in_the_past
            (Chat.hooks (Chat.mounted [])) (Chat.mounted [])
            (Chat.audio_delta "AAAAAAAA") (1 # 2) Chat.silence)
  as (Hnodes & _ & _ & Hlate & _).
- apply Chat.reachable_mounted.
- exists "AAAAAAAA"%string. split; [reflexivity | split; [discriminate | reflexivity]].
- reflexivity.
- discriminate.
- split; [exact Hnodes | apply Hlate; vm_compute; discriminate].
Defined.

(** X29.  In every store the component reaches, a message with the
    interrupted flag whose model turn, if any, has its [parts], and
    whose own audio is absent, empty or decodes, stops every source in
    the active set, however many there are, empties the set and puts the
    playback clock back to zero; the buffer of the next message is then
    started at the time the audio context reports, not at the old
    playback clock. *)
Theorem interruption_flushes_playback
    (r : Chat.Hooks) (st : Chat.Store) (m : Chat.LiveServerMessage) (t : Q)
    (Hst : Chat.reachable st)
    (Hint : Chat.interrupted m = true)
    (Haudio : Chat.audio_in_order m) :
  let st' := Chat.dispatch r (Chat.Message m t) st in
  Chat.audioSources st' = []
  /\ Chat.nextStartTime st' = 0%Q
  /\ (forall node, In node (Chat.audioSources st) ->
        exists n, Chat.nodes st' !! node = Some n /\ Chat.stopped n = true)
  /\ (forall m2 t2 b2,
        Chat.carries m2 b2 -> Chat.interrupted m2 = false -> (0 <= t2)%Q ->
        let s := Qmax (Chat.nextStartTime st') (Chat.currentTime t2) in
        Chat.nodes (Chat.dispatch r (Chat.Message m2 t2) st')
        = Chat.nodes st'
          ++ [{| Chat.buffer := b2; Chat.startedAt := Some s; Chat.stopped := false |}]
        /\ (s == Chat.currentTime t2)%Q).
Proof.
  cbv zeta.
  destruct (reachable_invariant st Hst) as [Hready Hstarted].
  destruct (reachable_clock st Hst) as [Hc0 _].
  destruct (message_interrupts r m t st Hready Hstarted Hc0 Hint Haudio)
    as (Hready' & Hsrc & Hclock & Hstopped).
  split; [exact Hsrc | split; [exact Hclock | split; [exact Hstopped|]]].
  intros m2 t2 b2 Hb2 Hi2 Ht2.
  set (st' := Chat.dispatch r (Chat.Message m t) st) in *.
  assert (Hmax : (0 <= Qmax (Chat.nextStartTime st') (Chat.currentTime t2))%Q).
  { pose proof (Q.le_max_l (Chat.nextStartTime st') (Chat.currentTime t2)) as Hmax.
    rewrite Hclock in Hmax at 1. exact Hmax. }
  destruct (message_schedules r m2 t2 b2 st' Hready' Hb2 Hi2 Hmax)
    as (_ & Hnodes & _).
  split; [exact Hnodes|].
  rewrite Hclock. apply Q.max_r. apply currentTime_nonneg. exact Ht2.
Qed.

Lemma interruption_flushes_playback_witness :
  let r := Chat.hooks (Chat.mounted []) in
  let st := Chat.run r [Chat.Message (Chat.audio_delta "AAAAAAAA") 0;
                        Chat.Message (Chat.audio_delta "AAAAAAAA") 0]
                     (Chat.mounted []) in
  let st' := Chat.dispatch r (Chat.Message Chat.interruption (1 # 1000)) st in
  Chat.audioSources st = [0%nat; 1%nat]
  /\ Chat.audioSources st' = [] /\ Chat.nextStartTime st' = 0%Q.
Proof.
  split; [reflexivity|].
  assert (Hst : Chat.reachable
                  (Chat.run (Chat.hooks (Chat.mounted []))
                     [Chat.Message (Chat.audio_delta "AAAAAAAA") 0;
                      Chat.Message (Chat.audio_delta "AAAAAAAA") 0]
                     (Chat.mounted []))).
  { apply Chat.reachable_dispatch, Chat.reachable_dispatch, Chat.reachable_mounted. }
  assert (Haudio : Chat.audio_in_order Chat.interruption).
  { split; [discriminate | exact I]. }
  destruct (interruption_flushes_playback
              (Chat.hooks (Chat.mounted [])) _ Chat.interruption (1 # 1000)
              Hst eq_refl Haudio) as (H1 & H2 & _).
  split; [exact H1 | exact H2].
Defined.

(** ** Dermatologist look-up and grounded answers *)

Section MapSet.
Context {V : Type}.

Lemma map_set_keys (k : string) (v : V) (m : list (string * V)) :
  map fst (Grounding.map_set k v m) = map fst m
  \/ (~ In k (map fst m) /\ map fst (Grounding.map_set k v m) = map fst m ++ [k]).
Proof.
induction m as [|[k' v'] rest IH]; simpl.
- right. split; [tauto | reflexivity].
- destruct (String.eqb_spec k' k) as [->|Hne]; simpl.
  + left. reflexivity.
  + destruct IH as [IH|[Hnin IH]].
    * left. f_equal. exact IH.
    * right. split; [intros [H|H]; [congruence | tauto] | f_equal; exact IH].
Qed.

Lemma map_set_NoDup (k : string) (v : V) (m : list (string * V)) :
  NoDup (map fst m) -> NoDup (map fst (Grounding.map_set k v m)).
Proof.
intros Hnd. destruct (map_set_keys k v m) as [->|[Hnin ->]]; [exact Hnd|].
apply NoDup_app. split; [exact Hnd|]. split.
- intros x Hx Hk. apply list_elem_of_singleton in Hk. subst x.
  apply Hnin. apply list_elem_of_In. exact Hx.
- apply NoDup_singleton.
Qed.

Lemma map_set_In (k : string) (v : V) (m : list (string * V)) k' v' :
  NoDup (map fst m) ->
  In (k', v') (Grounding.map_set k v m)
  <-> (k' = k /\ v' = v) \/ (k' <> k /\ In (k', v') m).
Proof.
induction m as [|[k1 v1] rest IH]; simpl; intros Hnd.
- split.
  + intros [H|[]]. inversion H. left. split; reflexivity.
  + intros [[-> ->]|[_ []]]. left. reflexivity.
- apply NoDup_cons in Hnd as [Hnin Hnd].
  assert (Hrest : forall x, In (k1, x) rest -> False).
  { intros x Hx. apply Hnin. apply list_elem_of_In.
    apply (in_map fst) in Hx. exact Hx. }
  destruct (String.eqb_spec k1 k) as [->|Hne]; simpl.
  + split.
    * intros [H|H]; [inversion H; left; split; reflexivity|].
      right. split; [|right; exact H].
      intros ->. exact (Hrest _ H).
    * intros [[-> ->]|[Hk [H|H]]]; [left; reflexivity | | right; exact H].
      inversion H. congruence.
  + rewrite (IH Hnd). split.
    * intros [H|[H|[Hk H]]].
      -- inversion H; subst. right. split; [exact Hne | left; reflexivity].
      -- left. exact H.
      -- right. split; [exact Hk | right; exact H].
    * intros [H|[Hk [H|H]]].
      -- right. left. exact H.
      -- left. exact H.
      -- right. right. split; assumption.
Qed.

Lemma last_entry_snoc (entries : list (string * V)) k v k' v' :
  last_entry (entries ++ [(k, v)]) k' v'
  <-> (k' = k /\ v' = v) \/ (k' <> k /\ last_entry entries k' v').
Proof.
unfold last_entry. split.
- intros (l1 & l2 & Heq & Hall).
  revert Heq Hall. destruct l2 as [|x l2 _] using rev_ind; intros Heq Hall.
  + apply app_inj_tail in Heq as [_ Heq]. inversion Heq. left. split; reflexivity.
  + change (l1 ++ (k', v') :: l2 ++ [x]) with (l1 ++ ((k', v') :: l2) ++ [x]) in Heq.
    rewrite app_assoc in Heq. apply app_inj_tail in Heq as [Heq Hx]. subst x.
    apply Forall_app in Hall as [Hall Hk]. inversion Hk as [|? ? Hk' _]; subst.
    simpl in Hk'. right. split; [congruence|].
    exists l1, l2. split; [reflexivity | exact Hall].
- intros [[-> ->]|[Hne (l1 & l2 & -> & Hall)]].
  + exists entries, []. split; [reflexivity | constructor].
  + exists l1, (l2 ++ [(k, v)]). split.
    * rewrite <- app_assoc. reflexivity.
    * apply Forall_app. split; [exact Hall|].
      constructor; [simpl; congruence | constructor].
Qed.

Lemma Map_of_snoc (entries : list (string * V)) k v :
  Grounding.Map_of (entries ++ [(k, v)])
  = Grounding.map_set k v (Grounding.Map_of entries).
Proof. unfold Grounding.Map_of. rewrite foldl_app. reflexivity. Qed.

Lemma Map_of_spec (entries : list (string * V)) :
  NoDup (map fst (Grounding.Map_of entries))
  /\ forall k v, In (k, v) (Grounding.Map_of entries) <-> last_entry entries k v.
Proof.
induction entries as [|[k v] entries [IHnd IH]] using rev_ind.
- split; [constructor|]. intros k v. split; [intros []|].
  intros (l1 & l2 & Heq & _). destruct l1; discriminate.
- rewrite Map_of_snoc. split; [apply map_set_NoDup; exact IHnd|].
  intros k' v'. rewrite (map_set_In k v _ k' v' IHnd), last_entry_snoc, IH.
  reflexivity.
Qed.

End MapSet.

Lemma pushed_fields (chunk : Grounding.GroundingChunk) (d : Grounding.Dermatologist) :
  In d (Grounding.pushed chunk) ->
  Grounding.name d <> EmptyString
  /\ Grounding.mapsUri d <> EmptyString
  /\ Grounding.address d <> EmptyString.
Proof.
unfold Grounding.pushed.
destruct (Grounding.maps chunk) as [m|]; [|intros []].
destruct (Grounding.maps_title m) as [t|]; [|intros []].
destruct (Grounding.maps_uri m) as [u|]; [|intros []].
unfold Grounding.truthy at 1 2.
destruct (String.eqb_spec t EmptyString) as [|Ht]; [intros []|].
destruct (String.eqb_spec u EmptyString) as [|Hu]; [intros []|].
intros [<-|[]]. simpl. split; [exact Ht|]. split; [exact Hu|].
unfold Grounding.or_else.
destruct (Grounding.truthy _) eqn:Htr; [|discriminate].
destruct (match Grounding.placeAnswerSources m with
          | Some (first :: _) => Grounding.placeData_address first
          | _ => None
          end) as [a|]; [|discriminate].
simpl in Htr. destruct (String.eqb_spec a EmptyString); [discriminate | assumption].
Qed.

Lemma uniqueDermatologists_spec (items : list Grounding.Dermatologist) :
  NoDup (map Grounding.key (Grounding.uniqueDermatologists items))
  /\ forall d, In d (Grounding.uniqueDermatologists items)
       <-> exists l1 l2, items = l1 ++ d :: l2
                         /\ Forall (fun d' => Grounding.key d' <> Grounding.key d) l2.
Proof.
unfold Grounding.uniqueDermatologists.
set (entries := map (fun item => (Grounding.key item, item)) items).
destruct (Map_of_spec entries) as [Hnd Hin].
assert (Hkey : forall k d, In (k, d) (Grounding.Map_of entries) -> k = Grounding.key d).
{ intros k d H. apply Hin in H as (l1 & l2 & Heq & _).
  assert (Hm : In (k, d) entries) by (rewrite Heq; apply in_elt).
  apply in_map_iff in Hm as (x & Hx & _). inversion Hx. reflexivity. }
split.
- rewrite map_map.
  erewrite map_ext_in; [exact Hnd|].
  intros [k d] H. simpl. symmetry. apply Hkey. exact H.
- intros d. rewrite in_map_iff. split.
  + intros ([k d'] & Hd & H). simpl in Hd. subst d'.
    pose proof (Hkey _ _ H) as ->.
    apply Hin in H as (l1 & l2 & Heq & Hall).
    unfold entries in Heq.
    apply map_eq_app in Heq as (i1 & i2 & -> & Hl1 & Heq).
    apply map_eq_cons in Heq as (x & i3 & -> & Hx & Hl2).
    inversion Hx; subst. exists i1, i3. split; [reflexivity|].
    apply List.Forall_forall. intros y Hy.
    rewrite List.Forall_forall in Hall.
    exact (Hall (Grounding.key y, y)
             (in_map (fun item => (Grounding.key item, item)) i3 y Hy)).
  + intros (l1 & l2 & -> & Hall).
    exists (Grounding.key d, d). split; [reflexivity|].
    apply Hin. exists (map (fun item => (Grounding.key item, item)) l1),
                      (map (fun item => (Grounding.key item, item)) l2).
    split.
    * unfold entries. rewrite map_app. reflexivity.
    * apply List.Forall_forall. intros kv Hkv.
      apply in_map_iff in Hkv as (y & <- & Hy). simpl.
      rewrite List.Forall_forall in Hall. exact (Hall y Hy).
Qed.

(** X13 (findDermatologists): no two dermatologists returned share the
    de-duplication key (name, a dash, Maps link), and each one has a
    non-empty name, a non-empty Maps link and a non-empty address. *)
Theorem findDermatologists_lists_each_place_once
    (groundingChunks : option (list Grounding.GroundingChunk)) :
  let found := Grounding.findDermatologists groundingChunks in
  NoDup (map Grounding.key found)
  /\ NoDup found
  /\ Forall (fun d => Grounding.name d <> EmptyString
                      /\ Grounding.mapsUri d <> EmptyString
                      /\ Grounding.address d <> EmptyString) found.
Proof.
cbv zeta. destruct groundingChunks as [chunks|]; simpl.
- destruct (uniqueDermatologists_spec (flat_map Grounding.pushed chunks)) as [Hnd Hin].
  split; [exact Hnd|]. split.
  + apply NoDup_ListNoDup. eapply NoDup_map_inv.
    apply NoDup_ListNoDup. exact Hnd.
  + apply List.Forall_forall. intros d Hd.
    apply Hin in Hd as (l1 & l2 & Heq & _).
    assert (Hm : In d (flat_map Grounding.pushed chunks)) by (rewrite Heq; apply in_elt).
    apply in_flat_map in Hm as (chunk & _ & Hp).
    exact (pushed_fields chunk d Hp).
- split; [constructor|]. split; constructor.
Qed.

(** X14 (findDermatologists): a dermatologist is returned exactly when it
    is the last entry pushed under its key: of several grounding chunks
    with the same title and link, the address of the last one is kept. *)
Theorem findDermatologists_keeps_the_last_duplicate
    (chunks : list Grounding.GroundingChunk) (d : Grounding.Dermatologist) :
  In d (Grounding.findDermatologists (Some chunks))
  <-> exists before after,
        flat_map Grounding.pushed chunks = before ++ d :: after
        /\ Forall (fun d' => Grounding.key d' <> Grounding.key d) after.
Proof.
simpl. apply uniqueDermatologists_spec.
Qed.

Lemma to_result_one_kind (chunk : Grounding.GroundingChunk) (r : Grounding.GroundingResult) :
  Grounding.to_result chunk = Some r ->
  Grounding.has_web r = bool_decide (is_Some (Grounding.web chunk))
  /\ Grounding.has_maps r = negb (Grounding.has_web r).
Proof.
unfold Grounding.to_result.
destruct (Grounding.web chunk) as [w|]; [intros [= <-]; split; reflexivity|].
destruct (Grounding.maps chunk) as [m|]; [intros [= <-]; split; reflexivity|].
discriminate.
Qed.

Lemma results_by_kind (chunks : list Grounding.GroundingChunk) :
  let rs := omap Grounding.to_result chunks in
  Forall (fun r => Grounding.has_maps r = negb (Grounding.has_web r)) rs
  /\ length (Grounding.searchResults rs)
     = length (List.filter (fun c => bool_decide (is_Some (Grounding.web c))) chunks)
  /\ length (Grounding.mapResults rs)
     = length (List.filter (fun c => bool_decide (Grounding.web c = None)
                                     && bool_decide (is_Some (Grounding.maps c))) chunks).
Proof.
cbv zeta. unfold Grounding.searchResults, Grounding.mapResults.
induction chunks as [|c chunks (IH1 & IH2 & IH3)]; simpl.
- split; [constructor|]. split; reflexivity.
- destruct (Grounding.to_result c) as [r|] eqn:Hr; simpl.
  + destruct (to_result_one_kind c r Hr) as [Hw Hm].
    split; [constructor; assumption|].
    rewrite Hm, Hw. unfold Grounding.to_result in Hr.
    destruct (Grounding.web c) as [w|]; simpl.
    * split; [f_equal; exact IH2 | exact IH3].
    * destruct (Grounding.maps c) as [m|]; [|discriminate]. simpl.
      split; [exact IH2 | f_equal; exact IH3].
  + unfold Grounding.to_result in Hr.
    destruct (Grounding.web c) as [w|]; [discriminate|].
    destruct (Grounding.maps c) as [m|]; [discriminate|]. simpl.
    split; [exact IH1|]. split; [exact IH2 | exact IH3].
Qed.

Lemma filter_complement_length {A} (p q : A -> bool) (l : list A) :
  Forall (fun x => q x = negb (p x)) l ->
  (length (List.filter p l) + length (List.filter q l) = length l)%nat.
Proof.
induction 1 as [|x l Hx _ IH]; simpl; [reflexivity|].
rewrite Hx. destruct (p x); simpl; lia.
Qed.

(** X15 (getGroundedAnswer, GroundingResultDisplay): every result of a
    grounded answer carries either a web source or a place, never both
    and never neither, so the display lists each result exactly once:
    under "Web Sources" one entry per chunk with a [web] part, under
    "Places" one entry per chunk with only a [maps] part; chunks with
    neither part are dropped. *)
Theorem grounded_results_are_listed_once
    (groundingChunks : option (list Grounding.GroundingChunk))
    (results : list Grounding.GroundingResult) :
  Grounding.groundingResults groundingChunks = Some results ->
  let chunks := default [] groundingChunks in
  Forall (fun r => Grounding.has_maps r = negb (Grounding.has_web r)) results
  /\ (length (Grounding.searchResults results) + length (Grounding.mapResults results)
      = length results)%nat
  /\ length (Grounding.searchResults results)
     = length (List.filter (fun c => bool_decide (is_Some (Grounding.web c))) chunks)
  /\ length (Grounding.mapResults results)
     = length (List.filter (fun c => bool_decide (Grounding.web c = None)
                                     && bool_decide (is_Some (Grounding.maps c))) chunks).
Proof.
intros H chunks.
assert (Hrs : results = omap Grounding.to_result chunks).
{ unfold Grounding.groundingResults in H. subst chunks.
  destruct groundingChunks as [[|c rest]|]; try discriminate.
  inversion H. reflexivity. }
destruct (results_by_kind chunks) as (H1 & H2 & H3).
rewrite Hrs. split; [exact H1|]. split; [|split; [exact H2 | exact H3]].
apply (filter_complement_length Grounding.has_web Grounding.has_maps).
eapply Forall_impl; [exact H1|]. simpl. intros r Hr. exact Hr.
Qed.

Lemma grounded_results_are_listed_once_witness :
  let chunks :=
    [ {| Grounding.web := Some {| Grounding.web_uri := Some "https://a.example"%string;
                                  Grounding.web_title := None |};
         Grounding.maps := Some {| Grounding.maps_uri := Some "https://maps.example/1"%string;
                                   Grounding.maps_title := Some "Clinic"%string;
                                   Grounding.placeAnswerSources := None |} |};
      {| Grounding.web := None; Grounding.maps := None |};
      {| Grounding.web := None;
         Grounding.maps := Some {| Grounding.maps_uri := Some "https://maps.example/2"%string;
                                   Grounding.maps_title := Some EmptyString;
                                   Grounding.placeAnswerSources := Some [] |} |} ] in
  exists results,
    Grounding.groundingResults (Some chunks) = Some results
    /\ length results = 2%nat
    /\ (length (Grounding.searchResults results) + length (Grounding.mapResults results)
        = length results)%nat.
Proof.
intros chunks. eexists. split; [reflexivity|]. split; [reflexivity|].
exact (proj1 (proj2 (grounded_results_are_listed_once (Some chunks) _ eq_refl))).
Defined.

(** ** The text chat *)

Lemma extends_by_refl (h : TextChat.Hooks) : extends_by h h [].
Proof. unfold extends_by. rewrite app_nil_r. tauto. Qed.

Lemma extends_by_push (h : TextChat.Hooks) (m : TextChat.ChatMessage) :
  extends_by h (TextChat.push m h) [m].
Proof. unfold extends_by. simpl. tauto. Qed.

Lemma extends_by_trans h1 h2 h3 r1 r2 :
  extends_by h1 h2 r1 -> extends_by h2 h3 r2 -> extends_by h1 h3 (r1 ++ r2).
Proof.
unfold extends_by. intros (A1 & A2 & A3 & A4 & A5 & A6 & A7) (B1 & B2 & B3 & B4 & B5 & B6 & B7).
rewrite B1, A1, app_assoc. repeat split; congruence.
Qed.

Lemma set_last_text_snoc (t : string) (l : list TextChat.ChatMessage) (m : TextChat.ChatMessage) :
  TextChat.set_last_text t (l ++ [m])
  = l ++ [{| TextChat.role := TextChat.role m; TextChat.text := t;
             TextChat.groundingResults := TextChat.groundingResults m;
             TextChat.imagePreviewUrl := TextChat.imagePreviewUrl m |}].
Proof.
unfold TextChat.set_last_text.
rewrite length_app. simpl.
replace (length l + 1 - 1)%nat with (length l + 0)%nat by lia.
rewrite alter_app_r. reflexivity.
Qed.

Lemma consume_placeholder (cs : list (option string)) :
  forall (t : string) (h : TextChat.Hooks) (l : list TextChat.ChatMessage),
  TextChat.chatHistory h = l ++ [TextChat.model_message t None] ->
  let h' := TextChat.consume cs t h in
  TextChat.chatHistory h' = l ++ [TextChat.model_message (t ++ gathered cs) None]
  /\ extends_by (TextChat.setChatHistory (fun _ => []) h)
                (TextChat.setChatHistory (fun _ => []) h') [].
Proof.
induction cs as [|c cs IH]; intros t h l Hh; cbn [TextChat.consume].
- cbv zeta. unfold gathered. simpl. rewrite append_empty_r.
  split; [exact Hh | apply extends_by_refl].
- specialize (IH (t ++ TextChat.chunk_text c)%string
                 (TextChat.setChatHistory
                    (TextChat.set_last_text (t ++ TextChat.chunk_text c)) h) l).
  cbv zeta in *. destruct IH as [IH1 IH2].
  { simpl. rewrite Hh, set_last_text_snoc. reflexivity. }
  split.
  + rewrite IH1. unfold gathered. simpl. rewrite append_assoc. reflexivity.
  + exact IH2.
Qed.

(** An error that [withRetry] throws is one that the wrapped call
    rejected with, or the one it makes up when none was captured. *)
Lemma loop_error_origin {W T : Type} (apiCall : W -> (T + Retry.Thrown) * W)
    (remaining : nat) : forall attempt lastError n ds w e,
  Retry.result (Retry.loop apiCall remaining attempt lastError n ds w) = inr e ->
  e = match lastError with
      | Retry.Nullish => Retry.no_error_captured
      | _ => lastError
      end
  \/ exists w0, fst (apiCall w0) = inr e.
Proof.
induction remaining as [|k IH]; intros attempt lastError n ds w e; simpl.
- intros H. left. destruct lastError; congruence.
- destruct (apiCall w) as [[v|e0] w'] eqn:Hcall; simpl; [discriminate|].
  destruct (Retry.isRateLimitError e0) eqn:Hrl.
  + assert (Hnext : forall att ds',
              Retry.result (Retry.loop apiCall k att e0 (S n) ds' w') = inr e ->
              exists w0, fst (apiCall w0) = inr e).
    { intros att ds' H. destruct (IH att e0 (S n) ds' w' e H) as [-> | H']; [|exact H'].
      exists w. rewrite Hcall. destruct e0; [discriminate Hrl | reflexivity]. }
    destruct (attempt <? _)%nat; intros H; right; eapply Hnext, H.
  + simpl. intros H. right. exists w. rewrite Hcall. exact H.
Qed.

Lemma withRetry_nullish {W T : Type} (apiCall : W -> (T + Retry.Thrown) * W) (w : W) :
  Retry.result (Retry.withRetry apiCall w) = inr Retry.Nullish ->
  exists w0, fst (apiCall w0) = inr Retry.Nullish.
Proof.
intros H. apply loop_error_origin in H as [H | H]; [discriminate H | exact H].
Qed.

Section TextChatFacts.
Context {W : Type}.
Variable generateContent :
  TextChat.Request -> W -> (TextChat.GenerateContentResponse + Retry.Thrown) * W.
Variable sendMessageStream :
  TextChat.Request -> W -> (TextChat.Stream + Retry.Thrown) * W.
Variable combinedPrompt : string -> string.
Variable readAsDataURL : TextChat.File -> W -> option string * W.
Variable activeTab : TextChat.ActiveTab.
Variable locationError : option string.
Variable location : option TextChat.LatLng.

Lemma model_replies_one t g : model_replies [TextChat.model_message t g] 1.
Proof. split; [repeat constructor | simpl; lia]. Qed.

Lemma model_replies_nil n : model_replies [] n.
Proof. split; [constructor | simpl; lia]. Qed.

Lemma stream_extends (stream : TextChat.Stream) (h : TextChat.Hooks) :
  extends_by h
    (TextChat.consume (TextChat.chunks stream) EmptyString
       (TextChat.push (TextChat.model_message EmptyString None) h))
    [TextChat.model_message (gathered (TextChat.chunks stream)) None].
Proof.
destruct (consume_placeholder (TextChat.chunks stream) EmptyString
            (TextChat.push (TextChat.model_message EmptyString None) h)
            (TextChat.chatHistory h) eq_refl) as [H1 H2].
unfold extends_by in *. simpl in *.
split; [exact H1|]. tauto.
Qed.

Lemma grounded_branch_ok ci tool loc img h w :
  block_ok generateContent sendMessageStream readAsDataURL img h w
    (TextChat.ended (TextChat.grounded_branch generateContent ci tool loc h w)).
Proof.
unfold block_ok, TextChat.grounded_branch, TextChat.getGroundedAnswer.
destruct (Retry.result _) as [response|err] eqn:Hres; simpl.
- split; [|exact I]. eexists. split; [apply extends_by_push | apply model_replies_one].
- split.
  + exists []. split; [apply extends_by_refl | apply model_replies_nil].
  + destruct err as [|f]; [|exact I].
    apply withRetry_nullish in Hres as [w0 Hw0].
    left. eauto.
Qed.

Lemma sendChatMessageStream_nullish ci img w w' :
  TextChat.sendChatMessageStream sendMessageStream readAsDataURL ci img w
  = (Some (inr Retry.Nullish), w') ->
  exists request w0, fst (sendMessageStream request w0) = inr Retry.Nullish.
Proof.
unfold TextChat.sendChatMessageStream, TextChat.fileToGenerativePart.
destruct img as [file|].
- destruct (readAsDataURL file w) as [[result|] w1]; [|discriminate].
  intros H. injection H as Hres Hw.
  apply withRetry_nullish in Hres as [w0 Hw0]. eauto.
- intros H. injection H as Hres Hw.
  apply withRetry_nullish in Hres as [w0 Hw0]. eauto.
Qed.

Lemma sendChatMessageStream_stream ci img w w' stream :
  TextChat.sendChatMessageStream sendMessageStream readAsDataURL ci img w
  = (Some (inl stream), w') ->
  exists request w0, fst (sendMessageStream request w0) = inl stream.
Proof.
assert (Hloop : forall (apiCall : W -> (TextChat.Stream + Retry.Thrown) * W)
                  remaining attempt lastError n ds w1,
          Retry.result (Retry.loop apiCall remaining attempt lastError n ds w1)
          = inl stream ->
          exists w0, fst (apiCall w0) = inl stream).
{ intros apiCall remaining.
  induction remaining as [|k IH]; intros attempt lastError n ds w1; simpl;
    [discriminate|].
  destruct (apiCall w1) as [[v|e0] w2] eqn:Hcall; simpl.
  - intros H. exists w1. rewrite Hcall. exact H.
  - destruct (Retry.isRateLimitError e0); [|discriminate].
    destruct (attempt <? _)%nat; apply IH. }
unfold TextChat.sendChatMessageStream, TextChat.fileToGenerativePart.
destruct img as [file|].
- destruct (readAsDataURL file w) as [[result|] w1]; [|discriminate].
  intros H. injection H as Hres Hw.
  apply Hloop in Hres as [w0 Hw0]. eauto.
- intros H. injection H as Hres Hw.
  apply Hloop in Hres as [w0 Hw0]. eauto.
Qed.

Lemma sendChatMessageStream_pending ci img w w' :
  TextChat.sendChatMessageStream sendMessageStream readAsDataURL ci img w
  = (None, w') ->
  exists file, img = Some file /\ fst (readAsDataURL file w) = None.
Proof.
unfold TextChat.sendChatMessageStream, TextChat.fileToGenerativePart.
destruct img as [file|]; [|discriminate].
destruct (readAsDataURL file w) as [[result|] w1] eqn:Hread; [discriminate|].
intros _. exists file. rewrite Hread. split; reflexivity.
Qed.

Lemma try_block_ok ci img deep h w :
  block_ok generateContent sendMessageStream readAsDataURL img h w
    (TextChat.try_block generateContent sendMessageStream combinedPrompt
       readAsDataURL activeTab locationError location ci img deep h w).
Proof.
assert (Hchat :
  block_ok generateContent sendMessageStream readAsDataURL img h w
    (if String.prefix "analyze ingredients:" (Retry.lowercase ci) || deep
     then
       match TextChat.getDeepAnalysis generateContent combinedPrompt ci w with
       | (inl text, w') =>
           (Some (inl tt), TextChat.push (TextChat.model_message text None) h, w')
       | (inr err, w') => (Some (inr err), h, w')
       end
     else
       match TextChat.sendChatMessageStream sendMessageStream readAsDataURL
               ci img w with
       | (Some (inl stream), w') =>
           (Some (match TextChat.failure stream with
                  | Some err => inr err
                  | None => inl tt
                  end),
            TextChat.consume (TextChat.chunks stream) EmptyString
              (TextChat.push (TextChat.model_message EmptyString None) h), w')
       | (Some (inr err), w') => (Some (inr err), h, w')
       | (None, w') => (None, h, w')
       end)).
{ destruct (_ || deep).
  - unfold TextChat.getDeepAnalysis.
    destruct (Retry.result _) as [response|err] eqn:Hres; simpl.
    + split; [|exact I].
      eexists. split; [apply extends_by_push | apply model_replies_one].
    + split.
      * exists []. split; [apply extends_by_refl | apply model_replies_nil].
      * destruct err as [|f]; [|exact I].
        apply withRetry_nullish in Hres as [w0 Hw0]. left. eauto.
  - destruct (TextChat.sendChatMessageStream _ _ _ _ _) as [[[stream|err]|] w'] eqn:Hsend.
    + split; simpl.
      * eexists. split; [apply stream_extends | apply model_replies_one].
      * destruct (TextChat.failure stream) as [[|f]|] eqn:Hfail; try exact I.
        apply sendChatMessageStream_stream in Hsend as (request & w0 & Hw0).
        right. right. eauto.
    + split; simpl.
      * exists []. split; [apply extends_by_refl | apply model_replies_nil].
      * destruct err as [|f]; [|exact I].
        apply sendChatMessageStream_nullish in Hsend. right. left. exact Hsend.
    + split; simpl.
      * exists []. split; [apply extends_by_refl | apply model_replies_nil].
      * split; [reflexivity|].
        apply sendChatMessageStream_pending in Hsend. exact Hsend. }
unfold TextChat.try_block.
destruct activeTab; try exact Hchat.
- apply grounded_branch_ok.
- destruct locationError as [msg|]; [|apply grounded_branch_ok].
  destruct (String.eqb msg EmptyString); simpl; [apply grounded_branch_ok|].
  split; [|exact I].
  eexists. split; [apply extends_by_push | apply model_replies_one].
Qed.

Lemma ignored_is_disabled (h : TextChat.Hooks) :
  TextChat.ignored h = TextChat.isSubmitDisabled h.
Proof.
unfold TextChat.ignored, TextChat.isSubmitDisabled.
destruct (_ && _), (TextChat.isStreaming h), (TextChat.isListening h); reflexivity.
Qed.

Lemma accepted_submit (h : TextChat.Hooks) (w : W) :
  TextChat.isSubmitDisabled h = false ->
  match fst (TextChat.handleChatSubmit generateContent sendMessageStream combinedPrompt
               readAsDataURL activeTab locationError location h w) with
  | TextChat.Completed h' =>
      exists replies,
        TextChat.chatHistory h' = TextChat.chatHistory h ++ user_message h :: replies
        /\ model_replies replies 2
        /\ TextChat.chatInput h' = EmptyString
        /\ TextChat.attachedImage h' = None
        /\ TextChat.attachedImagePreview h' = None
        /\ TextChat.isStreaming h' = false
        /\ TextChat.isListening h' = TextChat.isListening h
        /\ TextChat.useDeepAnalysis h' = TextChat.useDeepAnalysis h
  | TextChat.NeverSettles h' =>
      TextChat.chatHistory h' = TextChat.chatHistory h ++ [user_message h]
      /\ TextChat.chatInput h' = EmptyString
      /\ TextChat.attachedImage h' = None
      /\ TextChat.attachedImagePreview h' = None
      /\ TextChat.isStreaming h' = true
      /\ TextChat.isListening h' = TextChat.isListening h
      /\ TextChat.useDeepAnalysis h' = TextChat.useDeepAnalysis h
      /\ exists file,
           TextChat.attachedImage h = Some file
           /\ fst (readAsDataURL file w) = None
  | TextChat.RenderFails => rejected_with_nullish generateContent sendMessageStream
  end.
Proof.
intros Hd. unfold TextChat.handleChatSubmit.
rewrite ignored_is_disabled, Hd.
set (h1 := TextChat.setIsStreaming true _).
destruct (try_block_ok (TextChat.chatInput h) (TextChat.attachedImage h)
            (TextChat.useDeepAnalysis h) h1 w) as [(r1 & He1 & Hm1 & Hl1) Hend].
destruct (TextChat.try_block _ _ _ _ _ _ _ _ _ _ h1 w) as [[[[u|err]|] h2] w'];
  simpl in He1, Hend |- *.
- exists r1. destruct He1 as (A1 & A2 & A3 & A4 & A5 & A6 & A7).
  rewrite A1, A2, A5, A6, A7, A4. subst h1. simpl.
  rewrite <- app_assoc. simpl. unfold user_message.
  repeat split; try reflexivity; [exact Hm1 | lia].
- destruct err as [|f]; simpl; [exact Hend|].
  exists (r1 ++ [apology f]).
  destruct He1 as (A1 & A2 & A3 & A4 & A5 & A6 & A7).
  rewrite A1, A2, A5, A6, A7, A4. subst h1. simpl.
  rewrite <- !app_assoc. simpl. unfold user_message.
  repeat split; try reflexivity.
  + apply Forall_app. split; [exact Hm1 | repeat constructor].
  + rewrite length_app. simpl. lia.
- destruct Hend as [-> Hfile]. subst h1. simpl.
  unfold user_message. repeat split; try reflexivity. exact Hfile.
Qed.

(** X16 (handleChatSubmit, isSubmitDisabled): a submit leaves the state
    and the outside world untouched exactly when the send button of that
    render is disabled: while a reply is streaming, while the microphone
    is listening, or when the input is blank and no image is attached. *)
Theorem submit_is_ignored_iff_button_disabled (h : TextChat.Hooks) (w : W) :
  TextChat.handleChatSubmit generateContent sendMessageStream combinedPrompt
    readAsDataURL activeTab locationError location h w
  = (TextChat.Completed h, w)
  <-> TextChat.isSubmitDisabled h = true.
Proof.
split.
- intros Heq. destruct (TextChat.isSubmitDisabled h) eqn:Hd; [reflexivity|].
  pose proof (accepted_submit h w Hd) as Hacc.
  rewrite Heq in Hacc. simpl in Hacc. destruct Hacc as (replies & Hh & _).
  apply (f_equal length) in Hh. rewrite length_app in Hh. simpl in Hh. lia.
- intros Hd. unfold TextChat.handleChatSubmit.
  rewrite ignored_is_disabled, Hd. reflexivity.
Qed.

(** X17 (handleChatSubmit): an accepted submit that runs to its end
    appends the user's message (the input as typed, with the preview of
    the attached image) followed by at most two messages of the model,
    clears the input and the attachment, and ends with the streaming flag
    off, whichever tab is active and whether the request succeeds or
    fails.  It does not get there in two cases only.  When the attached
    image cannot be read, the handler waits for good: the user's message
    is shown, no reply follows, and the streaming flag stays on.  When a
    service rejects with [null] or [undefined], or a stream breaks off
    with one, the updater of the apology raises and the render of the
    screen fails. *)
Theorem accepted_submit_appends_the_exchange (h : TextChat.Hooks) (w : W) :
  TextChat.isSubmitDisabled h = false ->
  match fst (TextChat.handleChatSubmit generateContent sendMessageStream combinedPrompt
               readAsDataURL activeTab locationError location h w) with
  | TextChat.Completed h' =>
      exists replies,
        TextChat.chatHistory h'
        = TextChat.chatHistory h
          ++ {| TextChat.role := Chat.USER; TextChat.text := TextChat.chatInput h;
                TextChat.groundingResults := None;
                TextChat.imagePreviewUrl :=
                  Grounding.or_else (TextChat.attachedImagePreview h) None |}
             :: replies
        /\ Forall (fun m => TextChat.role m = Chat.MODEL) replies
        /\ (length replies <= 2)%nat
        /\ TextChat.chatInput h' = EmptyString
        /\ TextChat.attachedImage h' = None
        /\ TextChat.attachedImagePreview h' = None
        /\ TextChat.isStreaming h' = false
        /\ TextChat.isListening h' = TextChat.isListening h
        /\ TextChat.useDeepAnalysis h' = TextChat.useDeepAnalysis h
  | TextChat.NeverSettles h' =>
      TextChat.chatHistory h'
      = TextChat.chatHistory h
        ++ [{| TextChat.role := Chat.USER; TextChat.text := TextChat.chatInput h;
               TextChat.groundingResults := None;
               TextChat.imagePreviewUrl :=
                 Grounding.or_else (TextChat.attachedImagePreview h) None |}]
      /\ TextChat.chatInput h' = EmptyString
      /\ TextChat.attachedImage h' = None
      /\ TextChat.attachedImagePreview h' = None
      /\ TextChat.isStreaming h' = true
      /\ TextChat.isListening h' = TextChat.isListening h
      /\ TextChat.useDeepAnalysis h' = TextChat.useDeepAnalysis h
      /\ exists file,
           TextChat.attachedImage h = Some file
           /\ fst (readAsDataURL file w) = None
  | TextChat.RenderFails =>
      (exists request w0, fst (generateContent request w0) = inr Retry.Nullish)
      \/ (exists request w0, fst (sendMessageStream request w0) = inr Retry.Nullish)
      \/ (exists request w0 stream,
            fst (sendMessageStream request w0) = inl stream
            /\ TextChat.failure stream = Some Retry.Nullish)
  end.
Proof.
intros Hd. pose proof (accepted_submit h w Hd) as H.
destruct (fst _) as [h'|h'|]; [|exact H|exact H].
destruct H as (replies & H1 & [H2 H3] & H4).
exists replies. split; [exact H1|]. split; [exact H2|]. split; [exact H3 | exact H4].
Qed.

End TextChatFacts.

Lemma accepted_submit_appends_the_exchange_witness :
  let generateContent :=
    fun (_ : TextChat.Request) (w : nat) =>
      (inr Retry.Nullish : TextChat.GenerateContentResponse + Retry.Thrown, S w) in
  let sendMessageStream :=
    fun (_ : TextChat.Request) (w : nat) =>
      (inl {| TextChat.chunks := [Some "Hello"%string];
              TextChat.failure := Some Retry.too_many_requests |}
       : TextChat.Stream + Retry.Thrown, S w) in
  let readAsDataURL :=
    fun (_ : TextChat.File) (w : nat) =>
      (Some "data:image/png;base64,AAAA"%string, S w) in
  let h := {| TextChat.chatHistory := []; TextChat.chatInput := EmptyString;
              TextChat.isStreaming := false; TextChat.useDeepAnalysis := false;
              TextChat.attachedImage :=
                Some {| TextChat.file := 1; TextChat.type := "image/png" |};
              TextChat.attachedImagePreview := Some "data:image/png;base64,AAAA"%string;
              TextChat.isListening := false |} in
  TextChat.isSubmitDisabled h = false
  /\ exists h',
       fst (TextChat.handleChatSubmit generateContent sendMessageStream (fun p => p)
              readAsDataURL TextChat.CHAT None None h 0%nat)
       = TextChat.Completed h'
       /\ length (TextChat.chatHistory h') = 3%nat
       /\ TextChat.isStreaming h' = false.
Proof.
intros generateContent sendMessageStream readAsDataURL h.
split; [reflexivity|].
pose proof (accepted_submit_appends_the_exchange generateContent sendMessageStream
              (fun p => p) readAsDataURL TextChat.CHAT None None h 0%nat eq_refl)
  as H.
destruct (fst _) as [h'|h'|] eqn:E; [|discriminate E|discriminate E].
exists h'. split; [reflexivity|].
destruct H as (replies & _ & _ & _ & _ & _ & _ & Hs & _).
split; [|exact Hs].
inversion E. reflexivity.
Defined.

(** X18 (handleChatSubmit, streaming branch): on the tabs other than
    Search and Maps, for an input that does not ask for a deep analysis,
    once the stream has opened the reply shown is one message holding the
    texts of all chunks received, in order ([undefined] for a chunk
    without text); when the stream breaks off with an error object, that
    partial reply stays and the apology follows it; when it breaks off
    with [null] or [undefined], the render of the screen fails. *)
Theorem streamed_reply_gathers_the_chunks {W : Type}
    (generateContent :
       TextChat.Request -> W -> (TextChat.GenerateContentResponse + Retry.Thrown) * W)
    (sendMessageStream : TextChat.Request -> W -> (TextChat.Stream + Retry.Thrown) * W)
    (combinedPrompt : string -> string)
    (readAsDataURL : TextChat.File -> W -> option string * W)
    (activeTab : TextChat.ActiveTab)
    (locationError : option string) (location : option TextChat.LatLng)
    (h : TextChat.Hooks) (w w' : W) (stream : TextChat.Stream) :
  TextChat.isSubmitDisabled h = false ->
  activeTab <> TextChat.SEARCH ->
  activeTab <> TextChat.MAPS ->
  String.prefix "analyze ingredients:" (Retry.lowercase (TextChat.chatInput h)) = false ->
  TextChat.useDeepAnalysis h = false ->
  TextChat.sendChatMessageStream sendMessageStream readAsDataURL
    (TextChat.chatInput h) (TextChat.attachedImage h) w = (Some (inl stream), w') ->
  let after := TextChat.handleChatSubmit generateContent sendMessageStream combinedPrompt
                 readAsDataURL activeTab locationError location h w in
  match TextChat.failure stream with
  | None =>
      exists h',
        fst after = TextChat.Completed h'
        /\ TextChat.chatHistory h'
           = TextChat.chatHistory h
             ++ [user_message h;
                 TextChat.model_message (gathered (TextChat.chunks stream)) None]
        /\ TextChat.isStreaming h' = false
  | Some (Retry.Err f) =>
      exists h',
        fst after = TextChat.Completed h'
        /\ TextChat.chatHistory h'
           = TextChat.chatHistory h
             ++ [user_message h;
                 TextChat.model_message (gathered (TextChat.chunks stream)) None;
                 apology f]
        /\ TextChat.isStreaming h' = false
  | Some Retry.Nullish => fst after = TextChat.RenderFails
  end
  /\ snd after = w'.
Proof.
intros Hd Hs Hm Hp Hda Hstream. cbv zeta.
unfold TextChat.handleChatSubmit. rewrite ignored_is_disabled, Hd.
set (h1 := TextChat.setIsStreaming true _).
assert (Htry :
  TextChat.try_block generateContent sendMessageStream combinedPrompt
    readAsDataURL activeTab
    locationError location (TextChat.chatInput h) (TextChat.attachedImage h)
    (TextChat.useDeepAnalysis h) h1 w
  = (Some (match TextChat.failure stream with
           | Some err => inr err
           | None => inl tt
           end),
     TextChat.consume (TextChat.chunks stream) EmptyString
       (TextChat.push (TextChat.model_message EmptyString None) h1), w')).
{ unfold TextChat.try_block. rewrite Hp, Hda, Hstream. simpl.
  destruct activeTab; try reflexivity; congruence. }
rewrite Htry.
pose proof (stream_extends stream h1) as (A1 & _).
destruct (TextChat.failure stream) as [[|f]|]; simpl;
  [split; reflexivity | |];
  (split; [|reflexivity]); eexists; (split; [reflexivity|]); simpl; rewrite A1;
  subst h1; simpl; rewrite <- ?app_assoc; simpl; (split; reflexivity).
Qed.

Lemma streamed_reply_gathers_the_chunks_witness :
  let reply := [Some "Use "; None; Some " daily."]%string in
  let sendMessageStream :=
    fun (_ : TextChat.Request) (w : nat) =>
      (inl {| TextChat.chunks := reply; TextChat.failure := None |}
       : TextChat.Stream + Retry.Thrown, S w) in
  let generateContent :=
    fun (_ : TextChat.Request) (w : nat) =>
      (inr Retry.Nullish : TextChat.GenerateContentResponse + Retry.Thrown, w) in
  let readAsDataURL :=
    fun (_ : TextChat.File) (w : nat) => (@None string, w) in
  let h := {| TextChat.chatHistory := []; TextChat.chatInput := " which sunscreen? ";
              TextChat.isStreaming := false; TextChat.useDeepAnalysis := false;
              TextChat.attachedImage := None; TextChat.attachedImagePreview := None;
              TextChat.isListening := false |} in
  exists h',
    fst (TextChat.handleChatSubmit generateContent sendMessageStream (fun p => p)
           readAsDataURL TextChat.CHAT None None h 0%nat)
    = TextChat.Completed h'
    /\ map TextChat.text (TextChat.chatHistory h')
       = [" which sunscreen? "; "Use undefined daily."]%string.
Proof.
intros reply sendMessageStream generateContent readAsDataURL h.
destruct (proj1 (streamed_reply_gathers_the_chunks generateContent sendMessageStream
                   (fun p => p) readAsDataURL TextChat.CHAT None None h
                   0%nat 1%nat
                   {| TextChat.chunks := reply; TextChat.failure := None |}
                   eq_refl ltac:(discriminate) ltac:(discriminate)
                   eq_refl eq_refl eq_refl)) as (h' & Hafter & Hh & _).
exists h'. split; [exact Hafter|]. rewrite Hh. reflexivity.
Defined.

(** X19 (handleChatSubmit, Maps tab): while the location is unavailable,
    an accepted submit on the Maps tab is answered with the location
    error itself and no request leaves the screen: the outside world is
    untouched whatever the services would have done. *)
Theorem location_error_is_answered_without_a_request {W : Type}
    (generateContent :
       TextChat.Request -> W -> (TextChat.GenerateContentResponse + Retry.Thrown) * W)
    (sendMessageStream : TextChat.Request -> W -> (TextChat.Stream + Retry.Thrown) * W)
    (combinedPrompt : string -> string)
    (readAsDataURL : TextChat.File -> W -> option string * W)
    (location : option TextChat.LatLng)
    (message : string) (h : TextChat.Hooks) (w : W) :
  TextChat.isSubmitDisabled h = false ->
  message <> EmptyString ->
  let after := TextChat.handleChatSubmit generateContent sendMessageStream combinedPrompt
                 readAsDataURL TextChat.MAPS (Some message) location h w in
  exists h',
    fst after = TextChat.Completed h'
    /\ TextChat.chatHistory h'
       = TextChat.chatHistory h ++ [user_message h; TextChat.model_message message None]
    /\ TextChat.isStreaming h' = false
    /\ snd after = w.
Proof.
intros Hd Hm. cbv zeta.
unfold TextChat.handleChatSubmit. rewrite ignored_is_disabled, Hd.
unfold TextChat.try_block.
destruct (String.eqb_spec message EmptyString) as [|_]; [contradiction|].
simpl. eexists. split; [reflexivity|]. simpl. rewrite <- app_assoc.
split; [reflexivity|]. split; reflexivity.
Qed.

Lemma location_error_is_answered_without_a_request_witness :
  let generateContent :=
    fun (_ : TextChat.Request) (w : nat) =>
      (inr Retry.Nullish : TextChat.GenerateContentResponse + Retry.Thrown, S w) in
  let sendMessageStream :=
    fun (_ : TextChat.Request) (w : nat) =>
      (inr Retry.Nullish : TextChat.Stream + Retry.Thrown, S w) in
  let readAsDataURL :=
    fun (_ : TextChat.File) (w : nat) => (@None string, S w) in
  let h := {| TextChat.chatHistory := []; TextChat.chatInput := "dermatologists near me";
              TextChat.isStreaming := false; TextChat.useDeepAnalysis := false;
              TextChat.attachedImage := None; TextChat.attachedImagePreview := None;
              TextChat.isListening := false |} in
  snd (TextChat.handleChatSubmit generateContent sendMessageStream (fun p => p)
         readAsDataURL TextChat.MAPS (Some "Location access denied."%string)
         None h 7%nat) = 7%nat.
Proof.
intros generateContent sendMessageStream readAsDataURL h.
destruct (location_error_is_answered_without_a_request
            generateContent sendMessageStream (fun p => p) readAsDataURL None
            "Location access denied." h 7%nat eq_refl ltac:(discriminate))
  as (h' & _ & _ & _ & Hw).
exact Hw.
Defined.

Lemma search_submit {W : Type}
    (generateContent :
       TextChat.Request -> W -> (TextChat.GenerateContentResponse + Retry.Thrown) * W)
    (sendMessageStream : TextChat.Request -> W -> (TextChat.Stream + Retry.Thrown) * W)
    (combinedPrompt : string -> string)
    (readAsDataURL : TextChat.File -> W -> option string * W)
    (locationError : option string) (location : option TextChat.LatLng)
    (h : TextChat.Hooks) (w : W) :
  TextChat.isSubmitDisabled h = false ->
  let R := Retry.withRetry
             (generateContent
                (TextChat.Grounded (TextChat.chatInput h) TextChat.googleSearch None)) w in
  let after := TextChat.handleChatSubmit generateContent sendMessageStream combinedPrompt
                 readAsDataURL TextChat.SEARCH locationError location h w in
  match Retry.result R with
  | inr Retry.Nullish => fst after = TextChat.RenderFails
  | answer =>
      exists h',
        fst after = TextChat.Completed h'
        /\ TextChat.chatHistory h'
           = TextChat.chatHistory h
             ++ [user_message h;
                 match answer with
                 | inl response =>
                     TextChat.model_message (TextChat.response_text response)
                       (Grounding.groundingResults (TextChat.groundingChunks response))
                 | inr (Retry.Err f) => apology f
                 | inr Retry.Nullish => user_message h
                 end]
        /\ TextChat.isStreaming h' = false
  end
  /\ snd after = Retry.world R.
Proof.
intros Hd. cbv zeta.
unfold TextChat.handleChatSubmit. rewrite ignored_is_disabled, Hd.
unfold TextChat.try_block, TextChat.grounded_branch, TextChat.getGroundedAnswer.
destruct (Retry.result _) as [response|[|f]]; simpl;
  [| split; reflexivity |];
  (split; [|reflexivity]); eexists; (split; [reflexivity|]); simpl;
  rewrite <- ?app_assoc; simpl; (split; reflexivity).
Qed.

(** X20 (handleChatSubmit, getGroundedAnswer, withRetry): on the Search
    tab, when the first [k < 5] attempts are rejected as rate-limited and
    the next one answers, the reply shown is that answer's text with the
    grounding results made from its chunks, after exactly [k + 1]
    requests. *)
Theorem search_reply_survives_rate_limits {W : Type}
    (generateContent :
       TextChat.Request -> W -> (TextChat.GenerateContentResponse + Retry.Thrown) * W)
    (sendMessageStream : TextChat.Request -> W -> (TextChat.Stream + Retry.Thrown) * W)
    (combinedPrompt : string -> string)
    (readAsDataURL : TextChat.File -> W -> option string * W)
    (locationError : option string) (location : option TextChat.LatLng)
    (h : TextChat.Hooks) (w : W) (k : nat) (response : TextChat.GenerateContentResponse) :
  let apiCall :=
    generateContent (TextChat.Grounded (TextChat.chatInput h) TextChat.googleSearch None) in
  TextChat.isSubmitDisabled h = false ->
  (k < 5)%nat ->
  (forall j, (j < k)%nat -> Retry.rate_limited_at apiCall j w) ->
  Retry.outcome_at apiCall k w = inl response ->
  let after := TextChat.handleChatSubmit generateContent sendMessageStream combinedPrompt
                 readAsDataURL TextChat.SEARCH locationError location h w in
  exists h',
    fst after = TextChat.Completed h'
    /\ TextChat.chatHistory h'
       = TextChat.chatHistory h
         ++ [user_message h;
             TextChat.model_message (TextChat.response_text response)
               (Grounding.groundingResults (TextChat.groundingChunks response))]
    /\ snd after = Retry.world_after apiCall (S k) w.
Proof.
intros apiCall Hd Hk Hrl Hout. cbv zeta.
pose proof (search_submit generateContent sendMessageStream combinedPrompt
              readAsDataURL locationError location h w Hd) as Hsub.
cbv zeta in Hsub.
destruct (loop_first_success apiCall Retry.MAX_RETRIES k 0 Retry.Nullish 0 [] w
            response Hk Hrl Hout) as (Hres & _ & Hworld).
unfold Retry.withRetry in Hsub. fold apiCall in Hsub.
rewrite Hres, Hworld in Hsub.
destruct Hsub as [(h' & H1 & H2 & _) H3].
exists h'. split; [exact H1 | split; [exact H2 | exact H3]].
Qed.

Lemma search_reply_survives_rate_limits_witness :
  let answer := {| TextChat.response_text := "SPF 50 is trending.";
                   TextChat.groundingChunks := None |} in
  let generateContent :=
    fun (_ : TextChat.Request) =>
      Retry.scripted (T := TextChat.GenerateContentResponse) Retry.Nullish in
  let sendMessageStream :=
    fun (_ : TextChat.Request) (w : list (TextChat.GenerateContentResponse + Retry.Thrown)) =>
      (inr Retry.Nullish : TextChat.Stream + Retry.Thrown, w) in
  let readAsDataURL :=
    fun (_ : TextChat.File) (w : list (TextChat.GenerateContentResponse + Retry.Thrown)) =>
      (@None string, w) in
  let h := {| TextChat.chatHistory := []; TextChat.chatInput := "sunscreen trends";
              TextChat.isStreaming := false; TextChat.useDeepAnalysis := false;
              TextChat.attachedImage := None; TextChat.attachedImagePreview := None;
              TextChat.isListening := false |} in
  let w := [inr Retry.too_many_requests; inr Retry.too_many_requests; inl answer] in
  exists h',
    fst (TextChat.handleChatSubmit generateContent sendMessageStream (fun p => p)
           readAsDataURL TextChat.SEARCH None None h w)
    = TextChat.Completed h'
    /\ map TextChat.text (TextChat.chatHistory h')
       = ["sunscreen trends"; "SPF 50 is trending."]%string.
Proof.
intros answer generateContent sendMessageStream readAsDataURL h w.
assert (Hrl : forall j, (j < 2)%nat ->
          Retry.rate_limited_at
            (generateContent
               (TextChat.Grounded (TextChat.chatInput h) TextChat.googleSearch None)) j w).
{ intros j Hj. exists Retry.too_many_requests.
  destruct j as [|[|j]]; [split; reflexivity | split; reflexivity | lia]. }
destruct (search_reply_survives_rate_limits generateContent sendMessageStream
            (fun p => p) readAsDataURL None None h w 2 answer
            eq_refl ltac:(lia) Hrl eq_refl) as (h' & Hafter & Hh & _).
exists h'. split; [exact Hafter|]. rewrite Hh. reflexivity.
Defined.

(** X21 (handleChatSubmit, getGroundedAnswer, withRetry): on the Search
    tab, when all five attempts are rejected as rate-limited, the user is
    shown one apology carrying the message of the fifth error, after
    exactly five requests. *)
Theorem search_apologises_after_five_rate_limits {W : Type}
    (generateContent :
       TextChat.Request -> W -> (TextChat.GenerateContentResponse + Retry.Thrown) * W)
    (sendMessageStream : TextChat.Request -> W -> (TextChat.Stream + Retry.Thrown) * W)
    (combinedPrompt : string -> string)
    (readAsDataURL : TextChat.File -> W -> option string * W)
    (locationError : option string) (location : option TextChat.LatLng)
    (h : TextChat.Hooks) (w : W) :
  let apiCall :=
    generateContent (TextChat.Grounded (TextChat.chatInput h) TextChat.googleSearch None) in
  TextChat.isSubmitDisabled h = false ->
  (forall j, (j < 5)%nat -> Retry.rate_limited_at apiCall j w) ->
  let after := TextChat.handleChatSubmit generateContent sendMessageStream combinedPrompt
                 readAsDataURL TextChat.SEARCH locationError location h w in
  exists f h',
    Retry.outcome_at apiCall 4 w = inr (Retry.Err f)
    /\ fst after = TextChat.Completed h'
    /\ TextChat.chatHistory h'
       = TextChat.chatHistory h ++ [user_message h; apology f]
    /\ TextChat.isStreaming h' = false
    /\ snd after = Retry.world_after apiCall 5 w.
Proof.
intros apiCall Hd Hrl. cbv zeta.
pose proof (search_submit generateContent sendMessageStream combinedPrompt
              readAsDataURL locationError location h w Hd) as Hsub.
cbv zeta in Hsub.
destruct (loop_exhausted apiCall Retry.MAX_RETRIES 0 Retry.Nullish 0 [] w Hrl)
  as (_ & Hworld & e & Hout & Hres).
destruct (Hrl 4%nat ltac:(lia)) as (e' & Hout' & Hrle).
assert (e' = e) by congruence. subst e'.
destruct e as [|f]; [discriminate|].
unfold Retry.withRetry in Hsub. fold apiCall in Hsub.
rewrite Hres, Hworld in Hsub.
destruct Hsub as [(h' & H1 & H2 & H3) H4].
exists f, h'. split; [exact Hout|]. split; [exact H1|]. split; [exact H2|].
split; [exact H3 | exact H4].
Qed.

Lemma search_apologises_after_five_rate_limits_witness :
  let generateContent :=
    fun (_ : TextChat.Request) =>
      Retry.scripted (T := TextChat.GenerateContentResponse)
        (Retry.Err {| Retry.status := Some "RESOURCE_EXHAUSTED"%string;
                      Retry.httpStatus := None;
                      Retry.message := Some "quota exceeded"%string |}) in
  let sendMessageStream :=
    fun (_ : TextChat.Request) (w : list (TextChat.GenerateContentResponse + Retry.Thrown)) =>
      (inr Retry.Nullish : TextChat.Stream + Retry.Thrown, w) in
  let readAsDataURL :=
    fun (_ : TextChat.File) (w : list (TextChat.GenerateContentResponse + Retry.Thrown)) =>
      (@None string, w) in
  let h := {| TextChat.chatHistory := []; TextChat.chatInput := "sunscreen trends";
              TextChat.isStreaming := false; TextChat.useDeepAnalysis := false;
              TextChat.attachedImage := None; TextChat.attachedImagePreview := None;
              TextChat.isListening := false |} in
  exists f h',
    fst (TextChat.handleChatSubmit generateContent sendMessageStream (fun p => p)
           readAsDataURL TextChat.SEARCH None None h [])
    = TextChat.Completed h'
    /\ map TextChat.text (TextChat.chatHistory h')
       = ["sunscreen trends"%string; TextChat.text (apology f)].
Proof.
intros generateContent sendMessageStream readAsDataURL h.
assert (Hrl : forall j, (j < 5)%nat ->
          Retry.rate_limited_at
            (generateContent
               (TextChat.Grounded (TextChat.chatInput h) TextChat.googleSearch None)) j []).
{ intros j Hj. eexists. split.
  - unfold Retry.outcome_at.
    assert (Hw : forall n, Retry.world_after
                   (generateContent
                      (TextChat.Grounded (TextChat.chatInput h) TextChat.googleSearch None))
                   n [] = []).
    { induction n as [|n IH]; [reflexivity | exact IH]. }
    rewrite Hw. reflexivity.
  - reflexivity. }
destruct (search_apologises_after_five_rate_limits generateContent sendMessageStream
            (fun p => p) readAsDataURL None None h [] eq_refl Hrl)
  as (f & h' & _ & Hafter & Hh & _).
exists f, h'. split; [exact Hafter|]. rewrite Hh. reflexivity.
Defined.

(** ** The shopping cart *)


Lemma map_url_retarget (g : Cart.CartItem -> Cart.number) (u : string) (cart : list Cart.CartItem) :
  map Cart.url
    (map (fun item => if String.eqb (Cart.url item) u
                      then Cart.with_quantity (g item) item else item) cart)
  = map Cart.url cart.
Proof.
rewrite map_map. apply map_ext. intros item.
destruct (String.eqb (Cart.url item) u); reflexivity.
Qed.

Lemma positive_spec (q : Cart.number) :
  Cart.positive q = true <-> exists z, q = Cart.Int z /\ 0 < z.
Proof.
destruct q as [z|]; simpl.
- rewrite Z.ltb_lt. split; [intros H; exists z; split; [reflexivity | exact H]|].
  intros (z' & [= <-] & H). exact H.
- split; [discriminate | intros (z & H & _); discriminate].
Qed.

(** The sum of two integers that are not negative: exact up to 2^53,
    and never below 2^53 beyond. *)
Lemma plus_spec (x y : Z) :
  0 <= x -> 0 <= y ->
  exists s,
    Cart.plus (Cart.Int x) (Cart.Int y) = Cart.Int s
    /\ 0 <= s
    /\ (x + y <= 2 ^ 53 -> s = x + y)
    /\ (2 ^ 53 <= x + y -> 2 ^ 53 <= s).
Proof.
intros Hx Hy. eexists. split; [reflexivity|].
assert (Hexact : x + y <= 2 ^ 53 ->
          Qfloor (IEEE.binary64 (inject_Z (x + y))) = x + y).
{ intros Hle.
  rewrite (Qfloor_comp _ _ (binary64_Z (x + y) ltac:(lia))). apply Qfloor_Z. }
assert (Hbig : 2 ^ 53 <= x + y ->
          2 ^ 53 <= Qfloor (IEEE.binary64 (inject_Z (x + y)))).
{ intros Hge.
  assert (Hle : (inject_Z (2 ^ 53) <= inject_Z (x + y))%Q)
    by (rewrite <- Zle_Qle; exact Hge).
  assert (H0 : (0 <= inject_Z (2 ^ 53))%Q)
    by (change 0%Q with (inject_Z 0); rewrite <- Zle_Qle; lia).
  pose proof (binary64_mono _ _ H0 Hle) as Hmono.
  rewrite (binary64_Z (2 ^ 53) ltac:(lia)) in Hmono.
  apply Qfloor_resp_le in Hmono. rewrite Qfloor_Z in Hmono. exact Hmono. }
split; [|split; [exact Hexact | exact Hbig]].
destruct (Z_le_gt_dec (x + y) (2 ^ 53)) as [Hle|Hgt].
- rewrite Hexact by exact Hle. lia.
- specialize (Hbig ltac:(lia)). lia.
Qed.

Lemma exact_count_nonneg (cart : list Cart.CartItem) :
  Forall (fun item => exists z, Cart.quantity item = Cart.Int z /\ 0 < z) cart ->
  0 <= Cart.exact_count cart.
Proof.
induction 1 as [|item cart (z & Hz & Hpos) _ IH]; simpl; [lia|].
rewrite Hz. lia.
Qed.

Lemma handleAddToCart_well_formed (p : Cart.ShoppingProduct) (cart : list Cart.CartItem) :
  Cart.well_formed cart -> Cart.well_formed (Cart.handleAddToCart p cart).
Proof.
intros [Hnd Hq]. unfold Cart.handleAddToCart.
destruct (List.find _ cart) as [x|] eqn:Hfind.
- split.
  + rewrite (map_url_retarget (fun item => Cart.plus (Cart.quantity item) (Cart.Int 1))).
    exact Hnd.
  + apply List.Forall_forall. intros item Hin.
    apply in_map_iff in Hin as (y & <- & Hy).
    rewrite List.Forall_forall in Hq. destruct (Hq y Hy) as (z & Hz & Hpos).
    destruct (String.eqb (Cart.url y) (Cart.shoppingUrl p)).
    * destruct (plus_spec z 1 ltac:(lia) ltac:(lia)) as (s & Hs & Hs0 & Hexact & Hbig).
      exists s. simpl. rewrite Hz. split; [exact Hs|].
      destruct (Z_le_gt_dec (z + 1) (2 ^ 53)) as [Hle|Hgt].
      -- rewrite Hexact by exact Hle. lia.
      -- specialize (Hbig ltac:(lia)). lia.
    * exists z. split; assumption.
- split.
  + rewrite map_app. simpl. apply NoDup_app. split; [exact Hnd|]. split.
    * intros s Hs Hin. apply list_elem_of_singleton in Hin. subst s.
      apply list_elem_of_In in Hs. apply in_map_iff in Hs as (y & Hy & Hin).
      pose proof (find_none _ _ Hfind y Hin) as Hne. simpl in Hne.
      unfold Cart.url in Hne, Hy. rewrite Hy, String.eqb_refl in Hne. discriminate.
    * apply NoDup_singleton.
  + apply Forall_app. split; [exact Hq|].
    constructor; [|constructor]. exists 1. split; [reflexivity | lia].
Qed.





(** The badge adds the quantities up one by one, rounding each time:
    the result is the exact total as long as that is at most 2^53, and
    is at least 2^53 otherwise. *)
Lemma cartItemCount_from (cart : list Cart.CartItem) : forall a,
  0 <= a ->
  Forall (fun item => exists z, Cart.quantity item = Cart.Int z /\ 0 < z) cart ->
  exists n,
    foldl (fun total item => Cart.plus total (Cart.quantity item)) (Cart.Int a) cart
    = Cart.Int n
    /\ 0 <= n
    /\ (a + Cart.exact_count cart <= 2 ^ 53 -> n = a + Cart.exact_count cart)
    /\ (2 ^ 53 <= a + Cart.exact_count cart -> 2 ^ 53 <= n).
Proof.
induction cart as [|item cart IH]; intros a Ha Hq.
- exists a. simpl. split; [reflexivity|]. split; [exact Ha|]. split; lia.
- apply Forall_cons in Hq as [(z & Hz & Hpos) Hq].
  cbn [foldl].
  change (Cart.exact_count (item :: cart))
    with (match Cart.quantity item with
          | Cart.Int z => z + Cart.exact_count cart
          | Cart.NaN => Cart.exact_count cart
          end).
  rewrite Hz.
  destruct (plus_spec a z Ha ltac:(lia)) as (s & Hs & Hs0 & Hexact & Hbig).
  rewrite Hs.
  destruct (IH s Hs0 Hq) as (n & Hn & Hn0 & Hnexact & Hnbig).
  pose proof (exact_count_nonneg cart Hq) as Hrest.
  exists n. split; [exact Hn|]. split; [exact Hn0|]. split.
  + intros Hle. rewrite Hexact in * by lia. rewrite Hnexact by lia. lia.
  + intros Hge. apply Hnbig.
    destruct (Z_le_gt_dec (a + z) (2 ^ 53)) as [Hle|Hgt].
    * rewrite Hexact by exact Hle. lia.
    * specialize (Hbig ltac:(lia)). lia.
Qed.

(** Adding one to the line of [u], where no total has reached 2^53. *)
Lemma retarget_exact_count (u : string) (cart : list Cart.CartItem) :
  Cart.well_formed cart ->
  In u (map Cart.url cart) ->
  Cart.exact_count cart < 2 ^ 53 ->
  Cart.exact_count
    (map (fun item => if String.eqb (Cart.url item) u
                      then Cart.with_quantity (Cart.plus (Cart.quantity item) (Cart.Int 1)) item
                      else item) cart)
  = Cart.exact_count cart + 1.
Proof.
induction cart as [|item cart IH]; intros [Hnd Hq] Hin Hsmall; [destruct Hin|].
simpl in Hnd. apply NoDup_cons in Hnd as [Hx Hnd].
apply Forall_cons in Hq as [(z & Hz & Hpos) Hq].
pose proof (exact_count_nonneg cart Hq) as Hrest.
change (Cart.exact_count (item :: cart))
  with (match Cart.quantity item with
        | Cart.Int z => z + Cart.exact_count cart
        | Cart.NaN => Cart.exact_count cart
        end) in *.
rewrite Hz in *. cbn [map].
match goal with
| |- Cart.exact_count (?x :: ?l) = _ =>
    change (Cart.exact_count (x :: l))
      with (match Cart.quantity x with
            | Cart.Int z => z + Cart.exact_count l
            | Cart.NaN => Cart.exact_count l
            end)
end.
destruct (String.eqb_spec (Cart.url item) u) as [Hu|Hu].
- cbn [Cart.with_quantity Cart.quantity]. rewrite Hz.
  destruct (plus_spec z 1 ltac:(lia) ltac:(lia)) as (s & Hs & _ & Hexact & _).
  rewrite Hs, Hexact by lia.
  assert (Hid : map (fun item0 => if String.eqb (Cart.url item0) u
                        then Cart.with_quantity
                               (Cart.plus (Cart.quantity item0) (Cart.Int 1)) item0
                        else item0) cart = cart).
  { rewrite <- (map_id cart) at 2. apply map_ext_in. intros y Hy.
    destruct (String.eqb_spec (Cart.url y) u) as [Hy'|]; [|reflexivity].
    exfalso. apply Hx. apply list_elem_of_In. rewrite Hu, <- Hy'.
    apply in_map. exact Hy. }
  rewrite Hid. lia.
- rewrite Hz. rewrite IH; [lia | split; assumption | | lia].
  destruct Hin as [Hin|Hin]; [contradiction | exact Hin].
Qed.


(** X23 (handleAddToCart, TabButton): on a cart with one line per
    product whose quantities add up to less than 2^53, the count on the
    Store tab is that total, and adding a product raises it by exactly
    one, whether the product was already in the cart or not.  (From 2^53
    on the quantities and the count are doubles that no longer tell an
    integer from its successor.) *)
Theorem add_to_cart_raises_the_count_by_one
    (cart : list Cart.CartItem) (p : Cart.ShoppingProduct) :
  Cart.well_formed cart ->
  Cart.exact_count cart < 2 ^ 53 ->
  Cart.cartItemCount cart = Cart.Int (Cart.exact_count cart)
  /\ 0 <= Cart.exact_count cart
  /\ Cart.cartItemCount (Cart.handleAddToCart p cart)
     = Cart.Int (Cart.exact_count cart + 1).
Proof.
intros Hwf Hsum. pose proof Hwf as [Hnd Hq].
destruct (cartItemCount_from cart 0 ltac:(lia) Hq) as (n & Hn & Hn0 & Hexact & _).
assert (Hneq : n = Cart.exact_count cart) by (rewrite Hexact; lia).
subst n.
split; [exact Hn|]. split; [exact Hn0|].
pose proof (handleAddToCart_well_formed p cart Hwf) as [_ Hq'].
assert (Hsum' : Cart.exact_count (Cart.handleAddToCart p cart)
                = Cart.exact_count cart + 1).
{ unfold Cart.handleAddToCart.
  destruct (List.find _ cart) as [x|] eqn:Hfind.
  - apply retarget_exact_count; [exact Hwf | | exact Hsum].
    apply find_some in Hfind as [Hin Heq]. apply String.eqb_eq in Heq.
    rewrite <- Heq. apply in_map. exact Hin.
  - clear. induction cart as [|item cart IH]; simpl; [reflexivity|].
    rewrite IH. destruct (Cart.quantity item); lia. }
destruct (cartItemCount_from (Cart.handleAddToCart p cart) 0 ltac:(lia) Hq')
  as (n' & Hn' & _ & Hexact' & _).
unfold Cart.cartItemCount. rewrite Hn'. f_equal.
rewrite Hexact' by lia. lia.
Qed.

(** X24 (handleUpdateCartQuantity, handleRemoveFromCart): on a cart with
    one positive line per product, setting a quantity that is zero,
    negative or not a number removes the line, exactly as the remove
    button does; setting a positive quantity rewrites that line and
    drops nothing. *)
Theorem update_to_nothing_removes_the_line
    (cart : list Cart.CartItem) (u : string) (q : Cart.number) :
  Cart.well_formed cart ->
  Cart.handleUpdateCartQuantity u q cart
  = if Cart.positive q
    then map (fun item => if String.eqb (Cart.url item) u
                          then Cart.with_quantity q item else item) cart
    else Cart.handleRemoveFromCart u cart.
Proof.
intros [_ Hq]. unfold Cart.handleUpdateCartQuantity, Cart.handleRemoveFromCart.
induction cart as [|item cart IH]; simpl.
- destruct (Cart.positive q); reflexivity.
- apply Forall_cons in Hq as [Hitem Hq]. specialize (IH Hq).
  apply positive_spec in Hitem.
  destruct (String.eqb (Cart.url item) u); simpl.
  + destruct (Cart.positive q); simpl; [f_equal|]; exact IH.
  + rewrite Hitem. destruct (Cart.positive q); simpl; f_equal; exact IH.
Qed.

Lemma two_lines_well_formed : Cart.well_formed two_lines.
Proof.
split.
- simpl. apply NoDup_cons. split; [|apply NoDup_singleton].
  rewrite list_elem_of_singleton. discriminate.
- constructor; [exists 2; split; [reflexivity | lia]|].
  constructor; [exists 1; split; [reflexivity | lia] | constructor].
Qed.


Lemma add_to_cart_raises_the_count_by_one_witness :
  Cart.cartItemCount two_lines = Cart.Int 3
  /\ Cart.cartItemCount (Cart.handleAddToCart cleanser two_lines) = Cart.Int 4.
Proof.
destruct (add_to_cart_raises_the_count_by_one two_lines cleanser
            two_lines_well_formed eq_refl) as (Hcount & _ & Hadd).
split; [exact Hcount | exact Hadd].
Defined.

Lemma update_to_nothing_removes_the_line_witness :
  Cart.handleUpdateCartQuantity "https://shop.example/cleanser" (Cart.Int 0) two_lines
  = Cart.handleRemoveFromCart "https://shop.example/cleanser" two_lines.
Proof.
exact (update_to_nothing_removes_the_line two_lines "https://shop.example/cleanser"
         (Cart.Int 0) two_lines_well_formed).
Defined.

(** X30 (handleAddToCart, TabButton): at 2^53 the count stalls.  The
    double nearest to 2^53 + 1 is 2^53, so on a line whose quantity has
    reached 2^53 a further add leaves the cart, and with it the count on
    the Store tab, exactly as they were. *)
Theorem add_to_cart_stalls_at_2_53 (item : Cart.CartItem) (p : Cart.ShoppingProduct) :
  Cart.quantity item = Cart.Int (2 ^ 53) ->
  Cart.url item = Cart.shoppingUrl p ->
  Cart.handleAddToCart p [item] = [item]
  /\ Cart.cartItemCount (Cart.handleAddToCart p [item]) = Cart.cartItemCount [item]
  /\ Cart.cartItemCount [item] = Cart.Int (2 ^ 53).
Proof.
intros Hq Hu.
assert (Hplus : Cart.plus (Cart.Int (2 ^ 53)) (Cart.Int 1) = Cart.Int (2 ^ 53))
  by (vm_compute; reflexivity).
assert (Hadd : Cart.handleAddToCart p [item] = [item]).
{ unfold Cart.handleAddToCart. cbn [List.find map].
  rewrite Hu, String.eqb_refl, Hq, Hplus.
  destruct item as [product q]. cbn [Cart.quantity] in Hq. subst q. reflexivity. }
rewrite Hadd. split; [reflexivity|]. split; [reflexivity|].
unfold Cart.cartItemCount. cbn [foldl]. rewrite Hq. vm_compute. reflexivity.
Qed.

Lemma add_to_cart_stalls_at_2_53_witness :
  let full := {| Cart.product := cleanser; Cart.quantity := Cart.Int (2 ^ 53) |} in
  Cart.handleAddToCart cleanser [full] = [full].
Proof.
exact (proj1 (add_to_cart_stalls_at_2_53
                {| Cart.product := cleanser; Cart.quantity := Cart.Int (2 ^ 53) |}
                cleanser eq_refl eq_refl)).
Defined.

(** ** Product search *)

Lemma lookup_map_set_same (k : string) (v : ProductSearch.JSON) properties :
  ProductSearch.lookup k (Grounding.map_set k v properties) = Some v.
Proof.
induction properties as [|[k' v'] rest IH]; simpl.
- rewrite String.eqb_refl. reflexivity.
- destruct (String.eqb k' k) eqn:E; simpl; rewrite E; [reflexivity | exact IH].
Qed.

Lemma lookup_map_set_other (k k0 : string) (v : ProductSearch.JSON) properties :
  k0 <> k ->
  ProductSearch.lookup k (Grounding.map_set k0 v properties)
  = ProductSearch.lookup k properties.
Proof.
intros Hne. induction properties as [|[k' v'] rest IH]; simpl.
- destruct (String.eqb_spec k0 k); [contradiction | reflexivity].
- destruct (String.eqb_spec k' k0) as [->|Hk0]; simpl.
  + destruct (String.eqb_spec k0 k); [contradiction | reflexivity].
  + destruct (String.eqb k' k); [reflexivity | exact IH].
Qed.

Lemma keep_true (p : ProductSearch.JSON) :
  ProductSearch.keep p = Some true ->
  exists properties,
    p = ProductSearch.JObject properties
    /\ ProductSearch.truthy (ProductSearch.lookup "name" properties) = true
    /\ ProductSearch.truthy (ProductSearch.lookup "shoppingUrl" properties) = true
    /\ ProductSearch.truthy (ProductSearch.lookup "price" properties) = true.
Proof.
unfold ProductSearch.keep.
destruct p as [|b|n|s|items|properties]; simpl; try discriminate.
destruct (ProductSearch.truthy (ProductSearch.lookup "name" properties)) eqn:E1;
  [|discriminate].
destruct (ProductSearch.truthy (ProductSearch.lookup "shoppingUrl" properties)) eqn:E2;
  [|discriminate].
intros [= E3]. exists properties. repeat split; assumption.
Qed.

Lemma filter_kept_true (ps : list ProductSearch.JSON) : forall kept,
  ProductSearch.filter_kept ps = Some kept ->
  Forall (fun p => ProductSearch.keep p = Some true) kept.
Proof.
induction ps as [|p ps IH]; simpl; intros kept H.
- inversion H. constructor.
- destruct (ProductSearch.keep p) as [b|] eqn:Hk; [|discriminate].
  destruct (ProductSearch.filter_kept ps) as [rest|]; [|discriminate].
  simpl in H. inversion H. destruct b.
  + constructor; [exact Hk | apply IH; reflexivity].
  + apply IH. reflexivity.
Qed.

Lemma imageUrl_of_http properties (v : ProductSearch.JSON) :
  ProductSearch.imageUrl_of (ProductSearch.JObject properties) = Some v ->
  exists s, v = ProductSearch.JString s /\ String.prefix "http" s = true.
Proof.
unfold ProductSearch.imageUrl_of, ProductSearch.placeholder. simpl.
assert (Hp : match ProductSearch.lookup "name" properties with
             | Some (ProductSearch.JString n) =>
                 Some (ProductSearch.JString
                         ("https://picsum.photos/seed/"
                          ++ ProductSearch.remove_white_space n ++ "/200/200"))
             | _ => None
             end = Some v ->
             exists s, v = ProductSearch.JString s /\ String.prefix "http" s = true).
{ destruct (ProductSearch.lookup "name" properties) as [[| | |n| |]|]; try discriminate.
  intros [= <-]. eexists. split; reflexivity. }
destruct (ProductSearch.truthy (ProductSearch.lookup "imageUrl" properties)); [|exact Hp].
destruct (ProductSearch.lookup "imageUrl" properties) as [[| | |s| |]|]; try discriminate.
destruct (String.prefix "http" s) eqn:E; [|exact Hp].
intros [= <-]. exists s. split; [reflexivity | exact E].
Qed.

Lemma cleaned_presentable (product_type : string) (p p' : ProductSearch.JSON) :
  ProductSearch.keep p = Some true ->
  ProductSearch.cleaned product_type p = Some p' ->
  presentable product_type p'.
Proof.
intros Hk Hc. apply keep_true in Hk as (properties & -> & H1 & H2 & H3).
unfold ProductSearch.cleaned in Hc.
destruct (ProductSearch.imageUrl_of (ProductSearch.JObject properties)) as [v|] eqn:Hi;
  [|discriminate].
simpl in Hc. inversion Hc. clear Hc.
apply imageUrl_of_http in Hi as (s & -> & Hs).
eexists. split; [reflexivity|].
rewrite !(lookup_map_set_other _ "type") by discriminate.
rewrite !(lookup_map_set_other _ "imageUrl") by discriminate.
split; [exact H1|]. split; [exact H2|]. split; [exact H3|]. split.
- exists s. rewrite lookup_map_set_same. split; [reflexivity | exact Hs].
- apply lookup_map_set_same.
Qed.

Lemma map_cleaned_presentable (product_type : string) (kept : list ProductSearch.JSON) :
  forall products,
  Forall (fun p => ProductSearch.keep p = Some true) kept ->
  ProductSearch.map_cleaned product_type kept = Some products ->
  Forall (presentable product_type) products /\ length products = length kept.
Proof.
induction kept as [|p kept IH]; simpl; intros products Hk H.
- inversion H. split; [constructor | reflexivity].
- apply Forall_cons in Hk as [Hp Hk].
  destruct (ProductSearch.cleaned product_type p) as [p'|] eqn:Hc; [|discriminate].
  destruct (ProductSearch.map_cleaned product_type kept) as [rest|]; [|discriminate].
  simpl in H. inversion H. destruct (IH rest Hk eq_refl) as [IH1 IH2]. split.
  + constructor; [exact (cleaned_presentable product_type p p' Hp Hc) | exact IH1].
  + simpl. f_equal. exact IH2.
Qed.

Lemma extract_presentable (parse : string -> option ProductSearch.JSON)
    (product_type rawText : string) (products : list ProductSearch.JSON) :
  ProductSearch.extract parse product_type rawText = Some products ->
  Forall (presentable product_type) products.
Proof.
unfold ProductSearch.extract.
destruct (ProductSearch.jsonText rawText) as [text|]; [|discriminate]. simpl.
destruct (parse text) as [[| | | |ps|]|]; try discriminate. simpl.
destruct (ProductSearch.filter_kept ps) as [kept|] eqn:Hf; [|discriminate]. simpl.
intros Hm.
exact (proj1 (map_cleaned_presentable product_type kept products
                (filter_kept_true ps kept Hf) Hm)).
Qed.

(** X25 (searchProducts): every product the search returns is an object
    with a truthy name, shopping URL and price, an image URL that is a
    string starting with [http] (its own, or the placeholder made from
    its name), and the type of the product that was asked for. *)
Theorem searchProducts_returns_presentable_products {W : Type}
    (parse : string -> option ProductSearch.JSON)
    (generateContent : W -> (string + Retry.Thrown) * W)
    (product_type : string) (w : W) (products : list ProductSearch.JSON) :
  fst (ProductSearch.searchProducts parse generateContent product_type w) = inl products ->
  Forall (presentable product_type) products.
Proof.
unfold ProductSearch.searchProducts. simpl.
destruct (Retry.result _) as [rawText|e]; [|discriminate].
destruct (ProductSearch.extract parse product_type rawText) as [ps|] eqn:He; [|discriminate].
intros [= <-]. exact (extract_presentable parse product_type rawText ps He).
Qed.

Lemma indexOf_app (c : ascii) (pre rest : string) :
  ProductSearch.indexOf c pre = None ->
  ProductSearch.indexOf c (pre ++ String c rest) = Some (String.length pre).
Proof.
induction pre as [|a pre IH]; simpl; intros H.
- rewrite Ascii.eqb_refl. reflexivity.
- destruct (Ascii.eqb a c); [discriminate|].
  destruct (ProductSearch.indexOf c pre); [discriminate|].
  rewrite IH by reflexivity. reflexivity.
Qed.

Lemma lastIndexOf_app (c : ascii) (x post : string) :
  ProductSearch.lastIndexOf c post = None ->
  ProductSearch.lastIndexOf c (x ++ String c post) = Some (String.length x).
Proof.
intros H. induction x as [|a x IH]; simpl.
- rewrite H, Ascii.eqb_refl. reflexivity.
- rewrite IH. reflexivity.
Qed.

Lemma substring_skip (pre y : string) (n : nat) :
  String.substring (String.length pre) n (pre ++ y) = String.substring 0 n y.
Proof. induction pre as [|a pre IH]; simpl; [reflexivity | exact IH]. Qed.

Lemma substring_prefix (m post : string) :
  String.substring 0 (String.length m) (m ++ post) = m.
Proof.
induction m as [|a m IH]; simpl.
- destruct post; reflexivity.
- rewrite IH. reflexivity.
Qed.

Lemma length_append (a b : string) :
  String.length (a ++ b) = (String.length a + String.length b)%nat.
Proof. induction a as [|c a IH]; simpl; [reflexivity | rewrite IH; reflexivity]. Qed.

Lemma jsonText_in_chatter (pre body post : string) :
  ProductSearch.indexOf "[" pre = None ->
  ProductSearch.lastIndexOf "]" post = None ->
  ProductSearch.jsonText (pre ++ "[" ++ body ++ "]" ++ post)
  = Some ("[" ++ body ++ "]")%string.
Proof.
intros Hpre Hpost. unfold ProductSearch.jsonText.
change (pre ++ "[" ++ body ++ "]" ++ post)%string
  with (pre ++ String "[" (body ++ String "]" post))%string.
rewrite (indexOf_app "[" pre _ Hpre).
replace (pre ++ String "[" (body ++ String "]" post))%string
  with ((pre ++ String "[" body) ++ String "]" post)%string
  by (rewrite append_assoc; reflexivity).
rewrite (lastIndexOf_app "]" _ post Hpost).
rewrite length_append. simpl String.length.
destruct (Nat.ltb_spec (String.length pre + S (String.length body)) (String.length pre));
  [lia|].
f_equal.
rewrite append_assoc. simpl.
rewrite substring_skip.
replace (String.length pre + S (String.length body) + 1 - String.length pre)%nat
  with (String.length (String "[" (body ++ "]")))
  by (simpl; rewrite length_append; simpl; lia).
change (String "[" (body ++ String "]" post))
  with (String "[" (body ++ "]" ++ post))%string.
replace (String "[" (body ++ "]" ++ post))%string
  with (String "[" (body ++ "]") ++ post)%string
  by (simpl; rewrite append_assoc; reflexivity).
apply substring_prefix.
Qed.

(** X26 (searchProducts): text around the JSON array is ignored.  When
    the model wraps the array in chatter (a code fence, a sentence
    before or after) that holds no opening bracket before it and no
    closing bracket after it, the search returns what it returns for the
    bare array. *)
Theorem searchProducts_ignores_text_around_the_array
    (parse : string -> option ProductSearch.JSON)
    (product_type pre body post : string) :
  ProductSearch.indexOf "[" pre = None ->
  ProductSearch.lastIndexOf "]" post = None ->
  ProductSearch.jsonText (pre ++ "[" ++ body ++ "]" ++ post)
  = Some ("[" ++ body ++ "]")%string
  /\ ProductSearch.extract parse product_type (pre ++ "[" ++ body ++ "]" ++ post)
     = ProductSearch.extract parse product_type ("[" ++ body ++ "]").
Proof.
intros Hpre Hpost.
pose proof (jsonText_in_chatter pre body post Hpre Hpost) as H1.
pose proof (jsonText_in_chatter EmptyString body EmptyString eq_refl eq_refl) as H2.
split; [exact H1|].
unfold ProductSearch.extract. rewrite H1.
change (EmptyString ++ "[" ++ body ++ "]" ++ EmptyString)%string
  with ("[" ++ body ++ "]" ++ EmptyString)%string in H2.
replace ("[" ++ body ++ "]" ++ EmptyString)%string with ("[" ++ body ++ "]")%string in H2
  by (simpl; reflexivity).
rewrite H2. reflexivity.
Qed.

Lemma searchProducts_returns_presentable_products_witness :
  let serum :=
    ProductSearch.JObject
      [("name"%string, ProductSearch.JString "Glow  Serum");
       ("type"%string, ProductSearch.JString "Toner");
       ("shoppingUrl"%string, ProductSearch.JString "https://shop.example/glow");
       ("imageUrl"%string, ProductSearch.JString "data:image/png;base64,AAAA");
       ("price"%string, ProductSearch.JString "$25.00")] in
  let unpriced :=
    ProductSearch.JObject
      [("name"%string, ProductSearch.JString "Mist");
       ("shoppingUrl"%string, ProductSearch.JString "https://shop.example/mist")] in
  let parse := fun _ : string => Some (ProductSearch.JArray [serum; unpriced]) in
  let generateContent :=
    Retry.scripted (T := string) Retry.Nullish in
  let w := [inr Retry.too_many_requests; inl "Sure: [ ... ]"%string] in
  exists products,
    fst (ProductSearch.searchProducts parse generateContent "Serum" w) = inl products
    /\ length products = 1%nat
    /\ Forall (presentable "Serum") products.
Proof.
intros serum unpriced parse generateContent w.
eexists. split; [reflexivity|]. split; [reflexivity|].
exact (searchProducts_returns_presentable_products parse generateContent "Serum" w _ eq_refl).
Defined.

Lemma searchProducts_ignores_text_around_the_array_witness :
  ProductSearch.jsonText "Here are the options: [{},{}] Enjoy!" = Some "[{},{}]"%string.
Proof.
exact (proj1 (searchProducts_ignores_text_around_the_array (fun _ => None) "Serum"
                "Here are the options: " "{},{}" " Enjoy!" eq_refl eq_refl)).
Defined.

(** ** The profile form *)

Lemma trimEnd_idempotent (s : string) :
  TextChat.trimEnd (TextChat.trimEnd s) = TextChat.trimEnd s.
Proof.
induction s as [|c r IH]; [reflexivity|].
cbn [TextChat.trimEnd].
destruct (TextChat.trimEnd r) as [|d r'] eqn:Hr.
- destruct (TextChat.is_white_space c) eqn:Hc; [reflexivity|].
  cbn [TextChat.trimEnd]. rewrite Hc. reflexivity.
- cbn [TextChat.trimEnd] in IH |- *.
  destruct (TextChat.trimEnd r') as [|e r''] eqn:Hr'.
  + destruct (TextChat.is_white_space d); [discriminate|]. rewrite IH. reflexivity.
  + rewrite IH. reflexivity.
Qed.

Lemma trimEnd_head (c : ascii) (r : string) :
  TextChat.is_white_space c = false ->
  TextChat.trimEnd (String c r) = String c (TextChat.trimEnd r).
Proof.
intros Hc. cbn [TextChat.trimEnd].
destruct (TextChat.trimEnd r); [rewrite Hc|]; reflexivity.
Qed.

Lemma trimStart_head (s : string) :
  TextChat.trimStart s = EmptyString
  \/ exists c r, TextChat.trimStart s = String c r /\ TextChat.is_white_space c = false.
Proof.
induction s as [|c r IH]; [left; reflexivity|].
cbn [TextChat.trimStart].
destruct (TextChat.is_white_space c) eqn:Hc; [exact IH|].
right. exists c, r. split; [reflexivity | exact Hc].
Qed.

Lemma trim_idempotent (s : string) :
  TextChat.trim (TextChat.trim s) = TextChat.trim s.
Proof.
unfold TextChat.trim.
destruct (trimStart_head s) as [->|(c & r & -> & Hc)]; [reflexivity|].
rewrite (trimEnd_head c r Hc). cbn [TextChat.trimStart]. rewrite Hc.
rewrite <- (trimEnd_head c r Hc). apply trimEnd_idempotent.
Qed.

Lemma trimStart_comma_free (s : string) :
  Profile.comma_free s = true -> Profile.comma_free (TextChat.trimStart s) = true.
Proof.
induction s as [|c r IH]; simpl; [reflexivity|]. intros H.
apply andb_prop in H as [H1 H2].
destruct (TextChat.is_white_space c); [exact (IH H2)|].
simpl. rewrite H1, H2. reflexivity.
Qed.

Lemma trimEnd_comma_free (s : string) :
  Profile.comma_free s = true -> Profile.comma_free (TextChat.trimEnd s) = true.
Proof.
induction s as [|c r IH]; [reflexivity|]. cbn [Profile.comma_free TextChat.trimEnd].
intros H. apply andb_prop in H as [H1 H2]. specialize (IH H2).
destruct (TextChat.trimEnd r) as [|d r'].
- destruct (TextChat.is_white_space c); [reflexivity|]. simpl. rewrite H1. reflexivity.
- cbn [Profile.comma_free] in IH |- *. rewrite H1, IH. reflexivity.
Qed.

Lemma split_comma_free (s : string) :
  Forall (fun piece => Profile.comma_free piece = true) (Profile.split s)
  /\ Profile.split s <> [].
Proof.
induction s as [|c r [IH1 IH2]]; simpl.
- split; [repeat constructor | discriminate].
- destruct (Ascii.eqb c ",") eqn:Hc.
  + split; [constructor; [reflexivity | exact IH1] | discriminate].
  + destruct (Profile.split r) as [|piece pieces]; [contradiction|].
    apply Forall_cons in IH1 as [Hp Hps]. split; [|discriminate].
    constructor; [simpl; rewrite Hc, Hp; reflexivity | exact Hps].
Qed.

Lemma split_piece (a : string) :
  Profile.comma_free a = true -> Profile.split a = [a].
Proof.
induction a as [|c r IH]; simpl; [reflexivity|]. intros H.
apply andb_prop in H as [H1 H2]. apply negb_true_iff in H1.
rewrite H1, (IH H2). reflexivity.
Qed.

Lemma split_append (a rest : string) :
  Profile.comma_free a = true ->
  Profile.split (a ++ String "," rest) = a :: Profile.split rest.
Proof.
induction a as [|c r IH]; simpl; [reflexivity|]. intros H.
apply andb_prop in H as [H1 H2]. apply negb_true_iff in H1.
rewrite H1, (IH H2). reflexivity.
Qed.

Lemma split_joined (a : string) (l : list string) :
  Forall (fun x => Profile.comma_free x = true) (a :: l) ->
  Profile.split (String.concat ", " (a :: l))
  = a :: map (fun x => String " " x) l.
Proof.
revert a. induction l as [|b l IH]; intros a H.
- simpl. apply split_piece. apply Forall_cons in H as [H _]. exact H.
- apply Forall_cons in H as [Ha Hl].
  change (String.concat ", " (a :: b :: l))
    with (a ++ String "," (String " " (String.concat ", " (b :: l))))%string.
  rewrite (split_append a _ Ha). f_equal.
  cbn [Profile.split]. change (Ascii.eqb " " ",") with false. cbv iota.
  rewrite (IH b Hl). reflexivity.
Qed.

Lemma concat_empty_iff (l : list string) :
  Forall (fun x => x <> EmptyString) l ->
  String.concat ", " l = EmptyString -> l = [].
Proof.
destruct l as [|a [|b l]]; simpl; intros H; [reflexivity | |].
- apply Forall_cons in H as [H _]. intros ->. contradiction.
- apply Forall_cons in H as [H _]. destruct a; [contradiction | discriminate].
Qed.

(** X27 (ProfileSettings, handleSave): every allergy the form saves is
    non-empty, has no white space around it and holds no comma, whatever
    was typed. *)
Theorem saved_allergies_are_tidy (skinType allergies goals : string) :
  Forall Profile.tidy (Prompt.allergies (Profile.handleSave skinType allergies goals)).
Proof.
simpl. apply List.Forall_forall. intros a Ha.
apply filter_In in Ha as [Ha Hne]. apply in_map_iff in Ha as (piece & <- & Hp).
destruct (split_comma_free allergies) as [Hcf _].
rewrite List.Forall_forall in Hcf. specialize (Hcf piece Hp).
split; [|split].
- intros E. rewrite E in Hne. discriminate.
- apply trim_idempotent.
- unfold TextChat.trim. apply trimEnd_comma_free, trimStart_comma_free. exact Hcf.
Qed.

(** X28 (ProfileSettings): opening the form on a profile whose allergies
    are tidy and saving it without touching the allergies field gives
    back the same list of allergies. *)
Theorem allergies_survive_the_form (p : Prompt.UserProfile) (skinType goals : string) :
  Forall Profile.tidy (Prompt.allergies p) ->
  Prompt.allergies
    (Profile.handleSave skinType (Profile.initial_allergies (Some p)) goals)
  = Prompt.allergies p.
Proof.
intros Htidy. simpl. unfold Prompt.or_else.
set (l := Prompt.allergies p) in *.
assert (Hjoin : (if String.eqb (String.concat ", " l) EmptyString
                 then EmptyString else String.concat ", " l) = String.concat ", " l).
{ destruct (String.eqb_spec (String.concat ", " l) EmptyString) as [->|]; reflexivity. }
rewrite Hjoin. clear Hjoin.
destruct l as [|a l]; [reflexivity|].
rewrite split_joined.
2:{ eapply Forall_impl; [exact Htidy|]. intros x (_ & _ & Hx). exact Hx. }
assert (Hmap : map TextChat.trim (a :: map (fun x => String " " x) l) = a :: l).
{ apply Forall_cons in Htidy as [(_ & Ha & _) Hl]. simpl. rewrite Ha. f_equal.
  rewrite map_map. rewrite <- (map_id l) at 2. apply map_ext_in. intros x Hx.
  rewrite List.Forall_forall in Hl. destruct (Hl x Hx) as (_ & Hx' & _).
  unfold TextChat.trim in *. cbn [TextChat.trimStart].
  change (TextChat.is_white_space " ") with true. cbv iota. exact Hx'. }
rewrite Hmap.
clear Hmap. induction Htidy as [|x xs (Hx & _ & _) _ IH]; [reflexivity|].
cbn [List.filter]. destruct (String.eqb_spec x EmptyString); [contradiction|].
simpl. f_equal. exact IH.
Qed.

Lemma allergies_survive_the_form_witness :
  let p := {| Prompt.skinType := "Oily"; Prompt.allergies := ["latex"; "tree nuts"];
              Prompt.goals := "Fewer breakouts" |}%string in
  Profile.initial_allergies (Some p) = "latex, tree nuts"%string
  /\ Prompt.allergies (Profile.handleSave "Dry" (Profile.initial_allergies (Some p)) "Glow")
     = ["latex"; "tree nuts"]%string.
Proof.
intros p. split; [reflexivity|].
refine (allergies_survive_the_form p "Dry" "Glow" _).
repeat constructor; discriminate.
Defined.
